(** * osp-magnum: tag scheduler and subdivision skeleton

    A shallow embedding of
    - the tag-based task scheduler ([task_enqueue], [compare_tags],
      [task_list_available], [task_start], [task_finish]), and
    - the planet skeleton ([IdRegistry::create], [SubdivIdTree],
      [SubdivSkeleton], [SubdivTriangleSkeleton::vrtx_create_chunk_edge_recurse]),
    followed by the properties proved about them.

    Conventions.  Unsigned machine integers are [Z] with the wrap-around
    written out; vectors are lists read with [vec_get] and written with
    [<[i:=x]>] / [alter]; an index outside a vector is undefined behaviour
    in the C++ code and is excluded by the size hypotheses of the theorems. *)

From Stdlib Require Import ZArith List Lia Bool.
From stdpp Require Import base list gmap.

Local Open Scope Z_scope.

(* ===================================================================== *)
(** * Part I: definitions *)
(* ===================================================================== *)

(** ** Machine integers *)

Definition wrap8 (x : Z) : Z := x mod 2 ^ 8.
Definition wrap32 (x : Z) : Z := x mod 2 ^ 32.

(** [x ++] and [x --] on [unsigned int] and on [uint8_t]. *)
Definition incr32 (x : Z) : Z := wrap32 (x + 1).
Definition decr32 (x : Z) : Z := wrap32 (x - 1).
Definition incr8 (x : Z) : Z := wrap8 (x + 1).
Definition decr8 (x : Z) : Z := wrap8 (x - 1).

Definition is_u32 (x : Z) : Prop := 0 <= x < 2 ^ 32.
Definition is_u64 (x : Z) : Prop := 0 <= x < 2 ^ 64.

#[global] Instance is_u32_dec (x : Z) : Decision (is_u32 x).
Proof. unfold is_u32. apply _. Defined.

#[global] Instance is_u64_dec (x : Z) : Decision (is_u64 x).
Proof. unfold is_u64. apply _. Defined.

(** Modelled from the spec: the reserved null id that terminates a
    dependency list, [lgrn::id_null<ID_T>()], declared outside the files
    embedded here; for a 32-bit id it is the largest value. *)
Definition id_null : Z := 4294967295.

(** ** Vectors *)

(** [v[i]] on a vector of integers.  Reading outside the vector is
    undefined behaviour in C++; here it yields 0, and the theorems assume
    the sizes that keep every access inside. *)
Definition vec_get (v : list Z) (i : nat) : Z := default 0 (v !! i).

(** ** Word-packed bitsets *)

(** Modelled from the spec: the word-packed bitset utilities
    ([lgrn::bit_view] over [uint64_t] words with [test], [set], [reset],
    [ones()] and [zeros()]), which the scheduler uses and which are
    declared outside the files embedded here.  Bit [i] lives in word [i / 64] at position [i mod 64];
    [ones] and [zeros] enumerate positions in ascending order. *)
Definition bit_test (ws : list Z) (i : nat) : bool :=
  Z.testbit (vec_get ws (i / 64)) (Z.of_nat (i mod 64)).

Definition bit_set (ws : list Z) (i : nat) : list Z :=
  alter (fun w => Z.setbit w (Z.of_nat (i mod 64))) (i / 64)%nat ws.

Definition bit_reset (ws : list Z) (i : nat) : list Z :=
  alter (fun w => Z.clearbit w (Z.of_nat (i mod 64))) (i / 64)%nat ws.

Definition bit_capacity (ws : list Z) : nat := (64 * length ws)%nat.

Definition ones (ws : list Z) : list nat :=
  List.filter (bit_test ws) (seq 0 (bit_capacity ws)).

Definition zeros (ws : list Z) : list nat :=
  List.filter (fun i => negb (bit_test ws i)) (seq 0 (bit_capacity ws)).

(** [ArrayView::slice(begin, end)]; [prefix(n)] is [take n] and
    [exceptPrefix(n)] is [drop n]. *)
Definition slice {A} (v : list A) (b e : nat) : list A := take (e - b) (drop b v).

(** ** Scheduler data *)

(** Modelled from the spec: the declarations of [TaskTags] and
    [ExecutionContext], which are outside the files embedded here; the
    fields are the ones the scheduler functions use.  The registries [m_tasks] and [m_tags]
    are id bitsets in which a clear bit marks an existing id: the scheduler
    walks existing ids with [bitview().zeros()].  [m_taskTags] holds
    [tag_ints_per_task] words per task, [m_tagDepends] holds
    [m_tagDependsPerTag] ids per tag, null-terminated.  The counters of
    [ExecutionContext] are [unsigned int]. *)
Record TaskTags := {
  m_tasks : list Z;
  m_tags : list Z;
  m_tagDepends : list Z;
  m_tagDependsPerTag : nat;
  m_taskTags : list Z
}.

Definition tag_ints_per_task (tags : TaskTags) : nat := length (m_tags tags).

Record ExecutionContext := {
  m_tagIncompleteCounts : list Z;
  m_tagRunningCounts : list Z;
  m_taskQueuedCounts : list Z
}.

(** [taskTagInts.slice(offset, offset + tagIntSize)] *)
Definition task_tag_ints (tags : TaskTags) (task : nat) : list Z :=
  let tagIntSize := tag_ints_per_task tags in
  let offset := (task * tagIntSize)%nat in
  slice (m_taskTags tags) offset (offset + tagIntSize).

(** ** task_enqueue *)

(** The inner loop of [task_enqueue]: walk the query words against the
    task's words, stop at the first pair with a common bit. *)
Fixpoint any_tag_matches (query taskTagInts : list Z) : bool :=
  match query, taskTagInts with
  | queryInt :: query', taskTagInt :: taskTagInts' =>
      if negb (Z.land queryInt taskTagInt =? 0) then true
      else any_tag_matches query' taskTagInts'
  | _, _ => false
  end.

(** One iteration of the outer loop of [task_enqueue]. *)
Definition enqueue_task (tags : TaskTags) (query : list Z)
    (rExec : ExecutionContext) (currTask : nat) : ExecutionContext :=
  if vec_get (m_taskQueuedCounts rExec) currTask =? 0 then
    let currTaskTagInts := task_tag_ints tags currTask in
    if any_tag_matches query currTaskTagInts then
      {| m_taskQueuedCounts := <[currTask := 1]> (m_taskQueuedCounts rExec);
         m_tagIncompleteCounts :=
           foldl (fun counts tag => alter incr32 tag counts)
                 (m_tagIncompleteCounts rExec) (ones currTaskTagInts);
         m_tagRunningCounts := m_tagRunningCounts rExec |}
    else rExec
  else rExec.

Definition task_enqueue (tags : TaskTags) (rExec : ExecutionContext)
    (query : list Z) : ExecutionContext :=
  foldl (enqueue_task tags query) rExec (zeros (m_tasks tags)).

(** ** compare_tags and task_list_available *)

Fixpoint compare_tags (mask taskTags : list Z) : bool :=
  match mask, taskTags with
  | [], _ => true
  | maskInt :: mask', taskTagInt :: taskTags' =>
      if negb (Z.land maskInt taskTagInt =? taskTagInt) then false
      else compare_tags mask' taskTags'
  | _ :: _, [] => false
  end.

(** The dependency loop of one tag: stop with success at the null
    terminator, stop with failure at the first incomplete dependency. *)
Fixpoint depends_satisfied (exec : ExecutionContext) (depends : list Z) : bool :=
  match depends with
  | [] => true
  | dependTag :: depends' =>
      if dependTag =? id_null then true
      else if negb (vec_get (m_tagIncompleteCounts exec) (Z.to_nat dependTag) =? 0) then false
      else depends_satisfied exec depends'
  end.

(** One iteration of the loop over tags: the state is the mask and the
    view [currDepends], which loses its prefix at every iteration. *)
Definition mask_step (tags : TaskTags) (exec : ExecutionContext)
    (st : list Z * list Z) (currTag : nat) : list Z * list Z :=
  let '(mask, currDepends) := st in
  let satisfied := depends_satisfied exec (take (m_tagDependsPerTag tags) currDepends) in
  (if satisfied then mask else bit_reset mask currTag,
   drop (m_tagDependsPerTag tags) currDepends).

Definition tag_mask (tags : TaskTags) (exec : ExecutionContext) : list Z :=
  fst (foldl (mask_step tags exec)
             (replicate (length (m_tags tags)) (Z.ones 64), m_tagDepends tags)
             (zeros (m_tags tags))).

(** One iteration of the loop over tasks. *)
Definition available_step (tags : TaskTags) (exec : ExecutionContext)
    (mask : list Z) (tasksOut : list Z) (currTask : nat) : list Z :=
  if vec_get (m_taskQueuedCounts exec) currTask =? 0 then tasksOut
  else if compare_tags mask (task_tag_ints tags currTask)
       then bit_set tasksOut currTask
       else tasksOut.

Definition task_list_available (tags : TaskTags) (exec : ExecutionContext)
    (tasksOut : list Z) : list Z :=
  foldl (available_step tags exec (tag_mask tags exec)) tasksOut
        (zeros (m_tasks tags)).

(** ** task_start and task_finish *)

Definition task_start (tags : TaskTags) (rExec : ExecutionContext)
    (task : nat) : ExecutionContext :=
  {| m_tagRunningCounts :=
       foldl (fun counts tag => alter incr32 tag counts)
             (m_tagRunningCounts rExec) (ones (task_tag_ints tags task));
     m_tagIncompleteCounts := m_tagIncompleteCounts rExec;
     m_taskQueuedCounts := m_taskQueuedCounts rExec |}.

(** The loop of [task_finish] decrements both counters of a tag in one
    iteration. *)
Definition finish_tag (rExec : ExecutionContext) (tag : nat) : ExecutionContext :=
  {| m_tagRunningCounts := alter decr32 tag (m_tagRunningCounts rExec);
     m_tagIncompleteCounts := alter decr32 tag (m_tagIncompleteCounts rExec);
     m_taskQueuedCounts := m_taskQueuedCounts rExec |}.

Definition task_finish (tags : TaskTags) (rExec : ExecutionContext)
    (task : nat) : ExecutionContext :=
  let rExec1 :=
    {| m_taskQueuedCounts := alter decr32 task (m_taskQueuedCounts rExec);
       m_tagRunningCounts := m_tagRunningCounts rExec;
       m_tagIncompleteCounts := m_tagIncompleteCounts rExec |} in
  foldl finish_tag rExec1 (ones (task_tag_ints tags task)).

(** ** Vocabulary of the scheduler properties *)

Definition task_exists (tags : TaskTags) (task : nat) : Prop :=
  task ∈ zeros (m_tasks tags).

Definition task_has_tag (tags : TaskTags) (task tag : nat) : bool :=
  bit_test (task_tag_ints tags task) tag.

(** The query and the task's tags have a tag in common. *)
Definition tags_intersect (query taskTagInts : list Z) : Prop :=
  exists tag, bit_test query tag = true /\ bit_test taskTagInts tag = true.

Definition task_queued (exec : ExecutionContext) (task : nat) : bool :=
  0 <? vec_get (m_taskQueuedCounts exec) task.

(** The entries of a dependency list in front of its null terminator. *)
Fixpoint until_null (depends : list Z) : list Z :=
  match depends with
  | [] => []
  | d :: depends' => if d =? id_null then [] else d :: until_null depends'
  end.

(** Position of an id in an ascending enumeration of ids. *)
Fixpoint position (x : nat) (l : list nat) : option nat :=
  match l with
  | [] => None
  | y :: l' => if (x =? y)%nat then Some 0%nat else S <$> position x l'
  end.

Definition tag_exists (tags : TaskTags) (tag : nat) : Prop :=
  tag ∈ zeros (m_tags tags).

(** The dependency tags declared for [tag]: [m_tagDepends] is a flat array
    of per-tag lists with the fixed stride [m_tagDependsPerTag], so the
    list of [tag] is the block at the tag's own index, up to its null
    terminator. *)
Definition tag_depends (tags : TaskTags) (tag : nat) : list Z :=
  let P := m_tagDependsPerTag tags in
  until_null (slice (m_tagDepends tags) (tag * P) (tag * P + P)).

Definition tag_allowed (tags : TaskTags) (exec : ExecutionContext) (tag : nat) : Prop :=
  forall d, d ∈ tag_depends tags tag ->
    vec_get (m_tagIncompleteCounts exec) (Z.to_nat d) = 0.

Definition task_eligible (tags : TaskTags) (exec : ExecutionContext) (task : nat) : Prop :=
  0 < vec_get (m_taskQueuedCounts exec) task /\
  forall tag, task_has_tag tags task tag = true -> tag_allowed tags exec tag.

(** The tag registry has no hole: every id below an existing tag id
    exists. *)
Definition tags_dense (tags : TaskTags) : Prop :=
  forall tag t, tag_exists tags tag -> (t < tag)%nat -> tag_exists tags t.

(** The block of [m_tagDepends] that the loop of [task_list_available]
    reads for [tag].  Its view [currDepends] loses one prefix per existing
    tag, so the [k]-th existing tag is checked against the [k]-th block;
    for a tag that does not exist nothing is read.  With a hole in the
    registry this is not the block at the tag's own index. *)
Definition cursor_depends (tags : TaskTags) (tag : nat) : list Z :=
  match position tag (zeros (m_tags tags)) with
  | Some k =>
      let P := m_tagDependsPerTag tags in
      until_null (slice (m_tagDepends tags) (k * P) (k * P + P))
  | None => []
  end.

(** What the mask of [task_list_available] holds for [tag], and what its
    loop over the tasks decides for [task], in terms of the blocks the
    code reads. *)
Definition cursor_allowed (tags : TaskTags) (exec : ExecutionContext) (tag : nat) : Prop :=
  forall d, d ∈ cursor_depends tags tag ->
    vec_get (m_tagIncompleteCounts exec) (Z.to_nat d) = 0.

Definition cursor_eligible (tags : TaskTags) (exec : ExecutionContext) (task : nat) : Prop :=
  0 < vec_get (m_taskQueuedCounts exec) task /\
  forall tag, task_has_tag tags task tag = true -> cursor_allowed tags exec tag.

(** The dependency check that the loop over tags performs for [tag] when
    it walks the tags [l] with the view [depends]. *)
Definition depends_check (tags : TaskTags) (exec : ExecutionContext)
    (l : list nat) (depends : list Z) (tag : nat) : bool :=
  match position tag l with
  | Some k =>
      let P := m_tagDependsPerTag tags in
      depends_satisfied exec (slice depends (k * P) (k * P + P))
  | None => true
  end.

(** Number of elements of [l] that satisfy [p], as a counter value. *)
Fixpoint countZ (p : nat -> bool) (l : list nat) : Z :=
  match l with
  | [] => 0
  | x :: l' => (if p x then 1 else 0) + countZ p l'
  end.

(** [task_enqueue] with this query queues the task: the task is not
    queued and the query matches one of its tags. *)
Definition newly_enqueued (tags : TaskTags) (exec : ExecutionContext)
    (query : list Z) (task : nat) : bool :=
  (vec_get (m_taskQueuedCounts exec) task =? 0)
  && any_tag_matches query (task_tag_ints tags task).

(** Number of queued tasks that carry [tag]. *)
Definition queued_with_tag (tags : TaskTags) (exec : ExecutionContext) (tag : nat) : Z :=
  countZ (fun task => task_queued exec task && task_has_tag tags task tag)
         (zeros (m_tasks tags)).

(** What the C++ code relies on: every task has its row of tag words,
    the words are 64-bit, every existing tag has its block of depends, and
    task ids fit the 32-bit id type. *)
Record wf_tags (tags : TaskTags) : Prop := {
  wf_taskTags_size :
    (bit_capacity (m_tasks tags) * tag_ints_per_task tags <= length (m_taskTags tags))%nat;
  wf_taskTags_u64 : Forall is_u64 (m_taskTags tags);
  wf_tagDepends_size :
    (length (zeros (m_tags tags)) * m_tagDependsPerTag tags <= length (m_tagDepends tags))%nat;
  wf_tasks_u32 : Z.of_nat (bit_capacity (m_tasks tags)) < 2 ^ 32
}.

Record wf_exec (tags : TaskTags) (exec : ExecutionContext) : Prop := {
  wf_incomplete_size : (bit_capacity (m_tags tags) <= length (m_tagIncompleteCounts exec))%nat;
  wf_running_size : (bit_capacity (m_tags tags) <= length (m_tagRunningCounts exec))%nat;
  wf_queued_size : (bit_capacity (m_tasks tags) <= length (m_taskQueuedCounts exec))%nat;
  wf_incomplete_u32 : Forall is_u32 (m_tagIncompleteCounts exec);
  wf_running_u32 : Forall is_u32 (m_tagRunningCounts exec);
  wf_queued_u32 : Forall is_u32 (m_taskQueuedCounts exec)
}.

(** What the runs of [reachable_gen] maintain about the queue, and what
    those that start a task at most once maintain about the running
    counts. *)
Record queue_inv (tags : TaskTags) (exec : ExecutionContext)
    (started : list nat) : Prop := {
  qi_wf : wf_exec tags exec;
  qi_queued : forall task,
    vec_get (m_taskQueuedCounts exec) task = 0 \/
    (vec_get (m_taskQueuedCounts exec) task = 1 /\ task_exists tags task);
  qi_started : forall task, task ∈ started ->
    vec_get (m_taskQueuedCounts exec) task = 1;
  qi_incomplete : forall tag,
    vec_get (m_tagIncompleteCounts exec) tag = queued_with_tag tags exec tag
}.

Record running_inv (tags : TaskTags) (exec : ExecutionContext)
    (started : list nat) : Prop := {
  ri_nodup : NoDup started;
  ri_running : forall tag,
    vec_get (m_tagRunningCounts exec) tag =
    countZ (fun task => task_has_tag tags task tag) started
}.

Definition all_zero (exec : ExecutionContext) : Prop :=
  Forall (eq 0) (m_tagIncompleteCounts exec) /\
  Forall (eq 0) (m_tagRunningCounts exec) /\
  Forall (eq 0) (m_taskQueuedCounts exec).

(** A task is returned available when its bit is set by
    [task_list_available] in a cleared output bitset. *)
Definition is_available (tags : TaskTags) (exec : ExecutionContext) (task : nat) : bool :=
  bit_test (task_list_available tags exec (replicate (length (m_tasks tags)) 0)) task.

(** Runs of the scheduler.  The second component lists the tasks that
    were started and have not finished; a finish needs the task in this
    list and removes every copy of it.  With [once = true] a task that is
    already started is not started again, so that every start is matched
    by at most one finish. *)
Inductive reachable_gen (once : bool) (tags : TaskTags) :
    ExecutionContext -> list nat -> Prop :=
| reach_init exec :
    wf_exec tags exec -> all_zero exec ->
    reachable_gen once tags exec []
| reach_enqueue exec started query :
    reachable_gen once tags exec started ->
    length query = tag_ints_per_task tags ->
    reachable_gen once tags (task_enqueue tags exec query) started
| reach_start exec started task :
    reachable_gen once tags exec started ->
    is_available tags exec task = true ->
    (once = true -> task ∉ started) ->
    reachable_gen once tags (task_start tags exec task) (task :: started)
| reach_finish exec started task :
    reachable_gen once tags exec started ->
    task ∈ started ->
    reachable_gen once tags (task_finish tags exec task)
                  (List.filter (fun t => negb (t =? task)%nat) started).

(** Enqueue, start of an available task, also of one that is already
    started, and finish of a task started since its last finish. *)
Definition reachable_any := reachable_gen false.
(** The same, where only tasks that are not already started are started. *)
Definition reachable := reachable_gen true.

(** ** Scheduler scenarios *)

(** Tags A = 0 and B = 1, B depends on A; task T0 carries A, task T1
    carries B.  The registries hold 64 ids each, of which ids 0 and 1
    exist. *)
Definition registry_two : list Z := [Z.ones 64 - 3].
Definition registry_one : list Z := [Z.ones 64 - 1].

Definition no_depends (n : nat) : list Z := replicate n id_null.

Definition tags_dep : TaskTags :=
  {| m_tasks := registry_two;
     m_tags := registry_two;
     m_tagDepends := replicate 8 id_null ++ [0] ++ replicate 7 id_null
                     ++ no_depends (62 * 8);
     m_tagDependsPerTag := 8;
     m_taskTags := [1; 2] ++ replicate 62 0 |}.

(** One tag A = 0 and one task T0 carrying it. *)
Definition tags_single : TaskTags :=
  {| m_tasks := registry_one;
     m_tags := registry_one;
     m_tagDepends := no_depends (64 * 8);
     m_tagDependsPerTag := 8;
     m_taskTags := [1] ++ replicate 63 0 |}.

Definition exec_zero : ExecutionContext :=
  {| m_tagIncompleteCounts := replicate 64 0;
     m_tagRunningCounts := replicate 64 0;
     m_taskQueuedCounts := replicate 64 0 |}.

(** The state of the two-tag scenario after [enqueue {A, B}]
    ([exec_dep_enqueued_eq] below). *)
Definition exec_dep_enqueued : ExecutionContext :=
  {| m_tagIncompleteCounts := [1; 1] ++ replicate 62 0;
     m_tagRunningCounts := replicate 64 0;
     m_taskQueuedCounts := [1; 1] ++ replicate 62 0 |}.

(** ** Errors *)

(** The only error the planet code raises: the [std::runtime_error] thrown
    by [IdRegistry::create]. *)
Inductive Error := CapacityExceeded.

Inductive Result (A : Type) :=
| Ok (a : A)
| Throw (e : Error).
Arguments Ok {A} a.
Arguments Throw {A} e.

(** Errors propagate through sequenced calls like C++ exceptions. *)
#[global] Instance Result_bind : MBind Result := fun A B k r =>
  match r with
  | Ok a => k a
  | Throw e => Throw e
  end.

(** ** IdRegistry *)

(** [m_exists] with its [capacity()], and the stack [m_deleted], kept with
    its [back()] at the head of the list. *)
Record IdRegistry := {
  m_exists : list bool;
  m_exists_capacity : nat;
  m_deleted : list Z
}.

(** Capacity after a [push_back] onto a full vector.  The growth policy of
    [std::vector] is implementation-defined; nothing proved below depends
    on more than the new capacity exceeding the old one. *)
Definition vector_grow (capacity : nat) : nat := Nat.max 1 (2 * capacity).

Definition size_required (r : IdRegistry) : Z := wrap32 (Z.of_nat (length (m_exists r))).

(** [IdRegistry<ID_T, NO_AUTO_RESIZE>::create] *)
Definition create (NO_AUTO_RESIZE : bool) (r : IdRegistry) : Result (IdRegistry * Z) :=
  match m_deleted r with
  | id :: deleted' =>
      (* Attempt to reuse a deleted ID *)
      Ok ({| m_exists := <[Z.to_nat id := true]> (m_exists r);
             m_exists_capacity := m_exists_capacity r;
             m_deleted := deleted' |}, id)
  | [] =>
      if NO_AUTO_RESIZE && (length (m_exists r) =? m_exists_capacity r)%nat
      then Throw CapacityExceeded
      else
        (* Create a new Id *)
        let id := wrap32 (Z.of_nat (length (m_exists r))) in
        Ok ({| m_exists := m_exists r ++ [true];
               m_exists_capacity :=
                 if (length (m_exists r) =? m_exists_capacity r)%nat
                 then vector_grow (m_exists_capacity r)
                 else m_exists_capacity r;
               m_deleted := [] |}, id)
  end.

(** ** SubdivIdTree *)

Record SubdivIdTree := {
  m_registry : IdRegistry;
  m_parentsToId : gmap Z Z;
  m_idToParents : list Z;
  m_idChildCount : list Z
}.

Definition wrap64 (x : Z) : Z := x mod 2 ^ 64.

(** [hash_id_combination] for a 32-bit [id_int_t]. *)
Definition hash_id_combination (a b : Z) : Z :=
  let ls := if a >? b then a else b in
  let ms := if a >? b then b else a in
  Z.lor ls (wrap64 (Z.shiftl ms 32)).

Definition create_root (t : SubdivIdTree) : Result (SubdivIdTree * Z) :=
  '(registry, id) ← create false (m_registry t);
  Ok ({| m_registry := registry;
         m_parentsToId := m_parentsToId t;
         m_idToParents := m_idToParents t;
         m_idChildCount :=
           <[Z.to_nat id := 0]>
             (resize (Z.to_nat (size_required registry)) 0 (m_idChildCount t)) |},
      id).

Definition create_or_get (t : SubdivIdTree) (a b : Z) : Result (SubdivIdTree * (Z * bool)) :=
  let combination := hash_id_combination a b in
  match m_parentsToId t !! combination with
  | Some id =>
      (* the element exists, nothing is emplaced *)
      Ok (t, (id, false))
  | None =>
      (* a blank element was emplaced under this combination *)
      let t0 := {| m_registry := m_registry t;
                   m_parentsToId := <[combination := 0]> (m_parentsToId t);
                   m_idToParents := m_idToParents t;
                   m_idChildCount := m_idChildCount t |} in
      '(t1, id) ← create_root t0;
      Ok ({| m_registry := m_registry t1;
             m_parentsToId := <[combination := id]> (m_parentsToId t1);
             m_idToParents :=
               <[Z.to_nat id := combination]>
                 (resize (Z.to_nat (size_required (m_registry t1))) 0 (m_idToParents t1));
             m_idChildCount :=
               alter incr8 (Z.to_nat b) (alter incr8 (Z.to_nat a) (m_idChildCount t1)) |},
          (id, true))
  end.

(** ** SubdivSkeleton *)

Record SubdivSkeleton := {
  m_vrtxIdTree : SubdivIdTree;
  m_vrtxRefCount : list Z;
  m_maybeDelete : list Z
}.

Definition vrtx_create_root (s : SubdivSkeleton) : Result (SubdivSkeleton * Z) :=
  '(tree, vrtxId) ← create_root (m_vrtxIdTree s);
  Ok ({| m_vrtxIdTree := tree;
         m_vrtxRefCount :=
           <[Z.to_nat vrtxId := 0]>
             (resize (Z.to_nat (size_required (m_registry tree))) 0 (m_vrtxRefCount s));
         m_maybeDelete := m_maybeDelete s |},
      vrtxId).

Definition vrtx_create_or_get_child (s : SubdivSkeleton) (a b : Z) : Result (SubdivSkeleton * Z) :=
  '(tree, (vrtxId, created)) ← create_or_get (m_vrtxIdTree s) a b;
  Ok ({| m_vrtxIdTree := tree;
         m_vrtxRefCount :=
           if (created : bool)
           then <[Z.to_nat vrtxId := 0]>
                  (resize (Z.to_nat (size_required (m_registry tree))) 0 (m_vrtxRefCount s))
           else m_vrtxRefCount s;
         m_maybeDelete := m_maybeDelete s |},
      vrtxId).

(** [vrtx_refcount_add] and [vrtx_refcount_remove] are [noexcept] and
    return nothing: they map a skeleton to a skeleton. *)
Definition vrtx_refcount_add (s : SubdivSkeleton) (id : Z) : SubdivSkeleton :=
  {| m_vrtxIdTree := m_vrtxIdTree s;
     m_vrtxRefCount := alter incr8 (Z.to_nat id) (m_vrtxRefCount s);
     m_maybeDelete := m_maybeDelete s |}.

Definition vrtx_refcount_remove (s : SubdivSkeleton) (id : Z) : SubdivSkeleton :=
  {| m_vrtxIdTree := m_vrtxIdTree s;
     m_vrtxRefCount := alter decr8 (Z.to_nat id) (m_vrtxRefCount s);
     m_maybeDelete := m_maybeDelete s |}.

(** ** SubdivTriangleSkeleton::vrtx_create_chunk_edge_recurse *)

(** [ArrayView::suffix(n)] belongs to the Corrade library and has had two
    meanings: the view without its first [n] elements (the one this code
    was written against, later renamed [exceptPrefix]), and the view of the
    last [n] elements.  The recursion is modelled for both. *)
Inductive SuffixMeaning := SuffixFrom | SuffixLast.

Definition suffix_begin (sem : SuffixMeaning) (size n : nat) : nat :=
  match sem with
  | SuffixFrom => n
  | SuffixLast => (size - n)%nat
  end.

(** The function only touches the [SubdivSkeleton] base of the triangle
    skeleton.  [rOut] is a view: what the recursive calls write through
    their sub-views is written back into it. *)
Fixpoint vrtx_create_chunk_edge_recurse (sem : SuffixMeaning) (level : nat)
    (a b : Z) (rOut : list Z) (s : SubdivSkeleton) : Result (SubdivSkeleton * list Z) :=
  match level with
  | O => Ok (s, rOut)
  | S level' =>
      '(s1, mid) ← vrtx_create_or_get_child s a b;
      let halfSize := (length rOut / 2)%nat in
      let rOut1 := <[halfSize := mid]> rOut in
      '(s2, outL) ←
         vrtx_create_chunk_edge_recurse sem level' a mid (take halfSize rOut1) s1;
      let rOut2 := outL ++ drop halfSize rOut1 in
      let from := suffix_begin sem (length rOut2) halfSize in
      '(s3, outR) ←
         vrtx_create_chunk_edge_recurse sem level' mid b (drop from rOut2) s2;
      Ok (s3, take from rOut2 ++ outR)
  end.

(** ** Vocabulary of the skeleton properties *)

Definition empty_registry (capacity : nat) : IdRegistry :=
  {| m_exists := []; m_exists_capacity := capacity; m_deleted := [] |}.

Definition empty_tree : SubdivIdTree :=
  {| m_registry := empty_registry 0;
     m_parentsToId := ∅;
     m_idToParents := [];
     m_idChildCount := [] |}.

Definition empty_skeleton : SubdivSkeleton :=
  {| m_vrtxIdTree := empty_tree; m_vrtxRefCount := []; m_maybeDelete := [] |}.

(** [id] is live in the registry. *)
Definition id_live (r : IdRegistry) (id : Z) : Prop :=
  0 <= id /\ m_exists r !! Z.to_nat id = Some true.

(** The midpoint recorded for the pair [(a, b)], if any. *)
Definition midpoint (s : SubdivSkeleton) (a b : Z) : option Z :=
  m_parentsToId (m_vrtxIdTree s) !! hash_id_combination a b.

(** The subdivision sequence of an edge: the midpoint in the middle, the
    sequence of [(a, mid)] to its left, that of [(mid, b)] to its right. *)
Fixpoint edge_sequence (s : SubdivSkeleton) (level : nat) (a b : Z)
    (out : list Z) : Prop :=
  match level with
  | O => out = []
  | S level' =>
      exists mid outL outR,
        out = outL ++ mid :: outR /\
        length outL = length outR /\
        midpoint s a b = Some mid /\
        edge_sequence s level' a mid outL /\
        edge_sequence s level' mid b outR
  end.

(** Every recorded midpoint of [s] is recorded in [s']. *)
Definition midpoints_kept (s s' : SubdivSkeleton) : Prop :=
  forall h v,
    m_parentsToId (m_vrtxIdTree s) !! h = Some v ->
    m_parentsToId (m_vrtxIdTree s') !! h = Some v.

(** The skeleton a call leaves behind, when it returns. *)
Definition result_state {A} (r : Result (SubdivSkeleton * A)) : option SubdivSkeleton :=
  match r with
  | Ok (s, _) => Some s
  | Throw _ => None
  end.

(** [a] and [b] name the same unordered pair as [a'] and [b']. *)
Definition same_pair (a b a' b' : Z) : Prop :=
  (a = a' /\ b = b') \/ (a = b' /\ b = a').

(** Calls on a [SubdivIdTree]; a history is a list of calls made on the
    empty tree. *)
Inductive TreeOp :=
| OpCreateRoot
| OpCreateOrGet (a b : Z).

Definition run_op (t : SubdivIdTree) (op : TreeOp) : Result (SubdivIdTree * (Z * bool)) :=
  match op with
  | OpCreateRoot => '(t', id) ← create_root t; Ok (t', (id, true))
  | OpCreateOrGet a b => create_or_get t a b
  end.

(** The tree after the calls, with what each call returned. *)
Fixpoint run_ops (t : SubdivIdTree) (ops : list TreeOp) :
    Result (SubdivIdTree * list (Z * bool)) :=
  match ops with
  | [] => Ok (t, [])
  | op :: ops' =>
      '(t1, r) ← run_op t op;
      '(t2, rs) ← run_ops t1 ops';
      Ok (t2, r :: rs)
  end.

Definition op_u32 (op : TreeOp) : Prop :=
  match op with
  | OpCreateRoot => True
  | OpCreateOrGet a b => is_u32 a /\ is_u32 b
  end.

(** A registry as [create] and removal leave it: the freed slots are
    inside the array and not live, and the array size fits the id type. *)
Record wf_registry (r : IdRegistry) : Prop := {
  wf_deleted : forall id, id ∈ m_deleted r ->
    0 <= id /\ m_exists r !! Z.to_nat id = Some false;
  wf_exists_u32 : Z.of_nat (length (m_exists r)) < 2 ^ 32 - 1
}.

(** Two roots 0 and 1. *)
Definition tree_two_roots : SubdivIdTree :=
  {| m_registry := {| m_exists := [true; true]; m_exists_capacity := 2; m_deleted := [] |};
     m_parentsToId := ∅;
     m_idToParents := [];
     m_idChildCount := [0; 0] |}.

(** Root 0, roots 1 to 256, and the midpoints of (0, 1) to (0, 255). *)
Definition ops_255_children : list TreeOp :=
  replicate 257 OpCreateRoot
  ++ List.map (fun i => OpCreateOrGet 0 (Z.of_nat i)) (seq 1 255).

(** A registry of 64 slots that is at capacity and has slot 5 freed. *)
Definition registry_full_freed : IdRegistry :=
  {| m_exists := <[5%nat := false]> (replicate 64 true);
     m_exists_capacity := 64;
     m_deleted := [5] |}.

(** ** Further vocabulary and scenarios *)

Definition is_u8 (x : Z) : Prop := 0 <= x < 2 ^ 8.

(** Tags A = 0 and B = 1, B depends on A, and one task T0 that carries
    both. *)
Definition tags_selfdep : TaskTags :=
  {| m_tasks := registry_one;
     m_tags := registry_two;
     m_tagDepends := replicate 8 id_null ++ [0] ++ replicate 7 id_null
                     ++ no_depends (62 * 8);
     m_tagDependsPerTag := 8;
     m_taskTags := [3] ++ replicate 63 0 |}.

(** One tag A = 0; task T0 carries it, task T1 exists and carries no
    tag. *)
Definition tags_tagless : TaskTags :=
  {| m_tasks := registry_two;
     m_tags := registry_one;
     m_tagDepends := no_depends (64 * 8);
     m_tagDependsPerTag := 8;
     m_taskTags := [1; 0] ++ replicate 62 0 |}.

(** Tags 0 and 2 exist and tag id 1 is free; one dependency per tag, and
    tag 2 declares tag 0 in its own block.  Task T0 carries tag 0, task T1
    carries tag 2. *)
Definition registry_hole : list Z := [Z.ones 64 - 5].

Definition tags_hole : TaskTags :=
  {| m_tasks := registry_two;
     m_tags := registry_hole;
     m_tagDepends := [id_null; id_null; 0] ++ no_depends 61;
     m_tagDependsPerTag := 1;
     m_taskTags := [1; 4] ++ replicate 62 0 |}.

(** The state of [tags_hole] after enqueueing both tags. *)
Definition exec_hole_enqueued : ExecutionContext :=
  {| m_tagIncompleteCounts := [1; 0; 1] ++ replicate 61 0;
     m_tagRunningCounts := replicate 64 0;
     m_taskQueuedCounts := [1; 1] ++ replicate 62 0 |}.

(** Only tag 0 exists, and the block of tag id 1, which does not exist,
    names tag 0.  Task T0 carries tag 0, task T1 carries tag id 1. *)
Definition tags_stray : TaskTags :=
  {| m_tasks := registry_two;
     m_tags := registry_one;
     m_tagDepends := [id_null; 0] ++ no_depends 62;
     m_tagDependsPerTag := 1;
     m_taskTags := [1; 2] ++ replicate 62 0 |}.

(** Tags A = 0 and B = 1, B depends on A; tasks U1 = 0 and U2 = 1 carry A,
    task T = 2 carries B. *)
Definition registry_three : list Z := [Z.ones 64 - 7].

Definition tags_dep3 : TaskTags :=
  {| m_tasks := registry_three;
     m_tags := registry_two;
     m_tagDepends := replicate 8 id_null ++ [0] ++ replicate 7 id_null
                     ++ no_depends (62 * 8);
     m_tagDependsPerTag := 8;
     m_taskTags := [1; 1; 2] ++ replicate 61 0 |}.

(** ** Triangle ids *)

(** [tri_group_id], [tri_sibling_index] (returned as [uint8_t]) and
    [tri_id] (32-bit arithmetic) on the integer values of the ids. *)
Definition tri_group_id (id : Z) : Z := id / 4.

Definition tri_sibling_index (id : Z) : Z := wrap8 (id mod 4).

Definition tri_id (id siblingIndex : Z) : Z := wrap32 (id * 4 + siblingIndex).

(** ** Further vocabulary of the skeleton properties *)

(** A registry in which, besides [wf_registry], no slot is on the freed
    stack twice. *)
Record registry_inv (r : IdRegistry) : Prop := {
  rg_wf : wf_registry r;
  rg_nodup : NoDup (m_deleted r)
}.

(** [n] successive calls of [create], with the ids they return. *)
Fixpoint create_n (NO_AUTO_RESIZE : bool) (n : nat) (r : IdRegistry) :
    Result (IdRegistry * list Z) :=
  match n with
  | O => Ok (r, [])
  | S n' =>
      '(r1, id) ← create NO_AUTO_RESIZE r;
      '(r2, ids) ← create_n NO_AUTO_RESIZE n' r1;
      Ok (r2, id :: ids)
  end.

(** Number of calls in a list of results that created an id. *)
Definition count_created (res : list (Z * bool)) : nat :=
  length (List.filter snd res).

(** What a history of calls keeps true of a tree: nothing is ever freed,
    and every child recorded in the pair map is an allocated id whose
    back-reference in [m_idToParents] is the key it is recorded under. *)
Record tree_inv (t : SubdivIdTree) : Prop := {
  ti_deleted : m_deleted (m_registry t) = [];
  ti_backref : forall key id,
    m_parentsToId t !! key = Some id ->
    0 <= id < Z.of_nat (length (m_exists (m_registry t))) /\
    vec_get (m_idToParents t) (Z.to_nat id) = key
}.

(** ** SubdivTriangleSkeleton::vrtx_create_middles *)

(** The three calls are the elements of a braced initialiser list and run
    left to right. *)
Definition vrtx_create_middles (s : SubdivSkeleton) (vertices : Z * Z * Z) :
    Result (SubdivSkeleton * (Z * Z * Z)) :=
  let '(v0, v1, v2) := vertices in
  '(s1, m0) ← vrtx_create_or_get_child s v0 v1;
  '(s2, m1) ← vrtx_create_or_get_child s1 v1 v2;
  '(s3, m2) ← vrtx_create_or_get_child s2 v2 v0;
  Ok (s3, (m0, m1, m2)).

(** ** SubdivTriangleSkeleton: triangle groups *)

(** [std::array<T, 4>] with its subscript; the index of every access in
    the code is below 4. *)
Definition array4 (A : Type) : Type := A * A * A * A.

Definition array4_get {A} (arr : array4 A) (i : Z) : A :=
  let '(x0, x1, x2, x3) := arr in
  if i =? 0 then x0 else if i =? 1 then x1 else if i =? 2 then x2 else x3.

Definition array4_set {A} (arr : array4 A) (i : Z) (x : A) : array4 A :=
  let '(x0, x1, x2, x3) := arr in
  if i =? 0 then (x, x1, x2, x3)
  else if i =? 1 then (x0, x, x2, x3)
  else if i =? 2 then (x0, x1, x, x3)
  else (x0, x1, x2, x).

Record SkeletonTriangle := {
  m_vertices : Z * Z * Z;
  m_children : option Z
}.

Record SkTriGroup := {
  m_triangles : array4 SkeletonTriangle;
  m_parent : Z;
  m_depth : Z
}.

(** The triangle skeleton: its [SubdivSkeleton] base and its own members. *)
Record SubdivTriangleSkeleton := {
  m_base : SubdivSkeleton;
  m_triIds : IdRegistry;
  m_triData : list SkTriGroup;
  m_triRefCount : list Z
}.

(** The value-initialised element [std::vector::resize] appends. *)
Definition empty_triangle : SkeletonTriangle :=
  {| m_vertices := (0, 0, 0); m_children := None |}.

Definition empty_group : SkTriGroup :=
  {| m_triangles := (empty_triangle, empty_triangle, empty_triangle, empty_triangle);
     m_parent := 0;
     m_depth := 0 |}.

Definition tri_group_resize_fit_ids (sk : SubdivTriangleSkeleton) : SubdivTriangleSkeleton :=
  {| m_base := m_base sk;
     m_triIds := m_triIds sk;
     m_triData :=
       resize (Z.to_nat (size_required (m_triIds sk))) empty_group (m_triData sk);
     m_triRefCount :=
       resize (Z.to_nat (wrap32 (size_required (m_triIds sk) * 4))) 0 (m_triRefCount sk) |}.

(** One iteration of the loop of [tri_group_create] over the four
    triangles: the state is the group under construction and the
    [SubdivSkeleton] base, whose reference counts the inner loop bumps. *)
Definition tri_group_create_step (vertices : array4 (Z * Z * Z))
    (st : SkTriGroup * SubdivSkeleton) (i : Z) : SkTriGroup * SubdivSkeleton :=
  let '(rGroup, base) := st in
  let '(va, vb, vc) := array4_get vertices i in
  let rTri := {| m_children := None; m_vertices := (va, vb, vc) |} in
  ({| m_triangles := array4_set (m_triangles rGroup) i rTri;
      m_parent := m_parent rGroup;
      m_depth := m_depth rGroup |},
   foldl vrtx_refcount_add base [va; vb; vc]).

Definition tri_group_create (sk : SubdivTriangleSkeleton) (depth parent : Z)
    (vertices : array4 (Z * Z * Z)) : Result (SubdivTriangleSkeleton * Z) :=
  '(triIds, groupId) ← create false (m_triIds sk);
  let sk1 := tri_group_resize_fit_ids
               {| m_base := m_base sk; m_triIds := triIds;
                  m_triData := m_triData sk; m_triRefCount := m_triRefCount sk |} in
  let rGroup0 := default empty_group (m_triData sk1 !! Z.to_nat groupId) in
  let rGroup1 := {| m_triangles := m_triangles rGroup0;
                    m_parent := parent;
                    m_depth := depth |} in
  let '(rGroup, base) :=
    foldl (tri_group_create_step vertices) (rGroup1, m_base sk1) [0; 1; 2; 3] in
  Ok ({| m_base := base;
         m_triIds := m_triIds sk1;
         m_triData := <[Z.to_nat groupId := rGroup]> (m_triData sk1);
         m_triRefCount := m_triRefCount sk1 |},
      groupId).

(** [tri_at]: [m_triData.at(groupIndex)] throws [std::out_of_range] when
    the group index is outside the vector; that outcome is [None]. *)
Definition tri_at (sk : SubdivTriangleSkeleton) (triId : Z) : option SkeletonTriangle :=
  rGroup ← m_triData sk !! Z.to_nat (tri_group_id triId);
  Some (array4_get (m_triangles rGroup) (tri_sibling_index triId)).

(** The twelve vertex references of a group, in the order the loops of
    [tri_group_create] visit them. *)
Definition group_vertices (vertices : array4 (Z * Z * Z)) : list Z :=
  let '((a0, b0, c0), (a1, b1, c1), (a2, b2, c2), (a3, b3, c3)) := vertices in
  [a0; b0; c0; a1; b1; c1; a2; b2; c2; a3; b3; c3].

(** Three root vertices with reference count 0 and no triangle group. *)
Definition skeleton_three_roots : SubdivTriangleSkeleton :=
  {| m_base :=
       {| m_vrtxIdTree :=
            {| m_registry := {| m_exists := [true; true; true];
                                m_exists_capacity := 4; m_deleted := [] |};
               m_parentsToId := ∅;
               m_idToParents := [];
               m_idChildCount := [0; 0; 0] |};
          m_vrtxRefCount := [0; 0; 0];
          m_maybeDelete := [] |};
     m_triIds := empty_registry 0;
     m_triData := [];
     m_triRefCount := [] |}.

(* ===================================================================== *)
(** * Part II: properties *)
(* ===================================================================== *)

(** ** Tactics *)

(** Decide a closed decidable proposition by evaluation. *)
Ltac by_evaluation := refine (bool_decide_unpack _ _); vm_compute; exact I.

(** Well-formedness of a concrete description or context. *)
Ltac wf_tags_by_evaluation :=
  split; [vm_compute; lia | by_evaluation | vm_compute; lia | vm_compute; reflexivity].

Ltac wf_exec_by_evaluation :=
  split; [vm_compute; lia | vm_compute; lia | vm_compute; lia
         | by_evaluation | by_evaluation | by_evaluation].

(** ** Vectors and bitsets *)

Lemma vec_get_ge (v : list Z) (i : nat) :
  (length v <= i)%nat -> vec_get v i = 0.
Proof. intros Hle. unfold vec_get. by rewrite lookup_ge_None_2. Qed.

Lemma vec_get_lookup (v : list Z) (i : nat) (x : Z) :
  v !! i = Some x -> vec_get v i = x.
Proof. intros Hx. unfold vec_get. by rewrite Hx. Qed.

Lemma vec_get_alter (f : Z -> Z) (v : list Z) (i j : nat) :
  vec_get (alter f i v) j =
    if decide (i = j /\ (i < length v)%nat) then f (vec_get v i) else vec_get v j.
Proof.
  unfold vec_get. rewrite list_lookup_alter.
  destruct (decide (i = j)) as [->|Hne].
  - destruct (v !! j) eqn:Hj; simpl.
    + apply lookup_lt_Some in Hj. by rewrite decide_True.
    + apply lookup_ge_None in Hj. rewrite decide_False by lia. done.
  - rewrite decide_False by tauto. done.
Qed.

Lemma vec_get_insert (v : list Z) (i j : nat) (x : Z) :
  vec_get (<[i := x]> v) j =
    if decide (i = j /\ (i < length v)%nat) then x else vec_get v j.
Proof. rewrite list_insert_alter. apply vec_get_alter. Qed.

Lemma vec_get_replicate (n i : nat) (x : Z) :
  vec_get (replicate n x) i = if decide (i < n)%nat then x else 0.
Proof.
  case_decide.
  - apply vec_get_lookup. by apply lookup_replicate_2.
  - apply vec_get_ge. rewrite length_replicate. lia.
Qed.

Lemma vec_get_all_zero (v : list Z) (i : nat) :
  Forall (eq 0) v -> vec_get v i = 0.
Proof.
  intros Hall. unfold vec_get. destruct (v !! i) as [x|] eqn:Hx; [|done].
  simpl. symmetry. by eapply (Forall_lookup_1 (eq 0)).
Qed.

Lemma bit_index_lt (n i : nat) :
  (i / 64 < n)%nat <-> (i < 64 * n)%nat.
Proof.
  pose proof (Nat.div_mod_eq i 64) as Hi.
  pose proof (Nat.mod_upper_bound i 64) as Hm.
  lia.
Qed.

Lemma bit_index_eq (i j : nat) :
  (i / 64 = j / 64)%nat -> (i mod 64 = j mod 64)%nat -> i = j.
Proof.
  intros Hd Hm.
  rewrite (Nat.div_mod_eq i 64), (Nat.div_mod_eq j 64). lia.
Qed.

Lemma bit_test_lt (ws : list Z) (i : nat) :
  bit_test ws i = true -> (i < bit_capacity ws)%nat.
Proof.
  unfold bit_test, bit_capacity. intros Hbit.
  apply bit_index_lt.
  destruct (decide (i / 64 < length ws)%nat) as [|Hge]; [done|].
  rewrite vec_get_ge, Z.testbit_0_l in Hbit by lia. done.
Qed.

Lemma elem_of_ones (ws : list Z) (i : nat) :
  i ∈ ones ws <-> bit_test ws i = true.
Proof.
  unfold ones. rewrite list_elem_of_In, filter_In, in_seq.
  split; [tauto|]. intros Hbit. split; [|done].
  apply bit_test_lt in Hbit. lia.
Qed.

Lemma elem_of_zeros (ws : list Z) (i : nat) :
  i ∈ zeros ws <-> (i < bit_capacity ws)%nat /\ bit_test ws i = false.
Proof.
  unfold zeros. rewrite list_elem_of_In, filter_In, in_seq, negb_true_iff.
  split; intros [? ?]; split; try done; lia.
Qed.

Lemma NoDup_ones (ws : list Z) : NoDup (ones ws).
Proof.
  unfold ones. apply NoDup_ListNoDup, List.NoDup_filter, NoDup_ListNoDup, NoDup_seq.
Qed.

Lemma NoDup_zeros (ws : list Z) : NoDup (zeros ws).
Proof.
  unfold zeros. apply NoDup_ListNoDup, List.NoDup_filter, NoDup_ListNoDup, NoDup_seq.
Qed.

Lemma length_bit_set (ws : list Z) (i : nat) : length (bit_set ws i) = length ws.
Proof. apply length_alter. Qed.

Lemma length_bit_reset (ws : list Z) (i : nat) : length (bit_reset ws i) = length ws.
Proof. apply length_alter. Qed.

Lemma bit_test_set (ws : list Z) (i j : nat) :
  bit_test (bit_set ws i) j =
    if decide (i = j /\ (i < bit_capacity ws)%nat) then true else bit_test ws j.
Proof.
  unfold bit_test, bit_set, bit_capacity.
  rewrite vec_get_alter.
  destruct (decide (i / 64 = j / 64 /\ i / 64 < length ws)%nat) as [[Hd Hl]|Hn].
  - rewrite Z.setbit_eqb by lia. rewrite Hd.
    destruct (Z.eqb_spec (Z.of_nat (i mod 64)) (Z.of_nat (j mod 64))) as [He|He].
    + rewrite decide_True; [done|]. split.
      * apply bit_index_eq; lia.
      * by apply bit_index_lt.
    + rewrite decide_False; [done|]. intros [-> _]. done.
  - rewrite decide_False; [done|]. intros [-> Hl]. apply Hn.
    split; [done|]. by apply bit_index_lt.
Qed.

Lemma bit_test_reset (ws : list Z) (i j : nat) :
  bit_test (bit_reset ws i) j =
    if decide (i = j /\ (i < bit_capacity ws)%nat) then false else bit_test ws j.
Proof.
  unfold bit_test, bit_reset, bit_capacity.
  rewrite vec_get_alter.
  destruct (decide (i / 64 = j / 64 /\ i / 64 < length ws)%nat) as [[Hd Hl]|Hn].
  - rewrite Z.clearbit_eqb. rewrite Hd.
    destruct (Z.eqb_spec (Z.of_nat (i mod 64)) (Z.of_nat (j mod 64))) as [He|He].
    + rewrite decide_True; [by rewrite andb_false_r|]. split.
      * apply bit_index_eq; lia.
      * by apply bit_index_lt.
    + rewrite decide_False; [by rewrite andb_true_r|]. intros [-> _]. done.
  - rewrite decide_False; [done|]. intros [-> Hl]. apply Hn.
    split; [done|]. by apply bit_index_lt.
Qed.

Lemma bit_test_replicate_ones (n i : nat) :
  bit_test (replicate n (Z.ones 64)) i = bool_decide (i < 64 * n)%nat.
Proof.
  unfold bit_test.
  pose proof (Nat.mod_upper_bound i 64) as Hm.
  rewrite vec_get_replicate.
  destruct (decide (i < 64 * n)%nat) as [Hlt|Hge].
  - rewrite bool_decide_eq_true_2 by done.
    rewrite decide_True by (by apply bit_index_lt).
    apply Z.ones_spec_low. lia.
  - rewrite bool_decide_eq_false_2 by done.
    rewrite decide_False; [apply Z.testbit_0_l|].
    by rewrite bit_index_lt.
Qed.

Lemma bit_test_replicate_0 (n i : nat) :
  bit_test (replicate n 0) i = false.
Proof.
  unfold bit_test. rewrite vec_get_replicate.
  case_decide; apply Z.testbit_0_l.
Qed.

(** ** Words *)

Lemma bit_position (k r : nat) :
  (r < 64)%nat -> ((64 * k + r) / 64 = k /\ (64 * k + r) mod 64 = r)%nat.
Proof.
  intros Hr. split.
  - symmetry. apply (Nat.div_unique _ 64 k r); lia.
  - symmetry. apply (Nat.mod_unique _ 64 k r); lia.
Qed.

Lemma u64_testbit_high (t n : Z) :
  is_u64 t -> 64 <= n -> Z.testbit t n = false.
Proof.
  intros Ht Hn. rewrite <- (Z.mod_small t (2 ^ 64)) by apply Ht.
  apply Z.mod_pow2_bits_high. lia.
Qed.

Lemma land_eq_bits (m t : Z) :
  is_u64 t ->
  Z.land m t = t <->
  forall r : nat, (r < 64)%nat ->
    Z.testbit t (Z.of_nat r) = true -> Z.testbit m (Z.of_nat r) = true.
Proof.
  intros Ht. split.
  - intros Heq r _ Hr. rewrite <- Heq, Z.land_spec in Hr.
    by apply andb_true_iff in Hr as [? _].
  - intros Hbits. apply Z.bits_inj'. intros n Hn.
    rewrite Z.land_spec.
    destruct (Z.testbit t n) eqn:Htn; [|apply andb_false_r].
    rewrite andb_true_r.
    destruct (Z_lt_le_dec n 64) as [Hlt|Hge].
    + specialize (Hbits (Z.to_nat n)). rewrite Z2Nat.id in Hbits by done.
      apply Hbits; [lia|done].
    + by rewrite u64_testbit_high in Htn.
Qed.

Lemma bounded_search (f : nat -> bool) (n : nat) :
  (exists k, (k < n)%nat /\ f k = true) \/ (forall k, (k < n)%nat -> f k = false).
Proof.
  induction n as [|n [(k & Hk & Hf)|Hall]].
  - right. intros k Hk. lia.
  - left. exists k. split; [lia|done].
  - destruct (f n) eqn:Hn.
    + left. exists n. split; [lia|done].
    + right. intros k Hk. destruct (decide (k = n)) as [->|]; [done|].
      apply Hall. lia.
Qed.

Lemma land_nonzero_bits (q t : Z) :
  is_u64 t ->
  Z.land q t <> 0 <->
  exists r : nat, (r < 64)%nat /\
    Z.testbit q (Z.of_nat r) = true /\ Z.testbit t (Z.of_nat r) = true.
Proof.
  intros Ht. split.
  - intros Hne.
    destruct (bounded_search
                (fun r => Z.testbit q (Z.of_nat r) && Z.testbit t (Z.of_nat r)) 64)
      as [(r & Hr & Hb)|Hall].
    + apply andb_true_iff in Hb. by exists r.
    + exfalso. apply Hne. apply Z.bits_inj_0. intros n.
      destruct (Z_lt_le_dec n 0) as [Hneg|Hnn]; [by apply Z.testbit_neg_r|].
      rewrite Z.land_spec.
      destruct (Z_lt_le_dec n 64) as [Hlt|Hge].
      * specialize (Hall (Z.to_nat n)). rewrite Z2Nat.id in Hall by done.
        apply Hall. lia.
      * rewrite (u64_testbit_high t n) by done. apply andb_false_r.
  - intros (r & _ & Hq & Hr) Hz.
    assert (Z.testbit (Z.land q t) (Z.of_nat r) = true) as Hb
      by (by rewrite Z.land_spec, Hq, Hr).
    by rewrite Hz, Z.testbit_0_l in Hb.
Qed.

Lemma vec_get_u64 (v : list Z) (k : nat) :
  Forall is_u64 v -> is_u64 (vec_get v k).
Proof.
  intros Hall. unfold vec_get. destruct (v !! k) as [x|] eqn:Hk; simpl.
  - by eapply (Forall_lookup_1 is_u64).
  - unfold is_u64. lia.
Qed.

(** ** compare_tags and the query match, bit by bit *)

Lemma compare_tags_words (mask taskTags : list Z) :
  length mask = length taskTags ->
  compare_tags mask taskTags = true <->
  forall k, (k < length mask)%nat ->
    Z.land (vec_get mask k) (vec_get taskTags k) = vec_get taskTags k.
Proof.
  revert taskTags. induction mask as [|m mask IH]; intros [|t taskTags] Hlen;
    simpl in Hlen; try discriminate.
  - split; [|done]. intros _ k Hk. simpl in Hk. lia.
  - simpl. destruct (Z.eqb_spec (Z.land m t) t) as [Heq|Hne]; simpl.
    + rewrite IH by lia. split.
      * intros Hall [|k] Hk; [done|]. apply Hall. simpl in Hk. lia.
      * intros Hall k Hk. apply (Hall (S k)). simpl. lia.
    + split; [done|]. intros Hall. exfalso. apply Hne.
      apply (Hall 0%nat). simpl. lia.
Qed.

Lemma compare_tags_bits (mask taskTags : list Z) :
  length mask = length taskTags ->
  Forall is_u64 taskTags ->
  compare_tags mask taskTags = true <->
  forall i, bit_test taskTags i = true -> bit_test mask i = true.
Proof.
  intros Hlen Hu64. rewrite compare_tags_words by done. split.
  - intros Hwords i Hi.
    pose proof (bit_test_lt _ _ Hi) as Hlt. unfold bit_capacity in Hlt.
    apply bit_index_lt in Hlt.
    specialize (Hwords (i / 64)%nat). rewrite Hlen in Hwords.
    specialize (Hwords Hlt).
    pose proof (proj1 (land_eq_bits _ _ (vec_get_u64 _ (i / 64) Hu64)) Hwords) as Hw.
    apply Hw; [by apply Nat.mod_upper_bound|done].
  - intros Hbits k Hk. apply land_eq_bits; [by apply vec_get_u64|].
    intros r Hr Ht.
    destruct (bit_position k r Hr) as [Hd Hm].
    specialize (Hbits (64 * k + r)%nat). unfold bit_test in Hbits.
    rewrite Hd, Hm in Hbits. by apply Hbits.
Qed.

Lemma any_tag_matches_words (query taskTagInts : list Z) :
  length query = length taskTagInts ->
  any_tag_matches query taskTagInts = true <->
  exists k, Z.land (vec_get query k) (vec_get taskTagInts k) <> 0.
Proof.
  revert taskTagInts.
  induction query as [|q query IH]; intros [|t taskTagInts] Hlen;
    simpl in Hlen; try discriminate.
  - split; [done|]. intros [k Hk]. unfold vec_get in Hk.
    by rewrite lookup_nil in Hk.
  - simpl. destruct (Z.eqb_spec (Z.land q t) 0) as [Heq|Hne]; simpl.
    + rewrite IH by lia. split.
      * intros [k Hk]. by exists (S k).
      * intros [[|k] Hk]; [done|]. by exists k.
    + split; [|done]. intros _. by exists 0%nat.
Qed.

Lemma any_tag_matches_bits (query taskTagInts : list Z) :
  length query = length taskTagInts ->
  Forall is_u64 taskTagInts ->
  any_tag_matches query taskTagInts = true <-> tags_intersect query taskTagInts.
Proof.
  intros Hlen Hu64. rewrite any_tag_matches_words by done. split.
  - intros [k Hk].
    destruct (proj1 (land_nonzero_bits _ _ (vec_get_u64 _ k Hu64)) Hk)
      as (r & Hr & Hq & Ht).
    destruct (bit_position k r Hr) as [Hd Hm].
    exists (64 * k + r)%nat. unfold bit_test. by rewrite Hd, Hm.
  - intros (i & Hq & Ht). exists (i / 64)%nat.
    apply land_nonzero_bits; [by apply vec_get_u64|].
    exists (i mod 64)%nat. split; [by apply Nat.mod_upper_bound|done].
Qed.

(** ** Rows of task tags *)

Lemma task_tag_ints_u64 (tags : TaskTags) (task : nat) :
  wf_tags tags -> Forall is_u64 (task_tag_ints tags task).
Proof.
  intros Hwf. unfold task_tag_ints, slice.
  apply Forall_take, Forall_drop, Hwf.
Qed.

Lemma length_task_tag_ints (tags : TaskTags) (task : nat) :
  wf_tags tags -> (task < bit_capacity (m_tasks tags))%nat ->
  length (task_tag_ints tags task) = tag_ints_per_task tags.
Proof.
  intros Hwf Htask. unfold task_tag_ints, slice.
  rewrite length_take, length_drop.
  pose proof (wf_taskTags_size _ Hwf) as Hsize.
  nia.
Qed.

Lemma task_has_tag_lt (tags : TaskTags) (task tag : nat) :
  wf_tags tags -> (task < bit_capacity (m_tasks tags))%nat ->
  task_has_tag tags task tag = true -> (tag < bit_capacity (m_tags tags))%nat.
Proof.
  intros Hwf Htask Hbit. apply bit_test_lt in Hbit.
  unfold bit_capacity in *. by rewrite length_task_tag_ints in Hbit.
Qed.

Lemma task_exists_lt (tags : TaskTags) (task : nat) :
  task_exists tags task -> (task < bit_capacity (m_tasks tags))%nat.
Proof. intros Hex. by apply elem_of_zeros in Hex as [? _]. Qed.

(** ** Counter updates over the tags of a task *)

Lemma length_fold_alter (f : Z -> Z) (l : list nat) (v : list Z) :
  length (foldl (fun counts tag => alter f tag counts) v l) = length v.
Proof.
  revert v. induction l as [|x l IH]; intros v; simpl; [done|].
  by rewrite IH, length_alter.
Qed.

Lemma vec_get_fold_alter (f : Z -> Z) (l : list nat) (v : list Z) (j : nat) :
  NoDup l ->
  vec_get (foldl (fun counts tag => alter f tag counts) v l) j =
    if decide (j ∈ l /\ (j < length v)%nat) then f (vec_get v j) else vec_get v j.
Proof.
  revert v. induction l as [|x l IH]; intros v Hnd; cbn [foldl].
  - rewrite decide_False; [done|]. intros [Hin _]. by apply elem_of_nil in Hin.
  - apply NoDup_cons in Hnd as [Hx Hnd].
    rewrite IH by done. rewrite length_alter, !vec_get_alter.
    destruct (decide (x = j)) as [->|Hne].
    + rewrite (decide_False (P := j ∈ l /\ _)) by tauto.
      destruct (decide (j < length v)%nat).
      * rewrite !decide_True; [done| |done].
        split; [apply elem_of_cons; by left|done].
      * rewrite !decide_False; [done| |]; lia.
    + rewrite (decide_False (P := x = j /\ _)) by tauto.
      destruct (decide (j ∈ l /\ (j < length v)%nat)) as [[Hin Hlt]|Hn].
      * rewrite decide_True; [done|]. split; [|done].
        apply elem_of_cons. by right.
      * rewrite decide_False; [done|]. intros [Hin Hlt]. apply Hn.
        apply elem_of_cons in Hin as [->|Hin]; done.
Qed.

Lemma Forall_u32_fold_alter (f : Z -> Z) (l : list nat) (v : list Z) :
  (forall x, is_u32 (f x)) -> Forall is_u32 v ->
  Forall is_u32 (foldl (fun counts tag => alter f tag counts) v l).
Proof.
  intros Hf. revert v. induction l as [|x l IH]; intros v Hv; simpl; [done|].
  apply IH. apply Forall_alter; [done|]. intros y _ _. apply Hf.
Qed.

Lemma wrap32_u32 (x : Z) : is_u32 (wrap32 x).
Proof. unfold is_u32, wrap32. apply Z.mod_pos_bound. lia. Qed.

Lemma incr32_u32 (x : Z) : is_u32 (incr32 x).
Proof. apply wrap32_u32. Qed.

Lemma decr32_u32 (x : Z) : is_u32 (decr32 x).
Proof. apply wrap32_u32. Qed.

Lemma vec_get_u32 (v : list Z) (k : nat) :
  Forall is_u32 v -> is_u32 (vec_get v k).
Proof.
  intros Hall. unfold vec_get. destruct (v !! k) as [x|] eqn:Hk; simpl.
  - by eapply (Forall_lookup_1 is_u32).
  - unfold is_u32. lia.
Qed.

(** ** The mask of allowed tags *)

Lemma position_None (x : nat) (l : list nat) :
  x ∉ l -> position x l = None.
Proof.
  induction l as [|y l IH]; intros Hx; simpl; [done|].
  apply not_elem_of_cons in Hx as [Hne Hx].
  destruct (Nat.eqb_spec x y) as [|_]; [done|]. by rewrite IH.
Qed.

Lemma position_Some (x : nat) (l : list nat) (k : nat) :
  position x l = Some k -> l !! k = Some x.
Proof.
  revert k. induction l as [|y l IH]; intros k; simpl; [done|].
  destruct (Nat.eqb_spec x y) as [->|_].
  - by intros [= <-].
  - destruct (position x l) as [k'|]; simpl; [|done].
    intros [= <-]. by apply IH.
Qed.

Lemma position_seq (x s n : nat) :
  (s <= x < s + n)%nat -> position x (seq s n) = Some (x - s)%nat.
Proof.
  revert s. induction n as [|n IH]; intros s Hx; simpl; [lia|].
  destruct (Nat.eqb_spec x s) as [->|Hne].
  - by rewrite Nat.sub_diag.
  - rewrite IH by lia. simpl. f_equal. lia.
Qed.

Lemma depends_satisfied_spec (exec : ExecutionContext) (depends : list Z) :
  depends_satisfied exec depends = true <->
  forall d, d ∈ until_null depends ->
    vec_get (m_tagIncompleteCounts exec) (Z.to_nat d) = 0.
Proof.
  induction depends as [|d depends IH]; simpl.
  - split; [|done]. intros _ d Hd. by apply elem_of_nil in Hd.
  - destruct (Z.eqb_spec d id_null) as [_|_].
    + split; [|done]. intros _ d' Hd. by apply elem_of_nil in Hd.
    + destruct (Z.eqb_spec (vec_get (m_tagIncompleteCounts exec) (Z.to_nat d)) 0)
        as [Hz|Hnz]; simpl.
      * rewrite IH. split.
        -- intros Hall d' Hd. apply elem_of_cons in Hd as [->|Hd]; auto.
        -- intros Hall d' Hd. apply Hall, elem_of_cons. by right.
      * split; [done|]. intros Hall. exfalso. apply Hnz, Hall, elem_of_cons.
        by left.
Qed.

Lemma bit_test_reset_same (ws : list Z) (i : nat) :
  bit_test (bit_reset ws i) i = false.
Proof.
  rewrite bit_test_reset. case_decide as Hc; [done|].
  destruct (bit_test ws i) eqn:Hbit; [|done].
  apply bit_test_lt in Hbit. tauto.
Qed.

Lemma bit_test_reset_ne (ws : list Z) (i j : nat) :
  i <> j -> bit_test (bit_reset ws i) j = bit_test ws j.
Proof. intros Hne. rewrite bit_test_reset. rewrite decide_False; tauto. Qed.

Lemma mask_fold (tags : TaskTags) (exec : ExecutionContext)
    (l : list nat) (mask depends : list Z) :
  NoDup l ->
  forall tag,
    bit_test (foldl (mask_step tags exec) (mask, depends) l).1 tag =
      bit_test mask tag && depends_check tags exec l depends tag.
Proof.
  revert mask depends. induction l as [|x l IH]; intros mask depends Hnd tag.
  - simpl. by rewrite andb_true_r.
  - apply NoDup_cons in Hnd as [Hx Hnd]. simpl foldl.
    rewrite IH by done. unfold depends_check. simpl position.
    destruct (Nat.eqb_spec tag x) as [->|Hne].
    + rewrite (position_None x l) by done. rewrite andb_true_r.
      unfold slice. simpl. rewrite Nat.sub_0_r, drop_0.
      destruct (depends_satisfied exec (take (m_tagDependsPerTag tags) depends)).
      * by rewrite andb_true_r.
      * by rewrite bit_test_reset_same, andb_false_r.
    + assert (bit_test
                (if depends_satisfied exec (take (m_tagDependsPerTag tags) depends)
                 then mask else bit_reset mask x) tag = bit_test mask tag) as ->.
      { destruct (depends_satisfied _ _); [done|].
        apply bit_test_reset_ne. congruence. }
      f_equal. destruct (position tag l) as [k|]; simpl; [|done].
      unfold slice. rewrite drop_drop. f_equal. f_equal. lia.
Qed.

Lemma tag_mask_spec (tags : TaskTags) (exec : ExecutionContext) (tag : nat) :
  bit_test (tag_mask tags exec) tag = true <->
  (tag < bit_capacity (m_tags tags))%nat /\ cursor_allowed tags exec tag.
Proof.
  unfold tag_mask. rewrite mask_fold by apply NoDup_zeros.
  rewrite andb_true_iff, bit_test_replicate_ones, bool_decide_eq_true.
  unfold bit_capacity, depends_check, cursor_allowed, cursor_depends.
  destruct (position tag (zeros (m_tags tags))) as [k|].
  - by rewrite depends_satisfied_spec.
  - split; [|tauto]. intros [? _]. split; [done|].
    intros d Hd. by apply elem_of_nil in Hd.
Qed.

Lemma length_tag_mask (tags : TaskTags) (exec : ExecutionContext) :
  length (tag_mask tags exec) = length (m_tags tags).
Proof.
  unfold tag_mask.
  assert (forall l mask depends,
    length (foldl (mask_step tags exec) (mask, depends) l).1 = length mask) as Hlen.
  { induction l as [|x l IH]; intros mask depends; simpl; [done|].
    rewrite IH. destruct (depends_satisfied _ _); [done|apply length_bit_reset]. }
  by rewrite Hlen, length_replicate.
Qed.

(** In a registry without holes the loop reads, for every existing tag,
    the block at the tag's own index. *)
Lemma cursor_depends_dense (tags : TaskTags) (n tag : nat) :
  zeros (m_tags tags) = seq 0 n -> (tag < n)%nat ->
  cursor_depends tags tag =
    until_null (slice (m_tagDepends tags)
                      (tag * m_tagDependsPerTag tags)
                      (tag * m_tagDependsPerTag tags + m_tagDependsPerTag tags)).
Proof.
  intros Hdense Htag. unfold cursor_depends.
  rewrite Hdense, position_seq by lia. by rewrite Nat.sub_0_r.
Qed.

Lemma filter_seq_all (p : nat -> bool) (c : nat) :
  (forall i, (i < c)%nat -> p i = true) -> List.filter p (seq 0 c) = seq 0 c.
Proof.
  induction c as [|c IH]; intros Hall; [done|].
  rewrite seq_S, List.filter_app, IH by (intros i Hi; apply Hall; lia).
  simpl. by rewrite Hall by lia.
Qed.

Lemma filter_seq_closed (p : nat -> bool) (c : nat) :
  (forall i t, (i < c)%nat -> p i = true -> (t < i)%nat -> p t = true) ->
  exists n, List.filter p (seq 0 c) = seq 0 n.
Proof.
  induction c as [|c IH]; intros Hclosed; [by exists 0%nat|].
  rewrite seq_S, List.filter_app. simpl.
  destruct (p c) eqn:Hc.
  - exists (S c). rewrite filter_seq_all, seq_S; [done|].
    intros i Hi. apply (Hclosed c i); [lia|done|done].
  - destruct IH as [n Hn].
    + intros i t Hi. apply Hclosed. lia.
    + exists n. by rewrite Hn, app_nil_r.
Qed.

Lemma zeros_dense (tags : TaskTags) :
  tags_dense tags -> exists n, zeros (m_tags tags) = seq 0 n.
Proof.
  intros Hdense. unfold zeros. apply filter_seq_closed.
  intros i t Hi Hp Ht.
  assert (tag_exists tags i) as Hex.
  { apply elem_of_zeros. split; [done|]. by apply negb_true_iff. }
  apply (Hdense i t Hex) in Ht. apply elem_of_zeros in Ht as [_ Ht].
  by rewrite Ht.
Qed.

Lemma tags_dense_seq (tags : TaskTags) (n : nat) :
  zeros (m_tags tags) = seq 0 n -> tags_dense tags.
Proof.
  intros Hz tag t. unfold tag_exists. rewrite Hz, !list_elem_of_In, !in_seq. lia.
Qed.

(** Without holes the block the loop reads for an existing tag is the
    block of the tag's declared dependencies. *)
Lemma tag_depends_cursor (tags : TaskTags) (tag : nat) :
  tags_dense tags -> tag_exists tags tag ->
  cursor_depends tags tag = tag_depends tags tag.
Proof.
  intros Hdense Hex. destruct (zeros_dense tags Hdense) as [n Hn].
  apply (cursor_depends_dense tags n tag Hn).
  unfold tag_exists in Hex. rewrite Hn, list_elem_of_In, in_seq in Hex. lia.
Qed.

Lemma task_eligible_cursor (tags : TaskTags) (exec : ExecutionContext) (task : nat) :
  tags_dense tags ->
  (forall tag, task_has_tag tags task tag = true -> tag_exists tags tag) ->
  cursor_eligible tags exec task <-> task_eligible tags exec task.
Proof.
  intros Hdense Hcarried. unfold cursor_eligible, task_eligible.
  unfold cursor_allowed, tag_allowed.
  split; intros [Hq Hall]; (split; [done|]); intros tag Htag d Hd;
    apply (Hall tag Htag d).
  - by rewrite tag_depends_cursor by auto.
  - by rewrite <- tag_depends_cursor by auto.
Qed.

(** ** task_list_available *)

Lemma available_fold (tags : TaskTags) (exec : ExecutionContext)
    (mask : list Z) (l : list nat) (tasksOut : list Z) (j : nat) :
  bit_test (foldl (available_step tags exec mask) tasksOut l) j = true <->
  bit_test tasksOut j = true \/
  (j ∈ l /\ (j < bit_capacity tasksOut)%nat /\
   vec_get (m_taskQueuedCounts exec) j <> 0 /\
   compare_tags mask (task_tag_ints tags j) = true).
Proof.
  revert tasksOut. induction l as [|x l IH]; intros tasksOut; cbn [foldl].
  - split; [by left|]. intros [?|(Hin & _)]; [done|].
    by apply elem_of_nil in Hin.
  - rewrite IH. unfold available_step.
    destruct (Z.eqb_spec (vec_get (m_taskQueuedCounts exec) x) 0) as [Hz|Hnz].
    { split; (intros [?|(Hin & Hlt & Hq & Hc)]; [by left|right]).
      - repeat split; try done. apply elem_of_cons. by right.
      - apply elem_of_cons in Hin as [->|Hin]; done. }
    destruct (compare_tags mask (task_tag_ints tags x)) eqn:Hcmp.
    + unfold bit_capacity. rewrite length_bit_set, bit_test_set.
      split.
      * intros [Hbit|(Hin & Hlt & Hq & Hc)].
        -- case_decide as Hd; [|by left]. destruct Hd as [-> Hlt].
           right. repeat split; try done. apply elem_of_cons. by left.
        -- right. repeat split; try done. apply elem_of_cons. by right.
      * intros [Hbit|(Hin & Hlt & Hq & Hc)].
        -- left. by case_decide.
        -- apply elem_of_cons in Hin as [->|Hin].
           ++ left. by rewrite decide_True.
           ++ by right.
    + split; (intros [?|(Hin & Hlt & Hq & Hc)]; [by left|right]).
      * repeat split; try done. apply elem_of_cons. by right.
      * apply elem_of_cons in Hin as [->|Hin]; [congruence|done].
Qed.

Lemma task_list_available_bit (tags : TaskTags) (exec : ExecutionContext)
    (tasksOut : list Z) (task : nat) :
  wf_tags tags -> wf_exec tags exec ->
  bit_test (task_list_available tags exec tasksOut) task = true <->
  bit_test tasksOut task = true \/
  (task_exists tags task /\ (task < bit_capacity tasksOut)%nat /\
   cursor_eligible tags exec task).
Proof.
  intros Hwf Hexec.
  unfold task_list_available. rewrite available_fold.
  pose proof (vec_get_u32 _ task (wf_queued_u32 _ _ Hexec)) as Hq32.
  unfold is_u32 in Hq32. unfold cursor_eligible.
  split; (intros [Hbit|(Hex & Hcap & Hrest)]; [by left|right]);
    pose proof (task_exists_lt _ _ Hex) as Hlt;
    (split; [done|]); (split; [done|]).
  - destruct Hrest as [Hq Hmask]. split; [lia|].
    rewrite compare_tags_bits in Hmask;
      [|by rewrite length_tag_mask, length_task_tag_ints
       |by apply task_tag_ints_u64].
    intros tag Htag. by apply tag_mask_spec, Hmask.
  - destruct Hrest as [Hq Hall]. split; [lia|].
    rewrite compare_tags_bits;
      [|by rewrite length_tag_mask, length_task_tag_ints
       |by apply task_tag_ints_u64].
    intros tag Htag. apply tag_mask_spec. split.
    + by eapply task_has_tag_lt.
    + by apply Hall.
Qed.

(** C1.  For a description whose tag registry has no hole, a task of the
    description that carries only existing tags, and an output bitset of
    the size of the task registry in which the task's bit is clear,
    [task_list_available] sets the bit exactly when the task is queued and
    every tag it carries is allowed, that is, every dependency tag declared
    for that tag, in the tag's own block of [m_tagDepends], has incomplete
    count zero. *)
Theorem task_list_available_eligible (tags : TaskTags) (exec : ExecutionContext)
    (tasksOut : list Z) (task : nat) :
  wf_tags tags -> wf_exec tags exec ->
  tags_dense tags ->
  length tasksOut = length (m_tasks tags) ->
  task_exists tags task ->
  (forall tag, task_has_tag tags task tag = true -> tag_exists tags tag) ->
  bit_test tasksOut task = false ->
  bit_test (task_list_available tags exec tasksOut) task = true <->
  task_eligible tags exec task.
Proof.
  intros Hwf Hexec Hdense Hout Hex Hcarried Hclear.
  rewrite <- task_eligible_cursor by done.
  rewrite task_list_available_bit by done. split.
  - intros [Hbit|(_ & _ & Hel)]; [congruence|done].
  - intros Hel. right. split; [done|]. split; [|done].
    unfold bit_capacity. rewrite Hout. by apply task_exists_lt.
Qed.

Lemma exec_dep_enqueued_eq :
  task_enqueue tags_dep exec_zero [3] = exec_dep_enqueued.
Proof. vm_compute. reflexivity. Qed.

Lemma task_list_available_eligible_witness :
  bit_test (task_list_available tags_dep exec_dep_enqueued [0]) 0 = true <->
  task_eligible tags_dep exec_dep_enqueued 0.
Proof.
  apply task_list_available_eligible.
  - wf_tags_by_evaluation.
  - wf_exec_by_evaluation.
  - apply (tags_dense_seq tags_dep 2). vm_compute. reflexivity.
  - reflexivity.
  - apply elem_of_zeros. split; [vm_compute; lia|reflexivity].
  - intros tag Hbit. apply elem_of_ones in Hbit.
    apply list_elem_of_In in Hbit. vm_compute in Hbit.
    destruct Hbit as [<-|[]].
    apply elem_of_zeros. split; [vm_compute; lia|reflexivity].
  - reflexivity.
Defined.

(** With a hole in the tag registry the claim fails: tag 2 declares tag 0,
    whose incomplete count is 1, so task T1, which carries tag 2, is not
    eligible; the loop checks tag 2 against the block of index 1, which is
    empty, and sets the bit of T1. *)
Lemma task_list_available_hole :
  wf_tags tags_hole /\ wf_exec tags_hole exec_hole_enqueued /\
  task_enqueue tags_hole exec_zero [5] = exec_hole_enqueued /\
  task_exists tags_hole 1 /\
  (forall tag, task_has_tag tags_hole 1 tag = true -> tag_exists tags_hole tag) /\
  bit_test [0] 1 = false /\
  bit_test (task_list_available tags_hole exec_hole_enqueued [0]) 1 = true /\
  ~ task_eligible tags_hole exec_hole_enqueued 1.
Proof.
  split; [wf_tags_by_evaluation|]. split; [wf_exec_by_evaluation|].
  split; [vm_compute; reflexivity|].
  split; [apply elem_of_zeros; split; [vm_compute; lia|reflexivity]|].
  split.
  { intros tag Hbit. apply elem_of_ones in Hbit.
    apply list_elem_of_In in Hbit. vm_compute in Hbit.
    destruct Hbit as [<-|[]].
    apply elem_of_zeros. split; [vm_compute; lia|reflexivity]. }
  split; [reflexivity|]. split; [vm_compute; reflexivity|].
  intros [_ Hall].
  assert (vec_get (m_tagIncompleteCounts exec_hole_enqueued) (Z.to_nat 0) = 0) as Hzero.
  { apply (Hall 2%nat); [reflexivity|].
    apply list_elem_of_In. vm_compute. by left. }
  vm_compute in Hzero. discriminate.
Qed.

(** The tags of the task have to exist: a bit of the mask is cleared only
    for an existing tag, so a task that carries a tag id that does not
    exist is not held back by the block at that index. *)
Lemma task_list_available_stray_tag :
  tags_dense tags_stray /\ ~ tag_exists tags_stray 1 /\
  task_has_tag tags_stray 1 1 = true /\
  bit_test (task_list_available tags_stray
              (task_enqueue tags_stray exec_zero [3]) [0]) 1 = true /\
  ~ task_eligible tags_stray (task_enqueue tags_stray exec_zero [3]) 1.
Proof.
  split; [apply (tags_dense_seq tags_stray 1); vm_compute; reflexivity|].
  split.
  { intros Hex. apply elem_of_zeros in Hex as [_ Hbit].
    vm_compute in Hbit. discriminate. }
  split; [vm_compute; reflexivity|]. split; [vm_compute; reflexivity|].
  intros [_ Hall].
  assert (vec_get (m_tagIncompleteCounts (task_enqueue tags_stray exec_zero [3]))
                  (Z.to_nat 0) = 0) as Hzero.
  { apply (Hall 1%nat); [vm_compute; reflexivity|].
    apply list_elem_of_In. vm_compute. by left. }
  vm_compute in Hzero. discriminate.
Qed.

(** ** task_enqueue *)

Lemma wrap32_small (x : Z) : is_u32 x -> wrap32 x = x.
Proof. intros Hx. by apply Z.mod_small. Qed.

Lemma wrap32_add_l (x y : Z) : wrap32 (wrap32 x + y) = wrap32 (x + y).
Proof. unfold wrap32. by rewrite Zplus_mod_idemp_l. Qed.

Lemma countZ_nonneg (p : nat -> bool) (l : list nat) : 0 <= countZ p l.
Proof. induction l as [|x l IH]; simpl; [done|]. destruct (p x); lia. Qed.

Lemma countZ_le_length (p : nat -> bool) (l : list nat) :
  countZ p l <= Z.of_nat (length l).
Proof. induction l as [|x l IH]; simpl; [done|]. destruct (p x); lia. Qed.

Lemma countZ_ext (p q : nat -> bool) (l : list nat) :
  (forall x, x ∈ l -> p x = q x) -> countZ p l = countZ q l.
Proof.
  induction l as [|x l IH]; intros Hpq; simpl; [done|].
  rewrite (Hpq x) by (apply elem_of_cons; by left).
  rewrite IH; [done|]. intros y Hy. apply Hpq, elem_of_cons. by right.
Qed.

Lemma newly_enqueued_spec (tags : TaskTags) (exec : ExecutionContext)
    (query : list Z) (task : nat) :
  wf_tags tags -> (task < bit_capacity (m_tasks tags))%nat ->
  length query = tag_ints_per_task tags ->
  newly_enqueued tags exec query task = true <->
  vec_get (m_taskQueuedCounts exec) task = 0 /\
  tags_intersect query (task_tag_ints tags task).
Proof.
  intros Hwf Htask Hlen. unfold newly_enqueued.
  rewrite andb_true_iff, Z.eqb_eq, any_tag_matches_bits; [done| |].
  - by rewrite length_task_tag_ints.
  - by apply task_tag_ints_u64.
Qed.

Lemma enqueue_task_spec (tags : TaskTags) (query : list Z)
    (exec : ExecutionContext) (x : nat) :
  wf_tags tags -> wf_exec tags exec -> (x < bit_capacity (m_tasks tags))%nat ->
  wf_exec tags (enqueue_task tags query exec x) /\
  m_tagRunningCounts (enqueue_task tags query exec x) = m_tagRunningCounts exec /\
  (forall t, vec_get (m_taskQueuedCounts (enqueue_task tags query exec x)) t =
     if bool_decide (t = x) && newly_enqueued tags exec query x then 1
     else vec_get (m_taskQueuedCounts exec) t) /\
  (forall tag, vec_get (m_tagIncompleteCounts (enqueue_task tags query exec x)) tag =
     wrap32 (vec_get (m_tagIncompleteCounts exec) tag +
             (if newly_enqueued tags exec query x && task_has_tag tags x tag
              then 1 else 0))).
Proof.
  intros Hwf Hexec Hx.
  assert (forall tag, vec_get (m_tagIncompleteCounts exec) tag =
            wrap32 (vec_get (m_tagIncompleteCounts exec) tag + 0)) as Hsame.
  { intros tag. rewrite Z.add_0_r, wrap32_small; [done|].
    apply vec_get_u32, Hexec. }
  unfold enqueue_task, newly_enqueued.
  destruct (Z.eqb_spec (vec_get (m_taskQueuedCounts exec) x) 0) as [Hz|Hnz];
    cbn [andb].
  2:{ repeat split; try apply Hexec; try done.
      intros t. by rewrite andb_false_r. }
  destruct (any_tag_matches query (task_tag_ints tags x)) eqn:Hmatch.
  2:{ repeat split; try apply Hexec; try done.
      intros t. by rewrite andb_false_r. }
  cbn [m_taskQueuedCounts m_tagIncompleteCounts m_tagRunningCounts].
  split; [|split; [done|split]].
  - destruct Hexec as [H1 H2 H3 H4 H5 H6]. split; cbn; try done.
    + by rewrite length_fold_alter.
    + by rewrite length_insert.
    + apply Forall_u32_fold_alter; [apply incr32_u32|done].
    + apply Forall_insert; [done|]. unfold is_u32. lia.
  - intros t. rewrite vec_get_insert, andb_true_r.
    pose proof (wf_queued_size _ _ Hexec).
    destruct (decide (t = x)) as [->|Hne].
    + rewrite bool_decide_eq_true_2 by done. rewrite decide_True; [done|].
      split; [done|lia].
    + rewrite bool_decide_eq_false_2 by done. rewrite decide_False; [done|].
      intros [-> _]. done.
  - intros tag. rewrite vec_get_fold_alter by apply NoDup_ones.
    destruct (task_has_tag tags x tag) eqn:Htag.
    + rewrite decide_True; [done|]. split; [by apply elem_of_ones|].
      pose proof (task_has_tag_lt _ _ _ Hwf Hx Htag).
      pose proof (wf_incomplete_size _ _ Hexec). lia.
    + rewrite decide_False; [apply Hsame|]. intros [Hin _].
      apply elem_of_ones in Hin. unfold task_has_tag in Htag. congruence.
Qed.

Lemma enqueue_fold (tags : TaskTags) (query : list Z) (l : list nat)
    (exec : ExecutionContext) :
  wf_tags tags -> wf_exec tags exec -> NoDup l ->
  (forall t, t ∈ l -> (t < bit_capacity (m_tasks tags))%nat) ->
  wf_exec tags (foldl (enqueue_task tags query) exec l) /\
  m_tagRunningCounts (foldl (enqueue_task tags query) exec l) =
    m_tagRunningCounts exec /\
  (forall t, vec_get (m_taskQueuedCounts (foldl (enqueue_task tags query) exec l)) t =
     if bool_decide (t ∈ l) && newly_enqueued tags exec query t then 1
     else vec_get (m_taskQueuedCounts exec) t) /\
  (forall tag,
     vec_get (m_tagIncompleteCounts (foldl (enqueue_task tags query) exec l)) tag =
     wrap32 (vec_get (m_tagIncompleteCounts exec) tag +
             countZ (fun t => newly_enqueued tags exec query t
                              && task_has_tag tags t tag) l)).
Proof.
  intros Hwf. revert exec.
  induction l as [|x l IH]; intros exec Hexec Hnd Hl; cbn [foldl].
  - repeat split; try apply Hexec; try done.
    intros tag. simpl. rewrite Z.add_0_r, wrap32_small; [done|].
    apply vec_get_u32, Hexec.
  - apply NoDup_cons in Hnd as [Hx Hnd].
    assert (x < bit_capacity (m_tasks tags))%nat as Hxlt
      by (apply Hl, elem_of_cons; by left).
    destruct (enqueue_task_spec tags query exec x Hwf Hexec Hxlt)
      as (Hexec1 & Hrun1 & Hq1 & Hinc1).
    destruct (IH (enqueue_task tags query exec x) Hexec1 Hnd)
      as (Hexec' & Hrun' & Hq' & Hinc').
    { intros t Ht. apply Hl, elem_of_cons. by right. }
    assert (forall t, t ∈ l ->
              newly_enqueued tags (enqueue_task tags query exec x) query t =
              newly_enqueued tags exec query t) as Hnewly.
    { intros t Ht. unfold newly_enqueued. rewrite Hq1.
      rewrite bool_decide_eq_false_2; [done|]. intros ->. done. }
    split; [done|]. split; [congruence|]. split.
    + intros t. rewrite Hq', Hq1.
      destruct (decide (t = x)) as [->|Hne].
      * rewrite (bool_decide_eq_false_2 (x ∈ l)) by done.
        rewrite (bool_decide_eq_true_2 (x ∈ x :: l))
          by (apply elem_of_cons; by left).
        by rewrite bool_decide_eq_true_2.
      * rewrite (bool_decide_eq_false_2 (t = x)) by done. cbn [andb].
        destruct (decide (t ∈ l)) as [Hin|Hnin].
        -- rewrite !bool_decide_eq_true_2;
             [by rewrite Hnewly| apply elem_of_cons; by right | done].
        -- rewrite !bool_decide_eq_false_2; [done| |done].
           intros [?|?]%elem_of_cons; done.
    + intros tag. rewrite Hinc', Hinc1, wrap32_add_l. cbn [countZ].
      f_equal. rewrite <- Z.add_assoc. f_equal. f_equal.
      apply countZ_ext. intros t Ht. by rewrite Hnewly.
Qed.

(** C3.  [task_enqueue] changes the queued count of exactly the existing
    tasks that are not queued and whose tags intersect the query: their
    count becomes 1, every other count is unchanged.  The incomplete count
    of a tag grows (as an [unsigned int]) by the number of those tasks that
    carry the tag, so by one per newly queued carrier and by nothing for
    tasks that were already queued; running counts are untouched.  In the
    one-tag one-task scenario, enqueueing twice leaves [incomplete[A] = 1]
    and [queued[T0] = 1]. *)
Theorem task_enqueue_effect (tags : TaskTags) (exec : ExecutionContext)
    (query : list Z) :
  wf_tags tags -> wf_exec tags exec ->
  length query = tag_ints_per_task tags ->
  (forall task, task_exists tags task ->
     (newly_enqueued tags exec query task = true <->
      vec_get (m_taskQueuedCounts exec) task = 0 /\
      tags_intersect query (task_tag_ints tags task))) /\
  (forall task, task_exists tags task ->
     vec_get (m_taskQueuedCounts exec) task = 0 ->
     tags_intersect query (task_tag_ints tags task) ->
     vec_get (m_taskQueuedCounts (task_enqueue tags exec query)) task = 1) /\
  (forall task,
     ~ (task_exists tags task /\
        vec_get (m_taskQueuedCounts exec) task = 0 /\
        tags_intersect query (task_tag_ints tags task)) ->
     vec_get (m_taskQueuedCounts (task_enqueue tags exec query)) task =
     vec_get (m_taskQueuedCounts exec) task) /\
  (forall tag,
     vec_get (m_tagIncompleteCounts (task_enqueue tags exec query)) tag =
     wrap32 (vec_get (m_tagIncompleteCounts exec) tag +
             countZ (fun task => newly_enqueued tags exec query task
                                 && task_has_tag tags task tag)
                    (zeros (m_tasks tags)))) /\
  m_tagRunningCounts (task_enqueue tags exec query) = m_tagRunningCounts exec /\
  (let twice := task_enqueue tags_single
                  (task_enqueue tags_single exec_zero [1]) [1] in
   vec_get (m_tagIncompleteCounts twice) 0 = 1 /\
   vec_get (m_taskQueuedCounts twice) 0 = 1).
Proof.
  intros Hwf Hexec Hlen.
  destruct (enqueue_fold tags query (zeros (m_tasks tags)) exec Hwf Hexec
              (NoDup_zeros _)) as (_ & Hrun & Hq & Hinc).
  { intros t Ht. by apply task_exists_lt. }
  fold (task_enqueue tags exec query) in Hrun, Hq, Hinc.
  split; [|split; [|split; [|split; [|split]]]]; try done.
  - intros task Hex. apply newly_enqueued_spec; try done.
    by apply task_exists_lt.
  - intros task Hex Hz Hint. rewrite Hq.
    rewrite bool_decide_eq_true_2 by done.
    rewrite (proj2 (newly_enqueued_spec tags exec query task Hwf
                      (task_exists_lt _ _ Hex) Hlen)); done.
  - intros task Hnot. rewrite Hq.
    destruct (decide (task ∈ zeros (m_tasks tags))) as [Hex|Hnex].
    + rewrite bool_decide_eq_true_2 by done. cbn [andb].
      destruct (newly_enqueued tags exec query task) eqn:Hnew; [|done].
      exfalso. apply Hnot. split; [done|].
      apply (newly_enqueued_spec tags exec query task Hwf
               (task_exists_lt _ _ Hex) Hlen), Hnew.
    + by rewrite bool_decide_eq_false_2.
Qed.

Lemma task_enqueue_effect_witness :
  wf_tags tags_single /\ wf_exec tags_single exec_zero /\
  vec_get (m_taskQueuedCounts (task_enqueue tags_single exec_zero [1])) 0 = 1.
Proof.
  assert (wf_tags tags_single) as Hwf by wf_tags_by_evaluation.
  assert (wf_exec tags_single exec_zero) as Hexec by wf_exec_by_evaluation.
  split; [done|]. split; [done|].
  destruct (task_enqueue_effect tags_single exec_zero [1] Hwf Hexec eq_refl)
    as (_ & Hqueued & _).
  apply Hqueued.
  - apply elem_of_zeros. split; [vm_compute; lia|reflexivity].
  - reflexivity.
  - exists 0%nat. split; reflexivity.
Defined.

(** ** task_start and task_finish *)

Lemma task_start_spec (tags : TaskTags) (exec : ExecutionContext) (task : nat) :
  wf_tags tags -> wf_exec tags exec -> (task < bit_capacity (m_tasks tags))%nat ->
  wf_exec tags (task_start tags exec task) /\
  m_taskQueuedCounts (task_start tags exec task) = m_taskQueuedCounts exec /\
  m_tagIncompleteCounts (task_start tags exec task) = m_tagIncompleteCounts exec /\
  (forall tag, vec_get (m_tagRunningCounts (task_start tags exec task)) tag =
     if task_has_tag tags task tag
     then incr32 (vec_get (m_tagRunningCounts exec) tag)
     else vec_get (m_tagRunningCounts exec) tag).
Proof.
  intros Hwf Hexec Htask. unfold task_start.
  cbn [m_taskQueuedCounts m_tagIncompleteCounts m_tagRunningCounts].
  split; [|split; [done|split; [done|]]].
  - destruct Hexec as [H1 H2 H3 H4 H5 H6]. split; cbn; try done.
    + by rewrite length_fold_alter.
    + apply Forall_u32_fold_alter; [apply incr32_u32|done].
  - intros tag. rewrite vec_get_fold_alter by apply NoDup_ones.
    destruct (task_has_tag tags task tag) eqn:Htag.
    + rewrite decide_True; [done|]. split; [by apply elem_of_ones|].
      pose proof (task_has_tag_lt _ _ _ Hwf Htask Htag).
      pose proof (wf_running_size _ _ Hexec). lia.
    + rewrite decide_False; [done|]. intros [Hin _].
      apply elem_of_ones in Hin. unfold task_has_tag in Htag. congruence.
Qed.

Lemma fold_finish_tag (l : list nat) (exec : ExecutionContext) :
  foldl finish_tag exec l =
  {| m_tagRunningCounts :=
       foldl (fun counts tag => alter decr32 tag counts) (m_tagRunningCounts exec) l;
     m_tagIncompleteCounts :=
       foldl (fun counts tag => alter decr32 tag counts) (m_tagIncompleteCounts exec) l;
     m_taskQueuedCounts := m_taskQueuedCounts exec |}.
Proof.
  revert exec. induction l as [|x l IH]; intros exec; cbn [foldl].
  - by destruct exec.
  - by rewrite IH.
Qed.

Lemma task_finish_spec (tags : TaskTags) (exec : ExecutionContext) (task : nat) :
  wf_tags tags -> wf_exec tags exec -> (task < bit_capacity (m_tasks tags))%nat ->
  wf_exec tags (task_finish tags exec task) /\
  (forall t, vec_get (m_taskQueuedCounts (task_finish tags exec task)) t =
     if bool_decide (t = task)
     then decr32 (vec_get (m_taskQueuedCounts exec) t)
     else vec_get (m_taskQueuedCounts exec) t) /\
  (forall tag, vec_get (m_tagIncompleteCounts (task_finish tags exec task)) tag =
     if task_has_tag tags task tag
     then decr32 (vec_get (m_tagIncompleteCounts exec) tag)
     else vec_get (m_tagIncompleteCounts exec) tag) /\
  (forall tag, vec_get (m_tagRunningCounts (task_finish tags exec task)) tag =
     if task_has_tag tags task tag
     then decr32 (vec_get (m_tagRunningCounts exec) tag)
     else vec_get (m_tagRunningCounts exec) tag).
Proof.
  intros Hwf Hexec Htask. unfold task_finish. rewrite fold_finish_tag.
  cbn [m_taskQueuedCounts m_tagIncompleteCounts m_tagRunningCounts].
  assert (forall (v : list Z) tag,
            (bit_capacity (m_tags tags) <= length v)%nat ->
            vec_get (foldl (fun counts tag => alter decr32 tag counts) v
                           (ones (task_tag_ints tags task))) tag =
            if task_has_tag tags task tag then decr32 (vec_get v tag)
            else vec_get v tag) as Hfold.
  { intros v tag Hv. rewrite vec_get_fold_alter by apply NoDup_ones.
    destruct (task_has_tag tags task tag) eqn:Htag.
    - rewrite decide_True; [done|]. split; [by apply elem_of_ones|].
      pose proof (task_has_tag_lt _ _ _ Hwf Htask Htag). lia.
    - rewrite decide_False; [done|]. intros [Hin _].
      apply elem_of_ones in Hin. unfold task_has_tag in Htag. congruence. }
  destruct Hexec as [H1 H2 H3 H4 H5 H6].
  split; [|split; [|split]].
  - split; cbn.
    + by rewrite length_fold_alter.
    + by rewrite length_fold_alter.
    + by rewrite length_alter.
    + apply Forall_u32_fold_alter; [apply decr32_u32|done].
    + apply Forall_u32_fold_alter; [apply decr32_u32|done].
    + apply Forall_alter; [done|]. intros y _ _. apply decr32_u32.
  - intros t. rewrite vec_get_alter.
    destruct (decide (t = task)) as [->|Hne].
    + rewrite bool_decide_eq_true_2 by done. rewrite decide_True; [done|].
      split; [done|lia].
    + rewrite bool_decide_eq_false_2 by done. rewrite decide_False; [done|].
      intros [-> _]. done.
  - intros tag. by apply Hfold.
  - intros tag. by apply Hfold.
Qed.

(** ** Counting *)

Lemma countZ_false (p : nat -> bool) (l : list nat) :
  (forall x, x ∈ l -> p x = false) -> countZ p l = 0.
Proof.
  induction l as [|x l IH]; intros Hp; simpl; [done|].
  rewrite (Hp x) by (apply elem_of_cons; by left).
  rewrite IH; [done|]. intros y Hy. apply Hp, elem_of_cons. by right.
Qed.

Lemma countZ_or (p q : nat -> bool) (l : list nat) :
  (forall x, x ∈ l -> p x && q x = false) ->
  countZ (fun x => p x || q x) l = countZ p l + countZ q l.
Proof.
  induction l as [|x l IH]; intros Hpq; simpl; [done|].
  rewrite IH by (intros y Hy; apply Hpq, elem_of_cons; by right).
  specialize (Hpq x). destruct (p x), (q x); simpl in *; try lia.
  discriminate Hpq. apply elem_of_cons. by left.
Qed.

(** Clearing the predicate at one element of a duplicate-free list. *)
Lemma countZ_clear (p q : nat -> bool) (l : list nat) (t : nat) :
  NoDup l -> t ∈ l -> q t = false ->
  (forall x, x ∈ l -> x <> t -> q x = p x) ->
  countZ q l = countZ p l - (if p t then 1 else 0).
Proof.
  induction l as [|x l IH]; intros Hnd Hin Hqt Hpq.
  - by apply elem_of_nil in Hin.
  - apply NoDup_cons in Hnd as [Hx Hnd]. simpl.
    destruct (decide (x = t)) as [->|Hne].
    + rewrite Hqt. rewrite (countZ_ext q p l); [lia|].
      intros y Hy. apply Hpq; [apply elem_of_cons; by right|].
      intros ->. done.
    + rewrite (Hpq x) by (done || apply elem_of_cons; by left).
      rewrite IH; [lia|done| |done|].
      * apply elem_of_cons in Hin as [->|Hin]; done.
      * intros y Hy ?. apply Hpq; [|done]. apply elem_of_cons. by right.
Qed.

Lemma countZ_filter_ne (p : nat -> bool) (l : list nat) (t : nat) :
  NoDup l -> t ∈ l ->
  countZ p (List.filter (fun x => negb (x =? t)%nat) l) =
  countZ p l - (if p t then 1 else 0).
Proof.
  induction l as [|x l IH]; intros Hnd Hin.
  - by apply elem_of_nil in Hin.
  - apply NoDup_cons in Hnd as [Hx Hnd]. simpl.
    destruct (Nat.eqb_spec x t) as [->|Hne]; simpl.
    + assert (List.filter (fun x => negb (x =? t)%nat) l = l) as ->; [|lia].
      clear IH Hnd Hin. induction l as [|y l IH]; simpl; [done|].
      apply not_elem_of_cons in Hx as [Hne Hx].
      destruct (Nat.eqb_spec y t) as [->|_]; [done|]. simpl. by rewrite IH.
    + rewrite IH; [lia|done|].
      apply elem_of_cons in Hin as [->|Hin]; done.
Qed.

Lemma countZ_submseteq (p : nat -> bool) (l1 l2 : list nat) :
  l1 ⊆+ l2 -> countZ p l1 <= countZ p l2.
Proof.
  induction 1 as [|x l1 l2 _ IH|x y l|x l1 l2 _ IH|l1 l2 l3 _ IH1 _ IH2]; simpl.
  - done.
  - destruct (p x); lia.
  - destruct (p x), (p y); lia.
  - destruct (p x); lia.
  - lia.
Qed.

Lemma elem_of_filter_ne (l : list nat) (t x : nat) :
  x ∈ List.filter (fun y => negb (y =? t)%nat) l <-> x ∈ l /\ x <> t.
Proof.
  rewrite !list_elem_of_In, filter_In, negb_true_iff, Nat.eqb_neq. done.
Qed.

Lemma NoDup_filter_ne (l : list nat) (t : nat) :
  NoDup l -> NoDup (List.filter (fun y => negb (y =? t)%nat) l).
Proof. intros Hnd. by apply NoDup_ListNoDup, List.NoDup_filter, NoDup_ListNoDup. Qed.

(** ** Invariants of the runs *)

Lemma length_zeros_u32 (tags : TaskTags) :
  wf_tags tags -> Z.of_nat (length (zeros (m_tasks tags))) < 2 ^ 32.
Proof.
  intros Hwf. pose proof (wf_tasks_u32 _ Hwf) as Hcap.
  pose proof (List.filter_length_le (fun i => negb (bit_test (m_tasks tags) i))
                (seq 0 (bit_capacity (m_tasks tags)))) as Hle.
  rewrite length_seq in Hle. unfold zeros. lia.
Qed.

Lemma is_available_spec (tags : TaskTags) (exec : ExecutionContext) (task : nat) :
  wf_tags tags -> wf_exec tags exec ->
  is_available tags exec task = true <->
  task_exists tags task /\ cursor_eligible tags exec task.
Proof.
  intros Hwf Hexec. unfold is_available.
  rewrite task_list_available_bit by done.
  rewrite bit_test_replicate_0. split.
  - intros [?|(? & _ & ?)]; done.
  - intros [Hex Hel]. right. split; [done|]. split; [|done].
    unfold bit_capacity. rewrite length_replicate. by apply task_exists_lt.
Qed.

Lemma started_submseteq (tags : TaskTags) (exec : ExecutionContext)
    (started : list nat) :
  queue_inv tags exec started -> NoDup started ->
  started ⊆+ zeros (m_tasks tags).
Proof.
  intros Hinv Hnd. apply NoDup_submseteq; [done|].
  intros t Ht. apply (qi_started _ _ _ Hinv) in Ht.
  destruct (qi_queued _ _ _ Hinv t) as [Hz|[_ Hex]]; [lia|done].
Qed.

Lemma queue_inv_init (tags : TaskTags) (exec : ExecutionContext) :
  wf_exec tags exec -> all_zero exec -> queue_inv tags exec [].
Proof.
  intros Hexec (Hinc & Hrun & Hq). split; [done| | |].
  - intros t. left. by apply vec_get_all_zero.
  - intros t Ht. by apply elem_of_nil in Ht.
  - intros tag. rewrite vec_get_all_zero by done.
    unfold queued_with_tag. rewrite countZ_false; [done|].
    intros t _. unfold task_queued. by rewrite vec_get_all_zero.
Qed.

Lemma queue_inv_enqueue (tags : TaskTags) (exec : ExecutionContext)
    (started : list nat) (query : list Z) :
  wf_tags tags -> queue_inv tags exec started ->
  queue_inv tags (task_enqueue tags exec query) started.
Proof.
  intros Hwf [Hexec Hq01 Hst Hinc].
  destruct (enqueue_fold tags query (zeros (m_tasks tags)) exec Hwf Hexec
              (NoDup_zeros _)) as (Hexec' & _ & Hq' & Hinc').
  { intros t Ht. by apply task_exists_lt. }
  fold (task_enqueue tags exec query) in Hexec', Hq', Hinc'.
  assert (forall t, newly_enqueued tags exec query t = true ->
            vec_get (m_taskQueuedCounts exec) t = 0) as Hnew0.
  { intros t Hn. unfold newly_enqueued in Hn.
    apply andb_true_iff in Hn as [Hn _]. by apply Z.eqb_eq. }
  split; [done| | |].
  - intros t. rewrite Hq'.
    destruct (bool_decide (t ∈ zeros (m_tasks tags))) eqn:Hin; [|apply Hq01].
    destruct (newly_enqueued tags exec query t); [|apply Hq01].
    right. split; [done|]. by apply bool_decide_eq_true in Hin.
  - intros t Ht. rewrite Hq'. specialize (Hst t Ht).
    destruct (newly_enqueued tags exec query t) eqn:Hn.
    + apply Hnew0 in Hn. lia.
    + by rewrite andb_false_r.
  - intros tag. rewrite Hinc', Hinc. unfold queued_with_tag.
    rewrite <- countZ_or.
    + rewrite wrap32_small.
      * apply countZ_ext. intros t Ht. unfold task_queued. rewrite Hq'.
        rewrite bool_decide_eq_true_2 by done. cbn [andb].
        destruct (newly_enqueued tags exec query t) eqn:Hn.
        -- rewrite (Hnew0 t Hn). simpl. by destruct (task_has_tag tags t tag).
        -- by rewrite orb_false_r.
      * pose proof (countZ_nonneg
          (fun x => task_queued exec x && task_has_tag tags x tag
                    || newly_enqueued tags exec query x && task_has_tag tags x tag)
          (zeros (m_tasks tags))).
        pose proof (countZ_le_length
          (fun x => task_queued exec x && task_has_tag tags x tag
                    || newly_enqueued tags exec query x && task_has_tag tags x tag)
          (zeros (m_tasks tags))).
        pose proof (length_zeros_u32 tags Hwf). unfold is_u32. lia.
    + intros t _. destruct (newly_enqueued tags exec query t) eqn:Hn.
      * unfold task_queued. by rewrite (Hnew0 t Hn).
      * by rewrite andb_false_r.
Qed.

Lemma queue_inv_start (tags : TaskTags) (exec : ExecutionContext)
    (started : list nat) (task : nat) :
  wf_tags tags -> queue_inv tags exec started ->
  is_available tags exec task = true ->
  queue_inv tags (task_start tags exec task) (task :: started).
Proof.
  intros Hwf [Hexec Hq01 Hst Hinc] Hav.
  apply is_available_spec in Hav as [Hex [Hpos _]]; [|done..].
  destruct (task_start_spec tags exec task Hwf Hexec (task_exists_lt _ _ Hex))
    as (Hexec' & Hq' & Hinc' & _).
  split; [done| | |].
  - intros t. rewrite Hq'. apply Hq01.
  - intros t Ht. rewrite Hq'. apply elem_of_cons in Ht as [->|Ht]; [|by apply Hst].
    destruct (Hq01 task) as [Hz|[H1 _]]; [lia|done].
  - intros tag. rewrite Hinc', Hinc. unfold queued_with_tag, task_queued.
    by rewrite Hq'.
Qed.

Lemma queue_inv_finish (tags : TaskTags) (exec : ExecutionContext)
    (started : list nat) (task : nat) :
  wf_tags tags -> queue_inv tags exec started -> task ∈ started ->
  queue_inv tags (task_finish tags exec task)
            (List.filter (fun t => negb (t =? task)%nat) started).
Proof.
  intros Hwf [Hexec Hq01 Hst Hinc] Hin.
  pose proof (Hst task Hin) as Hq1.
  assert (task_exists tags task) as Hex.
  { destruct (Hq01 task) as [Hz|[_ Hex]]; [lia|done]. }
  destruct (task_finish_spec tags exec task Hwf Hexec (task_exists_lt _ _ Hex))
    as (Hexec' & Hq' & Hinc' & _).
  split; [done| | |].
  - intros t. rewrite Hq'. destruct (bool_decide (t = task)) eqn:Ht; [|apply Hq01].
    apply bool_decide_eq_true in Ht as ->. left. by rewrite Hq1.
  - intros t Ht. apply elem_of_filter_ne in Ht as [Ht Hne].
    rewrite Hq', bool_decide_eq_false_2 by done. by apply Hst.
  - intros tag. rewrite Hinc', Hinc. unfold queued_with_tag.
    rewrite (countZ_clear
               (fun t => task_queued exec t && task_has_tag tags t tag)
               (fun t => task_queued (task_finish tags exec task) t
                         && task_has_tag tags t tag)
               (zeros (m_tasks tags)) task (NoDup_zeros _) Hex).
    + assert (task_queued exec task = true) as Htq
        by (unfold task_queued; by rewrite Hq1).
      cbv beta. rewrite Htq. cbn [andb].
      destruct (task_has_tag tags task tag) eqn:Htag; [|lia].
      pose proof (countZ_nonneg
        (fun t => task_queued (task_finish tags exec task) t
                  && task_has_tag tags t tag) (zeros (m_tasks tags))) as Hnn.
      rewrite (countZ_clear
                 (fun t => task_queued exec t && task_has_tag tags t tag)
                 (fun t => task_queued (task_finish tags exec task) t
                           && task_has_tag tags t tag)
                 (zeros (m_tasks tags)) task (NoDup_zeros _) Hex) in Hnn.
      * pose proof (countZ_le_length
          (fun t => task_queued exec t && task_has_tag tags t tag)
          (zeros (m_tasks tags))).
        pose proof (length_zeros_u32 tags Hwf).
        cbv beta in Hnn. rewrite Htq, Htag in Hnn. cbn [andb] in Hnn.
        unfold decr32. rewrite wrap32_small; unfold is_u32; lia.
      * unfold task_queued. rewrite Hq', bool_decide_eq_true_2 by done.
        by rewrite Hq1.
      * intros t _ Hne. unfold task_queued.
        by rewrite Hq', bool_decide_eq_false_2.
    + unfold task_queued. rewrite Hq', bool_decide_eq_true_2 by done.
      by rewrite Hq1.
    + intros t _ Hne. unfold task_queued.
      by rewrite Hq', bool_decide_eq_false_2.
Qed.

Lemma queue_inv_reachable (once : bool) (tags : TaskTags)
    (exec : ExecutionContext) (started : list nat) :
  wf_tags tags -> reachable_gen once tags exec started ->
  queue_inv tags exec started.
Proof.
  intros Hwf. induction 1 as [exec Hexec Hzero
                             |exec started query _ IH _
                             |exec started task _ IH Hav _
                             |exec started task _ IH Hin].
  - by apply queue_inv_init.
  - by apply queue_inv_enqueue.
  - by apply queue_inv_start.
  - by apply queue_inv_finish.
Qed.

Lemma started_count_u32 (tags : TaskTags) (exec : ExecutionContext)
    (started : list nat) (p : nat -> bool) :
  wf_tags tags -> queue_inv tags exec started -> NoDup started ->
  0 <= countZ p started < 2 ^ 32.
Proof.
  intros Hwf Hinv Hnd.
  pose proof (countZ_nonneg p started).
  pose proof (countZ_le_length p started).
  pose proof (submseteq_length _ _ (started_submseteq _ _ _ Hinv Hnd)).
  pose proof (length_zeros_u32 tags Hwf). lia.
Qed.

Lemma running_inv_reachable (tags : TaskTags) (exec : ExecutionContext)
    (started : list nat) :
  wf_tags tags -> reachable tags exec started ->
  running_inv tags exec started.
Proof.
  intros Hwf. unfold reachable.
  induction 1 as [exec Hexec (_ & Hzero & _)
                 |exec started query Hreach IH _
                 |exec started task Hreach IH Hav Hnot
                 |exec started task Hreach IH Hin].
  - split; [apply NoDup_nil_2|]. intros tag. by rewrite vec_get_all_zero.
  - destruct IH as [Hnd Hrun]. split; [done|]. intros tag. rewrite <- Hrun.
    pose proof (queue_inv_reachable _ _ _ _ Hwf Hreach) as [Hexec _ _ _].
    destruct (enqueue_fold tags query (zeros (m_tasks tags)) exec Hwf Hexec
                (NoDup_zeros _)) as (_ & Heq & _).
    { intros t Ht. by apply task_exists_lt. }
    unfold task_enqueue. by rewrite Heq.
  - destruct IH as [Hnd Hrun].
    pose proof (queue_inv_reachable _ _ _ _ Hwf Hreach) as Hinv.
    pose proof (queue_inv_start _ _ _ _ Hwf Hinv Hav) as Hinv'.
    assert (NoDup (task :: started)) as Hnd'
      by (apply NoDup_cons; split; [by apply Hnot|done]).
    split; [done|]. intros tag.
    apply is_available_spec in Hav as [Hex _]; [|done|apply Hinv].
    destruct (task_start_spec tags exec task Hwf (qi_wf _ _ _ Hinv)
                (task_exists_lt _ _ Hex)) as (_ & _ & _ & Hrun').
    rewrite Hrun', Hrun. cbn [countZ].
    pose proof (started_count_u32 tags _ _
                  (fun t => task_has_tag tags t tag) Hwf Hinv' Hnd') as Hb.
    cbn [countZ] in Hb.
    destruct (task_has_tag tags task tag); [|lia].
    unfold incr32. rewrite wrap32_small; unfold is_u32; lia.
  - destruct IH as [Hnd Hrun].
    pose proof (queue_inv_reachable _ _ _ _ Hwf Hreach) as Hinv.
    assert (task_exists tags task) as Hex.
    { pose proof (qi_started _ _ _ Hinv task Hin) as Hq1.
      destruct (qi_queued _ _ _ Hinv task) as [Hz|[_ Hex]]; [lia|done]. }
    split; [by apply NoDup_filter_ne|]. intros tag.
    destruct (task_finish_spec tags exec task Hwf (qi_wf _ _ _ Hinv)
                (task_exists_lt _ _ Hex)) as (_ & _ & _ & Hrun').
    rewrite Hrun', Hrun, countZ_filter_ne by done.
    pose proof (started_count_u32 tags _ _
                  (fun t => task_has_tag tags t tag) Hwf Hinv Hnd) as Hb.
    pose proof (countZ_nonneg (fun t => task_has_tag tags t tag)
                  (List.filter (fun t => negb (t =? task)%nat) started)) as Hnn.
    rewrite countZ_filter_ne in Hnn by done.
    destruct (task_has_tag tags task tag); [|lia].
    unfold decr32. rewrite wrap32_small; unfold is_u32; lia.
Qed.

(** C2, as amended.  In every state reached from an all-zero state by
    enqueue, start of an available task that is not already started, and
    finish of a started task: for every tag the running count is at most
    the incomplete count, and the incomplete count is the number of queued
    tasks that carry the tag. *)
Theorem reachable_counts (tags : TaskTags) (exec : ExecutionContext)
    (started : list nat) :
  wf_tags tags -> reachable tags exec started ->
  forall tag,
    vec_get (m_tagRunningCounts exec) tag <= vec_get (m_tagIncompleteCounts exec) tag /\
    vec_get (m_tagIncompleteCounts exec) tag = queued_with_tag tags exec tag.
Proof.
  intros Hwf Hreach tag.
  pose proof (queue_inv_reachable _ _ _ _ Hwf Hreach) as Hinv.
  pose proof (running_inv_reachable _ _ _ Hwf Hreach) as [Hnd Hrun].
  split; [|apply Hinv].
  rewrite Hrun, (qi_incomplete _ _ _ Hinv). unfold queued_with_tag.
  rewrite (countZ_ext _ (fun t => task_queued exec t && task_has_tag tags t tag)).
  - apply countZ_submseteq. by eapply started_submseteq.
  - intros t Ht. unfold task_queued.
    by rewrite (qi_started _ _ _ Hinv t Ht).
Qed.

Lemma wf_tags_single : wf_tags tags_single.
Proof. wf_tags_by_evaluation. Qed.

Lemma wf_tags_dep : wf_tags tags_dep.
Proof. wf_tags_by_evaluation. Qed.

Lemma wf_exec_zero_single : wf_exec tags_single exec_zero.
Proof. wf_exec_by_evaluation. Qed.

Lemma wf_exec_zero_dep : wf_exec tags_dep exec_zero.
Proof. wf_exec_by_evaluation. Qed.

Lemma all_zero_exec_zero : all_zero exec_zero.
Proof. repeat split; by apply Forall_replicate. Qed.

Lemma reachable_counts_witness :
  wf_tags tags_single /\
  reachable tags_single
    (task_start tags_single (task_enqueue tags_single exec_zero [1]) 0) [0%nat] /\
  forall tag,
    vec_get (m_tagRunningCounts
               (task_start tags_single (task_enqueue tags_single exec_zero [1]) 0)) tag
    <= vec_get (m_tagIncompleteCounts
               (task_start tags_single (task_enqueue tags_single exec_zero [1]) 0)) tag /\
    vec_get (m_tagIncompleteCounts
               (task_start tags_single (task_enqueue tags_single exec_zero [1]) 0)) tag
    = queued_with_tag tags_single
        (task_start tags_single (task_enqueue tags_single exec_zero [1]) 0) tag.
Proof.
  assert (reachable tags_single
            (task_start tags_single (task_enqueue tags_single exec_zero [1]) 0)
            [0%nat]) as Hreach.
  { apply reach_start.
    - apply reach_enqueue; [|reflexivity].
      apply reach_init; [apply wf_exec_zero_single|apply all_zero_exec_zero].
    - vm_compute. reflexivity.
    - intros _ Hin. by apply elem_of_nil in Hin. }
  split; [apply wf_tags_single|]. split; [exact Hreach|].
  exact (reachable_counts tags_single _ _ wf_tags_single Hreach).
Defined.

(** C2, as stated, fails: a queued task stays available after
    [task_start], so it can be started a second time, and then
    [running[A] = 2] while [incomplete[A] = 1]. *)
Lemma reachable_any_running_exceeds :
  ~ (forall tags exec started,
       wf_tags tags -> reachable_any tags exec started ->
       forall tag,
         vec_get (m_tagRunningCounts exec) tag
         <= vec_get (m_tagIncompleteCounts exec) tag /\
         vec_get (m_tagIncompleteCounts exec) tag = queued_with_tag tags exec tag).
Proof.
  intros Hclaim.
  assert (reachable_any tags_single
            (task_start tags_single
               (task_start tags_single
                  (task_enqueue tags_single exec_zero [1]) 0) 0)
            [0%nat; 0%nat]) as Hreach.
  { apply reach_start; [apply reach_start|..].
    - apply reach_enqueue; [|reflexivity].
      apply reach_init; [apply wf_exec_zero_single|apply all_zero_exec_zero].
    - vm_compute. reflexivity.
    - discriminate.
    - vm_compute. reflexivity.
    - discriminate. }
  destruct (Hclaim _ _ _ wf_tags_single Hreach 0%nat) as [Hle _].
  vm_compute in Hle. by apply Hle.
Qed.

(** ** Dependencies order the tasks *)

Lemma countZ_pos (p : nat -> bool) (l : list nat) (x : nat) :
  x ∈ l -> p x = true -> 1 <= countZ p l.
Proof.
  induction l as [|y l IH]; intros Hin Hp.
  - by apply elem_of_nil in Hin.
  - simpl. pose proof (countZ_nonneg p l).
    apply elem_of_cons in Hin as [->|Hin].
    + rewrite Hp. lia.
    + specialize (IH Hin Hp). destruct (p y); lia.
Qed.

(** C4.  In every run on a description whose tag registry has no hole, in
    which a task is started only when it is returned available and not
    already started, and finished only when it is started: when tag [T1]
    directly depends on tag [T2] and some task carrying [T2] is queued (it
    was enqueued and has not passed [task_finish]), no task carrying [T1]
    is returned by [task_list_available].  In the two-tag scenario the
    first call returns only T0, also while T0 is started, and T1 is
    returned once T0 has finished. *)
Theorem dependency_blocks_tasks :
  (forall tags exec started T1 T2 t u,
     wf_tags tags -> tags_dense tags -> reachable tags exec started ->
     tag_exists tags T1 ->
     Z.of_nat T2 ∈ tag_depends tags T1 ->
     task_exists tags u -> task_has_tag tags u T2 = true ->
     task_queued exec u = true ->
     task_has_tag tags t T1 = true ->
     is_available tags exec t = false) /\
  (let enqueued := task_enqueue tags_dep exec_zero [3] in
   let started := task_start tags_dep enqueued 0 in
   let finished := task_finish tags_dep started 0 in
   task_list_available tags_dep enqueued [0] = [1] /\
   task_list_available tags_dep started [0] = [1] /\
   task_list_available tags_dep finished [0] = [2]).
Proof.
  split; [|vm_compute; done].
  intros tags exec started T1 T2 t u Hwf Hdense Hreach HT1 Hdep Hex HuT2 Hq HtT1.
  pose proof (queue_inv_reachable _ _ _ _ Hwf Hreach) as Hinv.
  destruct (is_available tags exec t) eqn:Hav; [|done]. exfalso.
  apply is_available_spec in Hav as [_ [_ Hall]]; [|done|apply Hinv].
  rewrite <- tag_depends_cursor in Hdep by done.
  pose proof (Hall T1 HtT1 (Z.of_nat T2) Hdep) as Hzero.
  rewrite Nat2Z.id, (qi_incomplete _ _ _ Hinv) in Hzero.
  pose proof (countZ_pos
                (fun task => task_queued exec task && task_has_tag tags task T2)
                (zeros (m_tasks tags)) u Hex) as Hpos.
  cbv beta in Hpos. rewrite Hq, HuT2 in Hpos. specialize (Hpos eq_refl).
  unfold queued_with_tag in Hzero. lia.
Qed.

Lemma dependency_blocks_tasks_witness :
  is_available tags_dep (task_enqueue tags_dep exec_zero [3]) 1 = false.
Proof.
  apply (proj1 dependency_blocks_tasks tags_dep _ [] 1%nat 0%nat 1%nat 0%nat).
  - apply wf_tags_dep.
  - apply (tags_dense_seq tags_dep 2). vm_compute. reflexivity.
  - apply reach_enqueue; [|reflexivity].
    apply reach_init; [apply wf_exec_zero_dep|apply all_zero_exec_zero].
  - apply elem_of_zeros. split; [vm_compute; lia|reflexivity].
  - apply list_elem_of_In. vm_compute. by left.
  - apply elem_of_zeros. split; [vm_compute; lia|reflexivity].
  - vm_compute. reflexivity.
  - vm_compute. reflexivity.
  - vm_compute. reflexivity.
Defined.

(** The claim fails in two ways.  With a hole in the tag registry: after
    one enqueue tag 2 declares tag 0, task T0 carrying tag 0 is queued, and
    task T1 carrying tag 2 is returned.  With a task finished twice: U1 is
    started twice, which [task_list_available] allows, and finished twice;
    the incomplete count of A is then 0 while U2, which carries A, is still
    queued, and T, which carries B, is returned. *)
Lemma dependency_not_enforced :
  (reachable tags_hole exec_hole_enqueued [] /\
   tag_exists tags_hole 2 /\ Z.of_nat 0 ∈ tag_depends tags_hole 2 /\
   task_exists tags_hole 0 /\ task_has_tag tags_hole 0 0 = true /\
   task_queued exec_hole_enqueued 0 = true /\
   task_has_tag tags_hole 1 2 = true /\
   is_available tags_hole exec_hole_enqueued 1 = true) /\
  (let e0 := task_enqueue tags_dep3 exec_zero [3] in
   let e1 := task_start tags_dep3 e0 0 in
   let e2 := task_start tags_dep3 e1 0 in
   let e3 := task_finish tags_dep3 e2 0 in
   let e4 := task_finish tags_dep3 e3 0 in
   tags_dense tags_dep3 /\
   is_available tags_dep3 e0 0 = true /\ is_available tags_dep3 e1 0 = true /\
   tag_exists tags_dep3 1 /\ Z.of_nat 0 ∈ tag_depends tags_dep3 1 /\
   task_exists tags_dep3 1 /\ task_has_tag tags_dep3 1 0 = true /\
   task_queued e4 1 = true /\
   task_has_tag tags_dep3 2 1 = true /\
   is_available tags_dep3 e4 2 = true).
Proof.
  split.
  - split.
    { replace exec_hole_enqueued with (task_enqueue tags_hole exec_zero [5])
        by (vm_compute; reflexivity).
      apply reach_enqueue; [|reflexivity].
      apply reach_init; [wf_exec_by_evaluation|].
      repeat split; by apply Forall_replicate. }
    split; [apply elem_of_zeros; split; [vm_compute; lia|reflexivity]|].
    split; [apply list_elem_of_In; vm_compute; by left|].
    split; [apply elem_of_zeros; split; [vm_compute; lia|reflexivity]|].
    repeat split; vm_compute; reflexivity.
  - cbv zeta.
    split; [apply (tags_dense_seq tags_dep3 2); vm_compute; reflexivity|].
    split; [vm_compute; reflexivity|]. split; [vm_compute; reflexivity|].
    split; [apply elem_of_zeros; split; [vm_compute; lia|reflexivity]|].
    split; [apply list_elem_of_In; vm_compute; by left|].
    split; [apply elem_of_zeros; split; [vm_compute; lia|reflexivity]|].
    repeat split; vm_compute; reflexivity.
Qed.

(** ** hash_id_combination *)

Lemma lor_shiftl_32 (ls ms : Z) :
  is_u32 ls -> is_u32 ms ->
  Z.lor ls (wrap64 (Z.shiftl ms 32)) = ls + ms * 2 ^ 32.
Proof.
  unfold is_u32, wrap64. intros Hls Hms.
  rewrite Z.shiftl_mul_pow2 by lia.
  rewrite (Z.mod_small (ms * 2 ^ 32)) by lia.
  rewrite <- Z.lxor_lor, <- Z.add_nocarry_lxor; try done.
  all: apply Z.bits_inj_0; intros n; rewrite Z.land_spec;
    destruct (Z_lt_le_dec n 0) as [Hneg|Hnn];
    [by rewrite !Z.testbit_neg_r|];
    destruct (Z_lt_le_dec n 32) as [Hlt|Hge];
    [rewrite Z.mul_pow2_bits_low by lia; apply andb_false_r|];
    rewrite <- (Z.mod_small ls (2 ^ 32)) by lia;
    by rewrite Z.mod_pow2_bits_high by lia.
Qed.

Lemma hash_id_combination_value (a b : Z) :
  is_u32 a -> is_u32 b ->
  hash_id_combination a b = Z.max a b + Z.min a b * 2 ^ 32.
Proof.
  intros Ha Hb. unfold hash_id_combination.
  destruct (Z.gtb_spec a b).
  - rewrite lor_shiftl_32 by done. lia.
  - rewrite lor_shiftl_32 by done. lia.
Qed.

Lemma hash_id_combination_comm (a b : Z) :
  hash_id_combination a b = hash_id_combination b a.
Proof.
  unfold hash_id_combination.
  destruct (Z.gtb_spec a b), (Z.gtb_spec b a); try done; try lia.
  by replace b with a by lia.
Qed.

Lemma hash_id_combination_inj (a b a' b' : Z) :
  is_u32 a -> is_u32 b -> is_u32 a' -> is_u32 b' ->
  hash_id_combination a b = hash_id_combination a' b' <-> same_pair a b a' b'.
Proof.
  intros Ha Hb Ha' Hb'. split.
  - rewrite !hash_id_combination_value by done.
    unfold is_u32, same_pair in *. lia.
  - intros [[-> ->]|[-> ->]]; [done|apply hash_id_combination_comm].
Qed.

(** ** IdRegistry and SubdivIdTree *)

Lemma create_false_Ok (r : IdRegistry) :
  exists r' id, create false r = Ok (r', id).
Proof. unfold create. destruct (m_deleted r); simpl; eauto. Qed.

Lemma create_root_Ok (t : SubdivIdTree) :
  exists t' id, create_root t = Ok (t', id) /\
    m_parentsToId t' = m_parentsToId t.
Proof.
  unfold create_root.
  destruct (create_false_Ok (m_registry t)) as (r' & id & ->).
  simpl. eauto.
Qed.

(** What a call of [create_or_get] returns and does to the pair map. *)
Lemma create_or_get_map (t : SubdivIdTree) (a b : Z) :
  exists t' id,
    create_or_get t a b
      = Ok (t', (id, bool_decide (m_parentsToId t !! hash_id_combination a b = None))) /\
    m_parentsToId t' !! hash_id_combination a b = Some id /\
    (forall v, m_parentsToId t !! hash_id_combination a b = Some v -> v = id) /\
    (forall h, h <> hash_id_combination a b ->
       m_parentsToId t' !! h = m_parentsToId t !! h).
Proof.
  unfold create_or_get.
  destruct (m_parentsToId t !! hash_id_combination a b) as [id|] eqn:Hlook.
  - exists t, id. rewrite bool_decide_eq_false_2 by done.
    repeat split; try done. by intros v [= ->].
  - match goal with |- context [create_root ?t0] =>
      destruct (create_root_Ok t0) as (t1 & id & -> & Hmap) end.
    simpl in Hmap. simpl. eexists _, id. split; [done|]. simpl.
    rewrite Hmap, insert_insert_eq. split; [apply lookup_insert_eq|].
    split; [done|]. intros h Hne. by rewrite lookup_insert_ne.
Qed.

Lemma run_op_map (t : SubdivIdTree) (op : TreeOp) :
  exists t' r,
    run_op t op = Ok (t', r) /\
    match op with
    | OpCreateRoot => m_parentsToId t' = m_parentsToId t
    | OpCreateOrGet a b =>
        r.2 = bool_decide (m_parentsToId t !! hash_id_combination a b = None) /\
        m_parentsToId t' !! hash_id_combination a b = Some r.1 /\
        (forall v, m_parentsToId t !! hash_id_combination a b = Some v -> v = r.1) /\
        (forall h, h <> hash_id_combination a b ->
           m_parentsToId t' !! h = m_parentsToId t !! h)
    end.
Proof.
  destruct op as [|a b]; simpl.
  - destruct (create_root_Ok t) as (t' & id & -> & Hmap). simpl. eauto.
  - destruct (create_or_get_map t a b) as (t' & id & -> & H1 & H2 & H3).
    eexists _, _. split; [done|]. simpl. done.
Qed.

(** Entries of the pair map are never changed or removed. *)
Lemma run_op_mono (t t' : SubdivIdTree) (op : TreeOp) (r : Z * bool) (h v : Z) :
  run_op t op = Ok (t', r) ->
  m_parentsToId t !! h = Some v -> m_parentsToId t' !! h = Some v.
Proof.
  intros Hrun Hlook.
  destruct (run_op_map t op) as (t1 & r1 & Hrun1 & Hspec).
  rewrite Hrun in Hrun1. injection Hrun1 as <- <-.
  destruct op as [|a b].
  - by rewrite Hspec.
  - destruct Hspec as (_ & Hnew & Hold & Hother).
    destruct (decide (h = hash_id_combination a b)) as [->|Hne].
    + by rewrite Hnew, (Hold v Hlook).
    + by rewrite Hother.
Qed.

Lemma same_pair_sym (a b a' b' : Z) : same_pair a b a' b' -> same_pair a' b' a b.
Proof. unfold same_pair. intros [[-> ->]|[-> ->]]; auto. Qed.

Lemma run_ops_spec (ops : list TreeOp) (t : SubdivIdTree) :
  exists t' res,
    run_ops t ops = Ok (t', res) /\
    length res = length ops /\
    (forall h v, m_parentsToId t !! h = Some v -> m_parentsToId t' !! h = Some v) /\
    (forall i a b r,
       ops !! i = Some (OpCreateOrGet a b) -> res !! i = Some r ->
       m_parentsToId t' !! hash_id_combination a b = Some r.1 /\
       (r.2 = true <->
        m_parentsToId t !! hash_id_combination a b = None /\
        forall k a' b', (k < i)%nat -> ops !! k = Some (OpCreateOrGet a' b') ->
          hash_id_combination a' b' <> hash_id_combination a b)).
Proof.
  revert t. induction ops as [|op ops IH]; intros t.
  - exists t, []. repeat split; try done.
  - destruct (run_op_map t op) as (t1 & r1 & Hrun & Hspec).
    destruct (IH t1) as (t' & res & Hruns & Hlen & Hmono & Hres).
    exists t', (r1 :: res). split; [|split; [|split]].
    + simpl. rewrite Hrun. simpl. rewrite Hruns. done.
    + simpl. by rewrite Hlen.
    + intros h v Hlook. eapply Hmono, run_op_mono; done.
    + intros [|i] a b r Hop Hr; simpl in Hop, Hr.
      * injection Hop as ->. injection Hr as <-.
        destruct Hspec as (Hfresh & Hnew & _ & _). split; [by apply Hmono|].
        rewrite Hfresh, bool_decide_eq_true. split; [|tauto].
        intros Hnone. split; [done|]. intros k a' b' Hk. lia.
      * destruct (Hres i a b r Hop Hr) as [Hfinal Hfresh].
        split; [done|]. rewrite Hfresh. split.
        -- intros [Hnone Hbefore]. split.
           ++ destruct (m_parentsToId t !! hash_id_combination a b) as [v|] eqn:Hv;
                [|done].
              rewrite (run_op_mono _ _ _ _ _ _ Hrun Hv) in Hnone. done.
           ++ intros [|k] a' b' Hk Hopk; simpl in Hopk.
              ** injection Hopk as ->. destruct Hspec as (_ & Hnew & _ & _).
                 intros Heq. rewrite Heq in Hnew. congruence.
              ** apply (Hbefore k); [lia|done].
        -- intros [Hnone Hbefore]. split.
           ++ destruct op as [|a' b'].
              ** by rewrite Hspec.
              ** destruct Hspec as (_ & _ & _ & Hother).
                 rewrite Hother; [done|]. intros Heq.
                 by apply (Hbefore 0%nat a' b'); [lia|done|].
           ++ intros k a' b' Hk Hopk. apply (Hbefore (S k)); [lia|done].
Qed.

(** C5.  In every history of calls on a tree, two [create_or_get] calls
    that name the same unordered pair, in either order, return the same
    child id, and the flag a call returns is true exactly when no earlier
    call named that unordered pair. *)
Theorem create_or_get_symmetric (ops : list TreeOp) :
  Forall op_u32 ops ->
  exists t res,
    run_ops empty_tree ops = Ok (t, res) /\
    length res = length ops /\
    forall i a b id fresh,
      ops !! i = Some (OpCreateOrGet a b) -> res !! i = Some (id, fresh) ->
      (forall j a' b' id' fresh',
         ops !! j = Some (OpCreateOrGet a' b') -> res !! j = Some (id', fresh') ->
         same_pair a b a' b' -> id' = id) /\
      (fresh = true <->
       forall k a' b', (k < i)%nat -> ops !! k = Some (OpCreateOrGet a' b') ->
         ~ same_pair a b a' b').
Proof.
  intros Hu32.
  destruct (run_ops_spec ops empty_tree) as (t & res & Hrun & Hlen & _ & Hres).
  exists t, res. split; [done|]. split; [done|].
  intros i a b id fresh Hop Hr.
  destruct (Hres i a b (id, fresh) Hop Hr) as [Hfinal Hfresh].
  simpl in Hfinal, Hfresh.
  pose proof (Forall_lookup_1 _ _ _ _ Hu32 Hop) as [Ha Hb]. split.
  - intros j a' b' id' fresh' Hop' Hr' Hsame.
    destruct (Hres j a' b' (id', fresh') Hop' Hr') as [Hfinal' _].
    simpl in Hfinal'.
    pose proof (Forall_lookup_1 _ _ _ _ Hu32 Hop') as [Ha' Hb'].
    apply hash_id_combination_inj in Hsame; [|done..].
    rewrite Hsame in Hfinal. congruence.
  - rewrite Hfresh. split.
    + intros [_ Hbefore] k a' b' Hk Hopk Hsame.
      apply (Hbefore k a' b' Hk Hopk).
      pose proof (Forall_lookup_1 _ _ _ _ Hu32 Hopk) as [Ha' Hb'].
      by apply hash_id_combination_inj, same_pair_sym.
    + intros Hbefore. split; [apply lookup_empty|].
      intros k a' b' Hk Hopk Heq.
      pose proof (Forall_lookup_1 _ _ _ _ Hu32 Hopk) as [Ha' Hb'].
      apply (Hbefore k a' b' Hk Hopk).
      by apply same_pair_sym, hash_id_combination_inj.
Qed.

Lemma create_or_get_symmetric_witness :
  Forall op_u32 [OpCreateRoot; OpCreateRoot; OpCreateOrGet 0 1; OpCreateOrGet 1 0] /\
  exists t res,
    run_ops empty_tree
      [OpCreateRoot; OpCreateRoot; OpCreateOrGet 0 1; OpCreateOrGet 1 0]
      = Ok (t, res) /\
    res !! 2%nat = Some (2, true) /\ res !! 3%nat = Some (2, false).
Proof.
  assert (Forall op_u32
            [OpCreateRoot; OpCreateRoot; OpCreateOrGet 0 1; OpCreateOrGet 1 0])
    as Hu32.
  { repeat constructor; unfold is_u32; lia. }
  split; [exact Hu32|].
  destruct (create_or_get_symmetric _ Hu32) as (t & res & Hrun & _ & _).
  exists t, res. split; [exact Hrun|].
  vm_compute in Hrun. injection Hrun as _ <-. split; reflexivity.
Defined.

(** The symmetric-key scenario: two roots, then [create_or_get] in both
    orders. *)
Example create_or_get_scenario :
  exists t,
    run_ops empty_tree
      [OpCreateRoot; OpCreateRoot; OpCreateOrGet 0 1; OpCreateOrGet 1 0]
    = Ok (t, [(0, true); (1, true); (2, true); (2, false)]).
Proof. eexists. vm_compute. reflexivity. Qed.

(** ** The chunk edge recursion *)

Lemma vrtx_create_or_get_child_spec (s : SubdivSkeleton) (a b : Z) :
  exists s1 mid,
    vrtx_create_or_get_child s a b = Ok (s1, mid) /\
    midpoint s1 a b = Some mid /\
    midpoints_kept s s1.
Proof.
  unfold vrtx_create_or_get_child, midpoint, midpoints_kept.
  destruct (create_or_get_map (m_vrtxIdTree s) a b)
    as (t' & id & -> & Hnew & Hold & Hother).
  simpl. eexists _, id. split; [done|]. simpl. split; [done|].
  intros h v Hlook.
  destruct (decide (h = hash_id_combination a b)) as [->|Hne].
  - by rewrite Hnew, (Hold v Hlook).
  - by rewrite Hother.
Qed.

Lemma midpoints_kept_trans (s1 s2 s3 : SubdivSkeleton) :
  midpoints_kept s1 s2 -> midpoints_kept s2 s3 -> midpoints_kept s1 s3.
Proof. unfold midpoints_kept. eauto. Qed.

Lemma edge_sequence_kept (s s' : SubdivSkeleton) (level : nat) (a b : Z)
    (out : list Z) :
  midpoints_kept s s' ->
  edge_sequence s level a b out -> edge_sequence s' level a b out.
Proof.
  intros Hkept. revert a b out.
  induction level as [|level IH]; intros a b out; simpl; [done|].
  intros (mid & outL & outR & -> & Hlen & Hmid & HL & HR).
  exists mid, outL, outR. split; [done|]. split; [done|].
  split; [by apply Hkept|]. split; by apply IH.
Qed.

Lemma edge_sequence_length (s : SubdivSkeleton) (level : nat) (a b : Z)
    (out : list Z) :
  edge_sequence s level a b out -> length out = (2 ^ level - 1)%nat.
Proof.
  revert a b out. induction level as [|level IH]; intros a b out; simpl.
  - by intros ->.
  - intros (mid & outL & outR & -> & Hlen & _ & HL & HR).
    apply IH in HL. apply IH in HR.
    rewrite length_app. simpl. rewrite HL, HR.
    pose proof (Nat.pow_nonzero 2 level). lia.
Qed.

Lemma split_middle (body : list Z) (h : nat) :
  length body = (2 * h + 1)%nat ->
  exists bl m0 br, body = bl ++ m0 :: br /\ length bl = h /\ length br = h.
Proof.
  intros Hlen.
  destruct (drop h body) as [|m0 br] eqn:Hdrop.
  - apply (f_equal length) in Hdrop. rewrite length_drop in Hdrop.
    simpl in Hdrop. lia.
  - exists (take h body), m0, br. split; [|split].
    + by rewrite <- Hdrop, take_drop.
    + rewrite length_take. lia.
    + apply (f_equal length) in Hdrop. rewrite length_drop in Hdrop.
      simpl in Hdrop. lia.
Qed.

Lemma half_size (p h : nat) :
  (p <= 1)%nat -> ((p + (2 * h + 1)) / 2 = p + h)%nat.
Proof.
  intros Hp. symmetry.
  apply (Nat.div_unique _ 2 (p + h) (1 - p)); lia.
Qed.

(** The recursion on a view that starts with at most one slot that is not
    its own (the midpoint slot of the caller, when the suffix view begins
    at it): that slot is left alone and the rest is filled. *)
Lemma edge_recurse_view (sem : SuffixMeaning) (level : nat) (a b : Z)
    (pre body : list Z) (s : SubdivSkeleton) :
  (length pre <= 1)%nat -> length body = (2 ^ level - 1)%nat ->
  exists s' out,
    vrtx_create_chunk_edge_recurse sem level a b (pre ++ body) s
      = Ok (s', pre ++ out) /\
    midpoints_kept s s' /\
    edge_sequence s' level a b out.
Proof.
  revert a b pre body s.
  induction level as [|level IH]; intros a b pre body s Hpre Hbody.
  - simpl in Hbody. apply nil_length_inv in Hbody as ->.
    exists s, []. split; [done|]. split; [by intros h v|done].
  - pose proof (Nat.pow_nonzero 2 level) as Hpow.
    destruct (split_middle body (2 ^ level - 1)) as (bl & m0 & br & -> & Hbl & Hbr).
    { rewrite Hbody, Nat.pow_succ_r'. lia. }
    cbn [vrtx_create_chunk_edge_recurse].
    destruct (vrtx_create_or_get_child_spec s a b) as (s1 & mid & -> & Hmid & Hk1).
    cbn [mbind Result_bind].
    assert ((length (pre ++ bl ++ m0 :: br) / 2)%nat = length (pre ++ bl)) as ->.
    { rewrite !length_app. cbn [length]. rewrite Hbl, Hbr.
      rewrite <- (half_size (length pre) (2 ^ level - 1)) by done.
      f_equal. lia. }
    assert (<[length (pre ++ bl) := mid]> (pre ++ bl ++ m0 :: br)
            = (pre ++ bl) ++ mid :: br) as ->.
    { rewrite (app_assoc pre bl). rewrite insert_app_r_alt by done.
      by rewrite Nat.sub_diag. }
    rewrite take_app_length, drop_app_length.
    destruct (IH a mid pre bl s1 Hpre Hbl) as (s2 & outL & -> & Hk2 & HL).
    cbn [mbind Result_bind].
    pose proof (edge_sequence_length _ _ _ _ _ HL) as HlenL.
    assert (exists pre',
              drop (suffix_begin sem
                      (length ((pre ++ outL) ++ mid :: br)) (length (pre ++ bl)))
                   ((pre ++ outL) ++ mid :: br) = pre' ++ br /\
              take (suffix_begin sem
                      (length ((pre ++ outL) ++ mid :: br)) (length (pre ++ bl)))
                   ((pre ++ outL) ++ mid :: br) ++ pre'
                = (pre ++ outL) ++ [mid] /\
              (length pre' <= 1)%nat) as (pre' & -> & Htake & Hpre').
    { assert (length (pre ++ bl) = length (pre ++ outL)) as Hsame
        by (rewrite !length_app; lia).
      destruct sem; simpl.
      - exists [mid]. rewrite Hsame, drop_app_length, take_app_length. done.
      - destruct pre as [|p0 pre].
        + exists []. simpl.
          replace (length (outL ++ mid :: br) - length bl)%nat
            with (length (outL ++ [mid]))
            by (rewrite !length_app; simpl; lia).
          replace (outL ++ mid :: br) with ((outL ++ [mid]) ++ br)
            by (by rewrite <- app_assoc).
          rewrite drop_app_length, take_app_length, app_nil_r. done.
        + exists [mid].
          assert (pre = []) as -> by (destruct pre; [done|simpl in Hpre; lia]).
          replace (length (([p0] ++ outL) ++ mid :: br) - length ([p0] ++ bl))%nat
            with (length ([p0] ++ outL))
            by (rewrite !length_app; simpl; lia).
          rewrite drop_app_length, take_app_length. done. }
    destruct (IH mid b pre' br s2 Hpre' Hbr) as (s3 & outR & -> & Hk3 & HR).
    cbn [mbind Result_bind].
    exists s3, (outL ++ mid :: outR). split; [|split].
    + f_equal. f_equal. rewrite app_assoc, Htake.
      rewrite <- !app_assoc. done.
    + eauto using midpoints_kept_trans.
    + simpl. exists mid, outL, outR. split; [done|].
      split; [by rewrite HlenL, (edge_sequence_length _ _ _ _ _ HR)|].
      split; [by apply Hk3, Hk2|]. split; [|done].
      by eapply edge_sequence_kept.
Qed.

Lemma edge_sequence_functional (s : SubdivSkeleton) (level : nat) (a b : Z)
    (out1 out2 : list Z) :
  edge_sequence s level a b out1 -> edge_sequence s level a b out2 -> out1 = out2.
Proof.
  revert a b out1 out2.
  induction level as [|level IH]; intros a b out1 out2; simpl.
  - by intros -> ->.
  - intros (mid & outL & outR & -> & _ & Hmid & HL & HR)
           (mid' & outL' & outR' & -> & _ & Hmid' & HL' & HR').
    rewrite Hmid in Hmid'. injection Hmid' as <-.
    by rewrite (IH _ _ _ _ HL HL'), (IH _ _ _ _ HR HR').
Qed.

Lemma edge_recurse_Ok (sem : SuffixMeaning) (level : nat) (a b : Z)
    (rOut : list Z) (s : SubdivSkeleton) :
  exists s' out, vrtx_create_chunk_edge_recurse sem level a b rOut s = Ok (s', out).
Proof.
  revert a b rOut s. induction level as [|level IH]; intros a b rOut s.
  - simpl. eauto.
  - cbn [vrtx_create_chunk_edge_recurse].
    destruct (vrtx_create_or_get_child_spec s a b) as (s1 & mid & -> & _).
    cbn [mbind Result_bind].
    match goal with |- context [vrtx_create_chunk_edge_recurse sem level a mid ?v s1] =>
      destruct (IH a mid v s1) as (s2 & outL & ->) end.
    cbn [mbind Result_bind].
    match goal with |- context [vrtx_create_chunk_edge_recurse sem level mid b ?v s2] =>
      destruct (IH mid b v s2) as (s3 & outR & ->) end.
    cbn [mbind Result_bind]. eauto.
Qed.

(** The recursion returns a view of the size it was given: writing the
    sub-views back never changes the size of the array. *)
Lemma edge_recurse_length (sem : SuffixMeaning) (level : nat) (a b : Z)
    (rOut out : list Z) (s s' : SubdivSkeleton) :
  vrtx_create_chunk_edge_recurse sem level a b rOut s = Ok (s', out) ->
  length out = length rOut.
Proof.
  revert a b rOut out s s'.
  induction level as [|level IH]; intros a b rOut out s s'.
  - simpl. by intros [= _ ->].
  - cbn [vrtx_create_chunk_edge_recurse].
    destruct (vrtx_create_or_get_child_spec s a b) as (s1 & mid & -> & _).
    cbn [mbind Result_bind].
    assert (length rOut / 2 <= length rOut)%nat as Hh
      by (apply Nat.Div0.div_le_upper_bound; lia).
    revert Hh. generalize (length rOut / 2)%nat. intros h Hh.
    destruct (edge_recurse_Ok sem level a mid (take h (<[h := mid]> rOut)) s1)
      as (s2 & outL & HL).
    pose proof (IH _ _ _ _ _ _ HL) as HlenL. rewrite HL.
    cbn [mbind Result_bind].
    set (rOut2 := outL ++ drop h (<[h := mid]> rOut)).
    destruct (edge_recurse_Ok sem level mid b
                (drop (suffix_begin sem (length rOut2) h) rOut2) s2)
      as (s3 & outR & HR).
    pose proof (IH _ _ _ _ _ _ HR) as HlenR. rewrite HR.
    cbn [mbind Result_bind]. intros Heq. injection Heq as _ <-.
    rewrite length_take, length_insert in HlenL.
    assert (length rOut2 = length rOut) as Hlen2.
    { unfold rOut2. rewrite length_app, length_drop, length_insert. lia. }
    rewrite length_app, HlenR, length_take, length_drop. lia.
Qed.

(** The skeleton after the recursion does not depend on what the output
    view held. *)
Lemma edge_recurse_state (sem : SuffixMeaning) (level : nat) (a b : Z)
    (rOut rOut' : list Z) (s : SubdivSkeleton) :
  result_state (vrtx_create_chunk_edge_recurse sem level a b rOut s)
  = result_state (vrtx_create_chunk_edge_recurse sem level a b rOut' s).
Proof.
  revert a b rOut rOut' s.
  induction level as [|level IH]; intros a b rOut rOut' s; [done|].
  cbn [vrtx_create_chunk_edge_recurse].
  destruct (vrtx_create_or_get_child_spec s a b) as (s1 & mid & -> & _).
  cbn [mbind Result_bind].
  match goal with
  | |- result_state
         (mbind _ (vrtx_create_chunk_edge_recurse sem level a mid ?v s1))
       = result_state
         (mbind _ (vrtx_create_chunk_edge_recurse sem level a mid ?v' s1)) =>
      pose proof (IH a mid v v' s1) as HeqL;
      destruct (edge_recurse_Ok sem level a mid v s1) as (s2 & outL & HL);
      destruct (edge_recurse_Ok sem level a mid v' s1) as (s2' & outL' & HL')
  end.
  rewrite HL, HL' in HeqL |- *. injection HeqL as <-.
  cbn [mbind Result_bind].
  match goal with
  | |- result_state
         (mbind _ (vrtx_create_chunk_edge_recurse sem level mid b ?v s2))
       = result_state
         (mbind _ (vrtx_create_chunk_edge_recurse sem level mid b ?v' s2)) =>
      pose proof (IH mid b v v' s2) as HeqR;
      destruct (edge_recurse_Ok sem level mid b v s2) as (s3 & outR & HR);
      destruct (edge_recurse_Ok sem level mid b v' s2) as (s3' & outR' & HR')
  end.
  rewrite HR, HR' in HeqR |- *. injection HeqR as <-.
  done.
Qed.

(** C6.  For a level above zero and an output view of [2^level - 1]
    slots, under either meaning of [suffix], the recursion returns, the
    output is the subdivision sequence of the edge (the midpoint of
    [(a, b)] in the middle slot [(2^level - 1) / 2], the sequence of
    [(a, mid)] to its left and of [(mid, b)] to its right), and no slot
    keeps what the view held before.  For level 2 the output is
    [midpoint (a, m); m; midpoint (m, b)] with [m = midpoint (a, b)]. *)
Theorem vrtx_create_chunk_edge_recurse_fills (sem : SuffixMeaning) (level : nat)
    (a b : Z) (rOut : list Z) (s : SubdivSkeleton) :
  (0 < level)%nat -> length rOut = (2 ^ level - 1)%nat ->
  exists s' out,
    vrtx_create_chunk_edge_recurse sem level a b rOut s = Ok (s', out) /\
    length out = (2 ^ level - 1)%nat /\
    edge_sequence s' level a b out /\
    out !! ((2 ^ level - 1) / 2)%nat = midpoint s' a b /\
    (forall rOut', length rOut' = length rOut ->
       vrtx_create_chunk_edge_recurse sem level a b rOut' s = Ok (s', out)) /\
    (level = 2%nat ->
     exists m m_am m_mb,
       out = [m_am; m; m_mb] /\
       midpoint s' a b = Some m /\
       midpoint s' a m = Some m_am /\
       midpoint s' m b = Some m_mb).
Proof.
  intros Hlevel Hlen.
  destruct (edge_recurse_view sem level a b [] rOut s) as (s' & out & Hrun & _ & Hseq);
    [simpl; lia|done|].
  simpl in Hrun. exists s', out. split; [done|].
  split; [by eapply edge_sequence_length|]. split; [done|]. split; [|split].
  - destruct level as [|level]; [lia|]. simpl in Hseq.
    destruct Hseq as (mid & outL & outR & -> & HlenLR & Hmid & HL & HR).
    apply edge_sequence_length in HL.
    rewrite Hmid. rewrite Nat.pow_succ_r'.
    pose proof (Nat.pow_nonzero 2 level ltac:(lia)) as Hpow.
    replace ((2 * 2 ^ level - 1) / 2)%nat with (length outL).
    + by rewrite list_lookup_middle.
    + rewrite HL. apply (Nat.div_unique _ 2 _ 1); lia.
  - intros rOut' Hlen'.
    destruct (edge_recurse_view sem level a b [] rOut' s)
      as (s'' & out' & Hrun' & _ & Hseq'); [simpl; lia|congruence|].
    simpl in Hrun'.
    pose proof (edge_recurse_state sem level a b rOut rOut' s) as Hstate.
    rewrite Hrun, Hrun' in Hstate. injection Hstate as <-.
    by rewrite (edge_sequence_functional _ _ _ _ _ _ Hseq Hseq').
  - intros ->. simpl in Hseq.
    destruct Hseq as (m & outL & outR & -> & _ & Hm
                      & (m_am & l1 & l2 & -> & _ & Ham & -> & ->)
                      & (m_mb & l3 & l4 & -> & _ & Hmb & -> & ->)).
    by exists m, m_am, m_mb.
Qed.

Lemma vrtx_create_chunk_edge_recurse_fills_witness :
  exists s,
    vrtx_create_chunk_edge_recurse SuffixFrom 2 0 1 [7; 7; 7]
      {| m_vrtxIdTree := tree_two_roots;
         m_vrtxRefCount := [0; 0]; m_maybeDelete := [] |}
    = Ok (s, [3; 2; 4]).
Proof.
  destruct (vrtx_create_chunk_edge_recurse_fills SuffixFrom 2 0 1 [7; 7; 7]
              {| m_vrtxIdTree := tree_two_roots;
                 m_vrtxRefCount := [0; 0]; m_maybeDelete := [] |})
    as (s & out & Hrun & _); [lia|reflexivity|].
  exists s. rewrite Hrun. vm_compute in Hrun. injection Hrun as _ <-.
  reflexivity.
Defined.

(** ** Child counts *)

Lemma vec_get_resize (n : nat) (v : list Z) (i : nat) :
  vec_get (resize n 0 v) i = if decide (i < n)%nat then vec_get v i else 0.
Proof.
  unfold vec_get. case_decide as Hi.
  - destruct (decide (i < length v)%nat) as [Hv|Hv].
    + by rewrite lookup_resize.
    + rewrite lookup_resize_new by lia. by rewrite (lookup_ge_None_2 v) by lia.
  - by rewrite lookup_resize_old by lia.
Qed.

Lemma wrap8_add_l (x y : Z) : wrap8 (wrap8 x + y) = wrap8 (x + y).
Proof. unfold wrap8. by rewrite Zplus_mod_idemp_l. Qed.

Lemma id_live_lt (r : IdRegistry) (id : Z) :
  id_live r id -> (Z.to_nat id < length (m_exists r))%nat.
Proof. intros [_ Hlive]. by apply lookup_lt_Some in Hlive. Qed.

(** A new root leaves the child counts of the live ids as they are. *)
Lemma create_root_child_count (t : SubdivIdTree) (a : Z) :
  wf_registry (m_registry t) -> id_live (m_registry t) a ->
  exists t' id,
    create_root t = Ok (t', id) /\
    m_parentsToId t' = m_parentsToId t /\
    vec_get (m_idChildCount t') (Z.to_nat a) = vec_get (m_idChildCount t) (Z.to_nat a) /\
    (Z.to_nat a < length (m_idChildCount t'))%nat.
Proof.
  intros [Hdel Hsize] Hlive.
  pose proof (id_live_lt _ _ Hlive) as Hlt. destruct Hlive as [Ha Hlive].
  unfold create_root, create, size_required.
  destruct (m_deleted (m_registry t)) as [|d deleted'] eqn:Hd; simpl.
  - eexists _, _. split; [done|]. simpl. split; [done|].
    rewrite length_insert, length_resize, length_app. simpl.
    rewrite !wrap32_small by (unfold is_u32; lia).
    rewrite vec_get_insert, vec_get_resize, length_resize.
    rewrite decide_False by lia. rewrite decide_True by lia. split; [done|lia].
  - destruct (Hdel d) as [Hd0 Hdead]; [apply elem_of_cons; by left|].
    eexists _, _. split; [done|]. simpl. split; [done|].
    rewrite !length_insert, length_resize.
    rewrite !wrap32_small by (unfold is_u32; lia).
    rewrite vec_get_insert, vec_get_resize, length_resize.
    rewrite decide_False by (intros [Heq _]; congruence).
    rewrite decide_True by lia. split; [done|lia].
Qed.

(** C7, as amended.  When [create_or_get (a, b)] inserts a new pair, the
    child count of each parent is incremented as a [uint8_t]: it becomes
    the old count plus one modulo 256 (plus two when [a = b]), and the
    call returns normally. *)
Theorem create_or_get_child_count (t : SubdivIdTree) (a b : Z) :
  wf_registry (m_registry t) ->
  id_live (m_registry t) a -> id_live (m_registry t) b ->
  m_parentsToId t !! hash_id_combination a b = None ->
  exists t' id,
    create_or_get t a b = Ok (t', (id, true)) /\
    vec_get (m_idChildCount t') (Z.to_nat a)
      = wrap8 (vec_get (m_idChildCount t) (Z.to_nat a) + (if decide (a = b) then 2 else 1)) /\
    vec_get (m_idChildCount t') (Z.to_nat b)
      = wrap8 (vec_get (m_idChildCount t) (Z.to_nat b) + (if decide (a = b) then 2 else 1)).
Proof.
  intros Hwf Ha Hb Hnone. unfold create_or_get. rewrite Hnone.
  match goal with |- context [create_root ?t0] => set (t0' := t0) end.
  destruct (create_root_child_count t0' a Hwf Ha) as (t1 & id & Hroot & _ & Hca & Hla).
  destruct (create_root_child_count t0' b Hwf Hb) as (t1' & id' & Hroot' & _ & Hcb & Hlb).
  rewrite Hroot in Hroot'. injection Hroot' as <- <-.
  rewrite Hroot. cbn [mbind Result_bind]. eexists _, id. split; [done|].
  cbn [m_idChildCount]. simpl in Hca, Hcb.
  rewrite !vec_get_alter, !length_alter.
  destruct Ha as [Ha0 _], Hb as [Hb0 _].
  destruct (decide (a = b)) as [->|Hne].
  - rewrite !decide_True by done. unfold incr8.
    rewrite wrap8_add_l, Hcb. split; f_equal; lia.
  - rewrite (decide_False (P := Z.to_nat b = Z.to_nat a /\ _)) by lia.
    rewrite (decide_True (P := Z.to_nat a = Z.to_nat a /\ _)) by done.
    rewrite (decide_True (P := Z.to_nat b = Z.to_nat b /\ _)) by done.
    rewrite (decide_False (P := Z.to_nat a = Z.to_nat b /\ _)) by lia.
    unfold incr8. by rewrite Hca, Hcb.
Qed.

Lemma create_or_get_child_count_witness :
  exists t' id,
    create_or_get tree_two_roots 0 1 = Ok (t', (id, true)) /\
    vec_get (m_idChildCount t') 0 = 1 /\ vec_get (m_idChildCount t') 1 = 1.
Proof.
  destruct (create_or_get_child_count tree_two_roots 0 1)
    as (t' & id & Hrun & H0 & H1).
  - split; [|vm_compute; reflexivity].
    intros id Hid. by apply elem_of_nil in Hid.
  - split; [lia|reflexivity].
  - split; [lia|reflexivity].
  - reflexivity.
  - exists t', id. split; [exact Hrun|]. split; [exact H0|exact H1].
Defined.

(** C7, as stated, fails: after 255 insertions under parent 0 its child
    count is 255; the next insertion returns normally with the fresh flag
    set, and the stored count is 0. *)
Lemma child_count_wraps_at_255 :
  match run_ops empty_tree ops_255_children with
  | Ok (t, _) =>
      vec_get (m_idChildCount t) 0 = 255 /\
      match create_or_get t 0 256 with
      | Ok (t', (_, fresh)) => fresh = true /\ vec_get (m_idChildCount t') 0 = 0
      | Throw _ => False
      end
  | Throw _ => False
  end.
Proof. vm_compute. done. Qed.

(** ** Vertex reference counts *)

(** C8, as amended.  [vrtx_refcount_add] and [vrtx_refcount_remove] always
    return and change only the count of the vertex, which they increment
    and decrement as a [uint8_t], modulo 256: removing at count 0 leaves
    255 and adding at count 255 leaves 0. *)
Theorem vrtx_refcount_wraps (s : SubdivSkeleton) (id : Z) :
  (Z.to_nat id < length (m_vrtxRefCount s))%nat ->
  vec_get (m_vrtxRefCount (vrtx_refcount_add s id)) (Z.to_nat id)
    = wrap8 (vec_get (m_vrtxRefCount s) (Z.to_nat id) + 1) /\
  vec_get (m_vrtxRefCount (vrtx_refcount_remove s id)) (Z.to_nat id)
    = wrap8 (vec_get (m_vrtxRefCount s) (Z.to_nat id) - 1) /\
  (vec_get (m_vrtxRefCount s) (Z.to_nat id) = 0 ->
   vec_get (m_vrtxRefCount (vrtx_refcount_remove s id)) (Z.to_nat id) = 255) /\
  (vec_get (m_vrtxRefCount s) (Z.to_nat id) = 255 ->
   vec_get (m_vrtxRefCount (vrtx_refcount_add s id)) (Z.to_nat id) = 0) /\
  (forall other, other <> Z.to_nat id ->
     vec_get (m_vrtxRefCount (vrtx_refcount_add s id)) other
       = vec_get (m_vrtxRefCount s) other /\
     vec_get (m_vrtxRefCount (vrtx_refcount_remove s id)) other
       = vec_get (m_vrtxRefCount s) other) /\
  m_vrtxIdTree (vrtx_refcount_add s id) = m_vrtxIdTree s /\
  m_vrtxIdTree (vrtx_refcount_remove s id) = m_vrtxIdTree s.
Proof.
  intros Hlt. unfold vrtx_refcount_add, vrtx_refcount_remove.
  cbn [m_vrtxRefCount m_vrtxIdTree]. rewrite !vec_get_alter.
  rewrite !decide_True by done. unfold incr8, decr8.
  split; [done|]. split; [done|]. split; [by intros ->|].
  split; [by intros ->|]. split; [|done].
  intros other Hne. rewrite !vec_get_alter.
  rewrite !decide_False by (intros [? _]; congruence). done.
Qed.

Lemma vrtx_refcount_wraps_witness :
  vec_get (m_vrtxRefCount
             (vrtx_refcount_remove
                {| m_vrtxIdTree := tree_two_roots;
                   m_vrtxRefCount := [0; 0]; m_maybeDelete := [] |} 1)) 1 = 255.
Proof.
  apply (vrtx_refcount_wraps
           {| m_vrtxIdTree := tree_two_roots;
              m_vrtxRefCount := [0; 0]; m_maybeDelete := [] |} 1).
  - simpl. lia.
  - reflexivity.
Defined.

(** C8, as stated, fails: on a fresh root, whose count is 0,
    [vrtx_refcount_remove] leaves the count 255, and 256 calls of
    [vrtx_refcount_add] bring the count back to 0; neither can report an
    error. *)
Lemma vrtx_refcount_no_error :
  match vrtx_create_root empty_skeleton with
  | Ok (s, v) =>
      vec_get (m_vrtxRefCount s) (Z.to_nat v) = 0 /\
      vec_get (m_vrtxRefCount (vrtx_refcount_remove s v)) (Z.to_nat v) = 255 /\
      vec_get (m_vrtxRefCount
                 (Nat.iter 255 (fun s' => vrtx_refcount_add s' v) s)) (Z.to_nat v) = 255 /\
      vec_get (m_vrtxRefCount
                 (Nat.iter 256 (fun s' => vrtx_refcount_add s' v) s)) (Z.to_nat v) = 0
  | Throw _ => False
  end.
Proof. vm_compute. done. Qed.

(** ** IdRegistry::create *)

(** C9, as amended.  With [NO_AUTO_RESIZE] set, [create] fails with
    [CapacityExceeded] exactly when the freed stack is empty and the
    liveness array is at capacity; a successful [create] leaves the
    capacity as it was and keeps the array within it. *)
Theorem create_no_auto_resize (r : IdRegistry) :
  (create true r = Throw CapacityExceeded <->
   m_deleted r = [] /\ length (m_exists r) = m_exists_capacity r) /\
  (forall r' id, create true r = Ok (r', id) ->
     m_exists_capacity r' = m_exists_capacity r /\
     ((length (m_exists r) <= m_exists_capacity r)%nat ->
      (length (m_exists r') <= m_exists_capacity r')%nat)).
Proof.
  unfold create. destruct (m_deleted r) as [|d deleted']; simpl.
  - destruct (Nat.eqb_spec (length (m_exists r)) (m_exists_capacity r)) as [Heq|Hne].
    + split; [done|]. intros r' id [=].
    + split; [split; [done|tauto]|].
      intros r' id [= <- _]. simpl. split; [done|].
      rewrite length_app. simpl. lia.
  - split; [split; [done|by intros [? _]]|].
    intros r' id [= <- _]. simpl. by rewrite length_insert.
Qed.

Lemma create_no_auto_resize_witness :
  create true {| m_exists := replicate 64 true; m_exists_capacity := 64;
                 m_deleted := [] |} = Throw CapacityExceeded.
Proof.
  apply (create_no_auto_resize
           {| m_exists := replicate 64 true; m_exists_capacity := 64;
              m_deleted := [] |}).
  split; reflexivity.
Defined.

(** C9, as stated, fails: the registry is at capacity and [create], with
    [NO_AUTO_RESIZE] set, succeeds by reusing the freed slot. *)
Lemma create_at_capacity_succeeds :
  length (m_exists registry_full_freed) = m_exists_capacity registry_full_freed /\
  create true registry_full_freed
  = Ok ({| m_exists := replicate 64 true; m_exists_capacity := 64; m_deleted := [] |}, 5).
Proof. split; reflexivity. Qed.

(** C10.  When the freed stack is not empty, [create] returns its top,
    marks that slot live and pops it, whatever the flag and the capacity:
    the capacity check is not reached. *)
Theorem create_reuses_freed (NO_AUTO_RESIZE : bool) (r : IdRegistry)
    (id : Z) (deleted' : list Z) :
  m_deleted r = id :: deleted' ->
  create NO_AUTO_RESIZE r
  = Ok ({| m_exists := <[Z.to_nat id := true]> (m_exists r);
           m_exists_capacity := m_exists_capacity r;
           m_deleted := deleted' |}, id) /\
  create NO_AUTO_RESIZE r <> Throw CapacityExceeded /\
  ((Z.to_nat id < length (m_exists r))%nat ->
   <[Z.to_nat id := true]> (m_exists r) !! Z.to_nat id = Some true).
Proof.
  intros Hdel. unfold create. rewrite Hdel.
  split; [done|]. split; [done|]. apply list_lookup_insert_eq.
Qed.

Lemma create_reuses_freed_witness :
  m_deleted registry_full_freed = [5] /\
  length (m_exists registry_full_freed) = m_exists_capacity registry_full_freed /\
  create true registry_full_freed
  = Ok ({| m_exists := <[5%nat := true]> (m_exists registry_full_freed);
           m_exists_capacity := 64; m_deleted := [] |}, 5).
Proof.
  split; [reflexivity|]. split; [reflexivity|].
  apply (create_reuses_freed true registry_full_freed 5 []). reflexivity.
Defined.

(* ===================================================================== *)
(** * Part III: further properties of the scheduler *)
(* ===================================================================== *)

(** ** Vectors as a whole *)

Lemma vec_eq (v w : list Z) :
  length v = length w -> (forall i, vec_get v i = vec_get w i) -> v = w.
Proof.
  intros Hlen Hget. apply list_eq. intros i.
  specialize (Hget i). unfold vec_get in Hget.
  destruct (v !! i) as [x|] eqn:Hv, (w !! i) as [y|] eqn:Hw; simpl in Hget.
  - by subst.
  - apply lookup_lt_Some in Hv. apply lookup_ge_None in Hw. lia.
  - apply lookup_ge_None in Hv. apply lookup_lt_Some in Hw. lia.
  - done.
Qed.

Lemma foldl_ext_eq {A B} (f g : A -> B -> A) (a : A) (l : list B) :
  (forall a' x, f a' x = g a' x) -> foldl f a l = foldl g a l.
Proof.
  intros Hfg. revert a. induction l as [|x l IH]; intros a; simpl; [done|].
  by rewrite Hfg, IH.
Qed.

(** ** More on task_enqueue *)

Lemma enqueue_task_noop (tags : TaskTags) (query : list Z)
    (exec : ExecutionContext) (task : nat) :
  newly_enqueued tags exec query task = false ->
  enqueue_task tags query exec task = exec.
Proof.
  unfold newly_enqueued, enqueue_task. intros Hnew.
  destruct (vec_get (m_taskQueuedCounts exec) task =? 0); [|done].
  simpl in Hnew. by rewrite Hnew.
Qed.

Lemma enqueue_fold_noop (tags : TaskTags) (query : list Z) (l : list nat)
    (exec : ExecutionContext) :
  (forall t, t ∈ l -> newly_enqueued tags exec query t = false) ->
  foldl (enqueue_task tags query) exec l = exec.
Proof.
  induction l as [|x l IH]; intros Hl; simpl; [done|].
  rewrite enqueue_task_noop by (apply Hl, elem_of_cons; by left).
  apply IH. intros t Ht. apply Hl, elem_of_cons. by right.
Qed.

(** X1.  Enqueueing the same query a second time changes nothing: every
    task the query matches is queued after the first call. *)
Theorem task_enqueue_idempotent (tags : TaskTags) (exec : ExecutionContext)
    (query : list Z) :
  wf_tags tags -> wf_exec tags exec ->
  task_enqueue tags (task_enqueue tags exec query) query
  = task_enqueue tags exec query.
Proof.
  intros Hwf Hexec.
  destruct (enqueue_fold tags query (zeros (m_tasks tags)) exec Hwf Hexec
              (NoDup_zeros _)) as (_ & _ & Hq & _).
  { intros t Ht. by apply task_exists_lt. }
  fold (task_enqueue tags exec query) in Hq.
  unfold task_enqueue at 1. apply enqueue_fold_noop. intros t Ht.
  unfold newly_enqueued at 1. rewrite Hq.
  rewrite bool_decide_eq_true_2 by done. cbn [andb].
  unfold newly_enqueued.
  destruct (any_tag_matches query (task_tag_ints tags t));
    [|apply andb_false_r].
  rewrite !andb_true_r.
  destruct (Z.eqb_spec (vec_get (m_taskQueuedCounts exec) t) 0) as [Hz|Hnz].
  - done.
  - by apply Z.eqb_neq.
Qed.

Lemma task_enqueue_idempotent_witness :
  wf_tags tags_dep /\ wf_exec tags_dep exec_zero /\
  task_enqueue tags_dep (task_enqueue tags_dep exec_zero [3]) [3]
  = task_enqueue tags_dep exec_zero [3].
Proof.
  split; [wf_tags_by_evaluation|]. split; [wf_exec_by_evaluation|].
  apply task_enqueue_idempotent.
  - wf_tags_by_evaluation.
  - wf_exec_by_evaluation.
Defined.

Lemma any_tag_matches_zero_query (n : nat) (taskTagInts : list Z) :
  any_tag_matches (replicate n 0) taskTagInts = false.
Proof.
  revert taskTagInts.
  induction n as [|n IH]; intros [|t taskTagInts]; simpl; auto.
Qed.

(** X2.  A query without any tag queues nothing: [task_enqueue] returns
    the context it was given. *)
Theorem task_enqueue_empty_query (tags : TaskTags) (exec : ExecutionContext) :
  task_enqueue tags exec (replicate (tag_ints_per_task tags) 0) = exec.
Proof.
  unfold task_enqueue. apply enqueue_fold_noop. intros t _.
  unfold newly_enqueued. by rewrite any_tag_matches_zero_query, andb_false_r.
Qed.

(** X3.  A task that carries no tag is never queued by [task_enqueue],
    whatever the query. *)
Theorem task_enqueue_tagless (tags : TaskTags) (exec : ExecutionContext)
    (query : list Z) (task : nat) :
  wf_tags tags -> wf_exec tags exec ->
  length query = tag_ints_per_task tags ->
  (forall tag, task_has_tag tags task tag = false) ->
  vec_get (m_taskQueuedCounts (task_enqueue tags exec query)) task
  = vec_get (m_taskQueuedCounts exec) task.
Proof.
  intros Hwf Hexec Hlen Hnotag.
  destruct (enqueue_fold tags query (zeros (m_tasks tags)) exec Hwf Hexec
              (NoDup_zeros _)) as (_ & _ & Hq & _).
  { intros t Ht. by apply task_exists_lt. }
  fold (task_enqueue tags exec query) in Hq. rewrite Hq.
  destruct (decide (task ∈ zeros (m_tasks tags))) as [Hex|Hnex].
  - destruct (newly_enqueued tags exec query task) eqn:Hnew;
      [|by rewrite andb_false_r].
    apply (newly_enqueued_spec tags exec query task Hwf
             (task_exists_lt _ _ Hex) Hlen) in Hnew as [_ (tag & _ & Htag)].
    unfold task_has_tag in Hnotag. by rewrite Hnotag in Htag.
  - by rewrite bool_decide_eq_false_2.
Qed.

Lemma task_enqueue_tagless_witness :
  task_exists tags_tagless 1 /\
  vec_get (m_taskQueuedCounts (task_enqueue tags_tagless exec_zero [1])) 1
  = vec_get (m_taskQueuedCounts exec_zero) 1.
Proof.
  split; [apply elem_of_zeros; split; [vm_compute; lia|reflexivity]|].
  apply task_enqueue_tagless.
  - wf_tags_by_evaluation.
  - wf_exec_by_evaluation.
  - reflexivity.
  - intros tag. unfold task_has_tag.
    destruct (bit_test (task_tag_ints tags_tagless 1) tag) eqn:Hbit; [|done].
    apply elem_of_ones in Hbit. vm_compute in Hbit. by apply elem_of_nil in Hbit.
Defined.

(** ** More on the runs *)

(** X4.  In every run that starts a task only when it is returned
    available and not already started, and finishes only started tasks, a
    queued count is 0 or 1, only existing tasks are queued, and every
    started task is queued: re-enqueueing a pending task never raises its
    count. *)
Theorem reachable_queued_01 (tags : TaskTags) (exec : ExecutionContext)
    (started : list nat) :
  wf_tags tags -> reachable tags exec started ->
  (forall task,
     vec_get (m_taskQueuedCounts exec) task = 0 \/
     (vec_get (m_taskQueuedCounts exec) task = 1 /\ task_exists tags task)) /\
  (forall task, task ∈ started -> vec_get (m_taskQueuedCounts exec) task = 1).
Proof.
  intros Hwf Hreach.
  pose proof (queue_inv_reachable _ _ _ _ Hwf Hreach) as Hinv.
  split; [apply Hinv|apply Hinv].
Qed.

Lemma reachable_queued_01_witness :
  vec_get (m_taskQueuedCounts
             (task_enqueue tags_single (task_enqueue tags_single exec_zero [1]) [1])) 0 = 0
  \/ (vec_get (m_taskQueuedCounts
                 (task_enqueue tags_single (task_enqueue tags_single exec_zero [1]) [1])) 0 = 1
      /\ task_exists tags_single 0).
Proof.
  refine (proj1 (reachable_queued_01 tags_single _ [] _ _) 0%nat).
  - wf_tags_by_evaluation.
  - apply reach_enqueue; [|reflexivity]. apply reach_enqueue; [|reflexivity].
    apply reach_init; [wf_exec_by_evaluation|].
    repeat split; by apply Forall_replicate.
Defined.

(** X5.  On a description whose tag registry has no hole, a task that
    carries a tag together with one of the dependency tags declared for it
    blocks itself: in every run that starts a task only when it is
    returned available and not already started, and finishes only started
    tasks, the task is never returned by [task_list_available] while it is
    queued. *)
Theorem self_dependent_task_never_available (tags : TaskTags)
    (exec : ExecutionContext) (started : list nat) (T1 T2 task : nat) :
  wf_tags tags -> tags_dense tags -> reachable tags exec started ->
  task_exists tags task -> task_queued exec task = true ->
  tag_exists tags T1 ->
  task_has_tag tags task T1 = true -> task_has_tag tags task T2 = true ->
  Z.of_nat T2 ∈ tag_depends tags T1 ->
  is_available tags exec task = false.
Proof.
  intros Hwf Hdense Hreach Hex Hq HexT1 HT1 HT2 Hdep.
  pose proof (queue_inv_reachable _ _ _ _ Hwf Hreach) as Hinv.
  destruct (is_available tags exec task) eqn:Hav; [|done]. exfalso.
  apply is_available_spec in Hav as [_ [_ Hall]]; [|done|apply Hinv].
  rewrite <- tag_depends_cursor in Hdep by done.
  pose proof (Hall T1 HT1 (Z.of_nat T2) Hdep) as Hzero.
  rewrite Nat2Z.id, (qi_incomplete _ _ _ Hinv) in Hzero.
  pose proof (countZ_pos
                (fun t => task_queued exec t && task_has_tag tags t T2)
                (zeros (m_tasks tags)) task Hex) as Hpos.
  cbv beta in Hpos. rewrite Hq, HT2 in Hpos. specialize (Hpos eq_refl).
  unfold queued_with_tag in Hzero. lia.
Qed.

Lemma self_dependent_task_never_available_witness :
  task_queued (task_enqueue tags_selfdep exec_zero [1]) 0 = true /\
  is_available tags_selfdep (task_enqueue tags_selfdep exec_zero [1]) 0 = false.
Proof.
  split; [vm_compute; reflexivity|].
  apply (self_dependent_task_never_available tags_selfdep _ [] 1 0 0).
  - wf_tags_by_evaluation.
  - apply (tags_dense_seq tags_selfdep 2). vm_compute. reflexivity.
  - apply reach_enqueue; [|reflexivity].
    apply reach_init; [wf_exec_by_evaluation|].
    repeat split; by apply Forall_replicate.
  - apply elem_of_zeros. split; [vm_compute; lia|reflexivity].
  - vm_compute. reflexivity.
  - apply elem_of_zeros. split; [vm_compute; lia|reflexivity].
  - vm_compute. reflexivity.
  - vm_compute. reflexivity.
  - apply list_elem_of_In. vm_compute. by left.
Defined.

(** X6.  When no task is queued in a run that starts each task at most
    once, every incomplete count and every running count is zero: a
    drained scheduler is back in the all-zero state. *)
Theorem drained_counts_zero (tags : TaskTags) (exec : ExecutionContext)
    (started : list nat) :
  wf_tags tags -> reachable tags exec started ->
  (forall task, vec_get (m_taskQueuedCounts exec) task = 0) ->
  forall tag,
    vec_get (m_tagIncompleteCounts exec) tag = 0 /\
    vec_get (m_tagRunningCounts exec) tag = 0.
Proof.
  intros Hwf Hreach Hidle tag.
  pose proof (queue_inv_reachable _ _ _ _ Hwf Hreach) as Hinv.
  pose proof (running_inv_reachable _ _ _ Hwf Hreach) as [_ Hrun].
  split.
  - rewrite (qi_incomplete _ _ _ Hinv). unfold queued_with_tag.
    apply countZ_false. intros t _. unfold task_queued. by rewrite Hidle.
  - rewrite Hrun. apply countZ_false. intros t Ht.
    pose proof (qi_started _ _ _ Hinv t Ht) as H1. rewrite Hidle in H1. lia.
Qed.

Lemma drained_counts_zero_witness :
  vec_get (m_tagIncompleteCounts
             (task_finish tags_single
                (task_start tags_single
                   (task_enqueue tags_single exec_zero [1]) 0) 0)) 0 = 0 /\
  vec_get (m_tagRunningCounts
             (task_finish tags_single
                (task_start tags_single
                   (task_enqueue tags_single exec_zero [1]) 0) 0)) 0 = 0.
Proof.
  refine (drained_counts_zero tags_single _
            (List.filter (fun t => negb (t =? 0)%nat) [0%nat]) _ _ _ 0%nat).
  - wf_tags_by_evaluation.
  - apply reach_finish; [|apply elem_of_cons; by left].
    apply reach_start.
    + apply reach_enqueue; [|reflexivity].
      apply reach_init; [wf_exec_by_evaluation|].
      repeat split; by apply Forall_replicate.
    + vm_compute. reflexivity.
    + intros _ Hin. by apply elem_of_nil in Hin.
  - intros task.
    assert (m_taskQueuedCounts
              (task_finish tags_single
                 (task_start tags_single
                    (task_enqueue tags_single exec_zero [1]) 0) 0)
            = replicate 64 0) as -> by (vm_compute; reflexivity).
    rewrite vec_get_replicate. by case_decide.
Defined.

(** ** More on task_list_available *)

Lemma length_task_list_available (tags : TaskTags) (exec : ExecutionContext)
    (tasksOut : list Z) :
  length (task_list_available tags exec tasksOut) = length tasksOut.
Proof.
  unfold task_list_available. generalize (zeros (m_tasks tags)). intros l.
  revert tasksOut. induction l as [|x l IH]; intros tasksOut; simpl; [done|].
  rewrite IH. unfold available_step.
  destruct (_ =? 0); [done|]. destruct (compare_tags _ _); [|done].
  apply length_bit_set.
Qed.

(** X7.  [task_list_available] only adds to the output bitset: it keeps
    the size and every bit that was set, and a bit it sets belongs to an
    existing task with a non-zero queued count.  It never clears a bit, so
    a caller that reuses the bitset has to clear it first. *)
Theorem task_list_available_only_adds (tags : TaskTags) (exec : ExecutionContext)
    (tasksOut : list Z) :
  wf_tags tags -> wf_exec tags exec ->
  length (task_list_available tags exec tasksOut) = length tasksOut /\
  (forall i, bit_test tasksOut i = true ->
     bit_test (task_list_available tags exec tasksOut) i = true) /\
  (forall i, bit_test tasksOut i = false ->
     bit_test (task_list_available tags exec tasksOut) i = true ->
     task_exists tags i /\ 0 < vec_get (m_taskQueuedCounts exec) i).
Proof.
  intros Hwf Hexec. split; [apply length_task_list_available|]. split.
  - intros i Hi. apply task_list_available_bit; [done..|]. by left.
  - intros i Hclear Hset.
    apply task_list_available_bit in Hset as [Hset|(Hex & _ & Hq & _)];
      [congruence|done|done|done].
Qed.

Lemma task_list_available_only_adds_witness :
  bit_test (task_list_available tags_dep exec_zero [4]) 2 = true.
Proof.
  apply (task_list_available_only_adds tags_dep exec_zero [4]).
  - wf_tags_by_evaluation.
  - wf_exec_by_evaluation.
  - reflexivity.
Defined.

Lemma depends_satisfied_incomplete (exec exec' : ExecutionContext)
    (depends : list Z) :
  m_tagIncompleteCounts exec = m_tagIncompleteCounts exec' ->
  depends_satisfied exec depends = depends_satisfied exec' depends.
Proof.
  intros Heq. induction depends as [|d depends IH]; simpl; [done|].
  by rewrite Heq, IH.
Qed.

(** X8.  The running counts play no part in [task_list_available]: two
    contexts with the same incomplete and queued counts give the same
    result, so no per-tag limit on running tasks is enforced. *)
Theorem task_list_available_ignores_running (tags : TaskTags)
    (exec exec' : ExecutionContext) (tasksOut : list Z) :
  m_tagIncompleteCounts exec = m_tagIncompleteCounts exec' ->
  m_taskQueuedCounts exec = m_taskQueuedCounts exec' ->
  task_list_available tags exec tasksOut = task_list_available tags exec' tasksOut.
Proof.
  intros Hinc Hq. unfold task_list_available.
  assert (tag_mask tags exec = tag_mask tags exec') as ->.
  { unfold tag_mask. f_equal. apply foldl_ext_eq. intros [mask deps] tag.
    unfold mask_step. by rewrite (depends_satisfied_incomplete exec exec'). }
  apply foldl_ext_eq. intros out task. unfold available_step. by rewrite Hq.
Qed.

Lemma task_list_available_ignores_running_witness :
  task_list_available tags_dep exec_dep_enqueued [0]
  = task_list_available tags_dep (task_start tags_dep exec_dep_enqueued 0) [0].
Proof.
  apply task_list_available_ignores_running; reflexivity.
Defined.

(** ** task_start followed by task_finish *)

Lemma decr32_incr32 (x : Z) : is_u32 x -> decr32 (incr32 x) = x.
Proof.
  intros Hx. unfold decr32, incr32, wrap32.
  rewrite Zminus_mod_idemp_l. replace (x + 1 - 1) with x by lia.
  by apply Z.mod_small.
Qed.

(** X9.  Starting a task and then finishing it leaves every running count
    as it was before the start, also when a count wraps in between. *)
Theorem task_start_finish_running (tags : TaskTags) (exec : ExecutionContext)
    (task : nat) :
  wf_tags tags -> wf_exec tags exec -> task_exists tags task ->
  m_tagRunningCounts (task_finish tags (task_start tags exec task) task)
  = m_tagRunningCounts exec.
Proof.
  intros Hwf Hexec Hex. pose proof (task_exists_lt _ _ Hex) as Hlt.
  destruct (task_start_spec tags exec task Hwf Hexec Hlt)
    as (Hexec1 & _ & _ & Hrun1).
  destruct (task_finish_spec tags (task_start tags exec task) task Hwf Hexec1 Hlt)
    as (_ & _ & _ & Hrun2).
  apply vec_eq.
  - unfold task_finish. rewrite fold_finish_tag. simpl.
    by rewrite !length_fold_alter.
  - intros tag. rewrite Hrun2, Hrun1.
    destruct (task_has_tag tags task tag); [|done].
    apply decr32_incr32, vec_get_u32, Hexec.
Qed.

Lemma task_start_finish_running_witness :
  m_tagRunningCounts
    (task_finish tags_dep (task_start tags_dep exec_dep_enqueued 0) 0)
  = m_tagRunningCounts exec_dep_enqueued.
Proof.
  apply task_start_finish_running.
  - wf_tags_by_evaluation.
  - wf_exec_by_evaluation.
  - apply elem_of_zeros. split; [vm_compute; lia|reflexivity].
Defined.

(* ===================================================================== *)
(** * Part IV: further properties of the skeleton *)
(* ===================================================================== *)

(** ** Triangle ids *)

(** X10.  [tri_id] and the pair [tri_group_id], [tri_sibling_index] are
    inverse to each other: a group id below [2^30] and a sibling index
    below 4 are recovered from the triangle id, and every 32-bit triangle
    id is rebuilt from its group id and sibling index, which is below 4. *)
Theorem tri_id_round_trip (group sibling triangle : Z) :
  0 <= group < 2 ^ 30 -> 0 <= sibling < 4 -> is_u32 triangle ->
  tri_group_id (tri_id group sibling) = group /\
  tri_sibling_index (tri_id group sibling) = sibling /\
  tri_id (tri_group_id triangle) (tri_sibling_index triangle) = triangle /\
  0 <= tri_sibling_index triangle < 4.
Proof.
  unfold is_u32, tri_group_id, tri_sibling_index, tri_id, wrap32, wrap8.
  intros Hg Hs Ht.
  rewrite (Z.mod_small (group * 4 + sibling)) by lia.
  pose proof (Z.mod_pos_bound triangle 4 ltac:(lia)) as Hm.
  rewrite (Z.mod_small (triangle mod 4) (2 ^ 8)) by lia.
  pose proof (Z.div_mod triangle 4 ltac:(lia)) as Hdm.
  split; [|split; [|split]].
  - symmetry. apply (Z.div_unique _ 4 group sibling); lia.
  - rewrite Z.mod_small.
    + symmetry. apply (Z.mod_unique _ 4 group sibling); lia.
    + pose proof (Z.mod_pos_bound (group * 4 + sibling) 4 ltac:(lia)). lia.
  - rewrite Z.mod_small; lia.
  - lia.
Qed.

Lemma tri_id_round_trip_witness :
  tri_group_id (tri_id 5 3) = 5 /\ tri_sibling_index (tri_id 5 3) = 3 /\
  tri_id (tri_group_id 23) (tri_sibling_index 23) = 23 /\
  0 <= tri_sibling_index 23 < 4.
Proof. apply tri_id_round_trip; unfold is_u32; lia. Defined.

(** ** IdRegistry::create, continued *)

Lemma create_new_id (NO_AUTO_RESIZE : bool) (r r' : IdRegistry) (id : Z) :
  registry_inv r -> Z.of_nat (length (m_exists r)) < 2 ^ 32 - 2 ->
  create NO_AUTO_RESIZE r = Ok (r', id) ->
  ~ id_live r id /\ id_live r' id /\ id < size_required r' /\
  (forall other, 0 <= other -> other <> id ->
     m_exists r' !! Z.to_nat other = m_exists r !! Z.to_nat other) /\
  registry_inv r'.
Proof.
  intros [[Hdel Hsize] Hnd] Hbound. unfold create, size_required.
  destruct (m_deleted r) as [|d deleted'] eqn:Hd.
  - destruct (NO_AUTO_RESIZE && _); [done|].
    intros [= <- <-]. cbn [m_exists m_deleted].
    rewrite wrap32_small by (unfold is_u32; lia).
    rewrite length_app. cbn [length].
    rewrite wrap32_small by (unfold is_u32; lia).
    split; [|split; [|split; [|split]]].
    + intros [_ Hlive]. apply lookup_lt_Some in Hlive. lia.
    + split; [lia|]. rewrite Nat2Z.id. by apply list_lookup_middle.
    + lia.
    + intros other H0 Hne.
      destruct (decide (Z.to_nat other < length (m_exists r))%nat).
      * by rewrite lookup_app_l.
      * rewrite !lookup_ge_None_2; [done|lia|].
        rewrite length_app. simpl. lia.
    + split; [split|]; cbn [m_exists m_deleted].
      * intros x Hx. by apply elem_of_nil in Hx.
      * rewrite length_app. simpl. lia.
      * apply NoDup_nil_2.
  - intros [= <- <-]. cbn [m_exists m_deleted].
    apply NoDup_cons in Hnd as [Hnotin Hnd].
    destruct (Hdel d) as [Hd0 Hdead]; [apply elem_of_cons; by left|].
    pose proof (lookup_lt_Some _ _ _ Hdead) as Hdlt.
    rewrite length_insert. rewrite wrap32_small by (unfold is_u32; lia).
    split; [|split; [|split; [|split]]].
    + intros [_ Hlive]. congruence.
    + split; [done|]. by apply list_lookup_insert_eq.
    + lia.
    + intros other H0 Hne. apply list_lookup_insert_ne. lia.
    + split; [split|]; cbn [m_exists m_deleted].
      * intros x Hx. destruct (Hdel x) as [Hx0 Hxdead];
          [apply elem_of_cons; by right|].
        split; [done|]. rewrite list_lookup_insert_ne; [done|].
        intros Heq. apply Hnotin. replace d with x by lia. done.
      * by rewrite length_insert.
      * done.
Qed.

(** X11.  The id [create] returns is new: it was not live, it is live
    afterwards and below [size_required], the liveness of every other id
    is unchanged, and the registry stays well formed. *)
Theorem create_fresh (NO_AUTO_RESIZE : bool) (r r' : IdRegistry) (id : Z) :
  registry_inv r -> Z.of_nat (length (m_exists r)) < 2 ^ 32 - 2 ->
  create NO_AUTO_RESIZE r = Ok (r', id) ->
  ~ id_live r id /\ id_live r' id /\ id < size_required r' /\
  (forall other, 0 <= other -> other <> id ->
     m_exists r' !! Z.to_nat other = m_exists r !! Z.to_nat other) /\
  registry_inv r'.
Proof. apply create_new_id. Qed.

Lemma create_fresh_witness :
  create true registry_full_freed
  = Ok ({| m_exists := replicate 64 true; m_exists_capacity := 64;
           m_deleted := [] |}, 5) /\
  ~ id_live registry_full_freed 5 /\
  id_live {| m_exists := replicate 64 true; m_exists_capacity := 64;
             m_deleted := [] |} 5.
Proof.
  split; [reflexivity|].
  assert (registry_inv registry_full_freed) as Hinv.
  { split; [split|].
    - intros id Hid. apply list_elem_of_In in Hid. simpl in Hid.
      destruct Hid as [<-|[]]. split; [lia|reflexivity].
    - vm_compute. reflexivity.
    - apply NoDup_singleton. }
  destruct (create_fresh true registry_full_freed
              {| m_exists := replicate 64 true; m_exists_capacity := 64;
                 m_deleted := [] |} 5 Hinv) as (H1 & H2 & _).
  - vm_compute. reflexivity.
  - reflexivity.
  - split; [exact H1|exact H2].
Defined.

Lemma create_n_fill (c k n : nat) :
  (k + n <= c)%nat -> Z.of_nat c < 2 ^ 32 ->
  create_n true n
    {| m_exists := replicate k true; m_exists_capacity := c; m_deleted := [] |}
  = Ok ({| m_exists := replicate (k + n) true; m_exists_capacity := c;
           m_deleted := [] |},
        List.map Z.of_nat (seq k n)).
Proof.
  revert k. induction n as [|n IH]; intros k Hle Hc.
  - simpl. by rewrite Nat.add_0_r.
  - cbn [create_n]. unfold create at 1. cbn [m_deleted m_exists m_exists_capacity].
    rewrite length_replicate.
    destruct (Nat.eqb_spec k c) as [->|Hne]; [lia|]. cbn [andb].
    cbn [mbind Result_bind].
    replace (replicate k true ++ [true]) with (replicate (S k) true)
      by (by rewrite replicate_S_end).
    rewrite IH by lia. cbn [mbind Result_bind].
    rewrite wrap32_small by (unfold is_u32; lia).
    replace (S k + n)%nat with (k + S n)%nat by lia. done.
Qed.

(** X12.  A registry with [NO_AUTO_RESIZE] set, capacity [c] and nothing
    created hands out the ids [0, 1, ..., c - 1] in this order and never
    grows; the call after them fails with [CapacityExceeded]. *)
Theorem create_n_no_auto_resize (c n : nat) :
  (n <= c)%nat -> Z.of_nat c < 2 ^ 32 ->
  create_n true n (empty_registry c)
  = Ok ({| m_exists := replicate n true; m_exists_capacity := c; m_deleted := [] |},
        List.map Z.of_nat (seq 0 n)) /\
  create_n true (S c) (empty_registry c) = Throw CapacityExceeded.
Proof.
  intros Hle Hc. split.
  - apply (create_n_fill c 0 n); [lia|done].
  - replace (S c) with (c + 1)%nat by lia.
    assert (forall a b r,
              create_n true (a + b) r
              = '(r1, ids1) ← create_n true a r;
                '(r2, ids2) ← create_n true b r1;
                Ok (r2, ids1 ++ ids2)) as Hsplit.
    { induction a as [|a IH]; intros b r.
      - simpl. destruct (create_n true b r) as [[r2 ids2]|e]; done.
      - cbn [Nat.add create_n].
        destruct (create true r) as [[r1 id]|e]; [|done].
        cbn [mbind Result_bind]. rewrite IH.
        destruct (create_n true a r1) as [[r2 ids1]|e]; [|done].
        cbn [mbind Result_bind].
        destruct (create_n true b r2) as [[r3 ids2]|e]; done. }
    rewrite Hsplit.
    unfold empty_registry.
    pose proof (create_n_fill c 0 c ltac:(lia) Hc) as Hfill.
    change (replicate 0 true) with (@nil bool) in Hfill. rewrite Hfill.
    cbn [mbind Result_bind create_n Nat.add]. unfold create.
    cbn [m_deleted m_exists m_exists_capacity].
    by rewrite length_replicate, Nat.eqb_refl.
Qed.

Lemma create_n_no_auto_resize_witness :
  create_n true 3 (empty_registry 3)
  = Ok ({| m_exists := [true; true; true]; m_exists_capacity := 3; m_deleted := [] |},
        [0; 1; 2]) /\
  create_n true 4 (empty_registry 3) = Throw CapacityExceeded.
Proof.
  apply (create_n_no_auto_resize 3 3); [lia|reflexivity].
Defined.

(** ** Histories of a SubdivIdTree, continued *)

Lemma tree_inv_empty : tree_inv empty_tree.
Proof.
  split; [done|]. intros key id Hlook.
  unfold empty_tree in Hlook. cbn [m_parentsToId] in Hlook.
  by rewrite lookup_empty in Hlook.
Qed.

Lemma count_created_cons (r : Z * bool) (res : list (Z * bool)) :
  count_created (r :: res) = ((if r.2 then 1 else 0) + count_created res)%nat.
Proof. unfold count_created. simpl. by destruct r as [id []]. Qed.

(** One call keeps [tree_inv]; a call that creates an id returns the
    number of ids allocated so far. *)
Lemma run_op_inv (t t' : SubdivIdTree) (op : TreeOp) (r : Z * bool) :
  tree_inv t ->
  Z.of_nat (length (m_exists (m_registry t))) < 2 ^ 32 - 1 ->
  run_op t op = Ok (t', r) ->
  tree_inv t' /\
  length (m_exists (m_registry t'))
    = (length (m_exists (m_registry t)) + (if r.2 then 1 else 0))%nat /\
  (r.2 = true -> r.1 = Z.of_nat (length (m_exists (m_registry t)))).
Proof.
  destruct t as [[ex cap del] map par cc]. intros [Hdel Hback] Hbound.
  cbn [m_registry m_exists m_deleted m_parentsToId m_idToParents] in *. subst del.
  assert (wrap32 (Z.of_nat (length ex)) = Z.of_nat (length ex)) as Hw
    by (apply wrap32_small; unfold is_u32; lia).
  destruct op as [|a b].
  - unfold run_op, create_root, create, size_required. simpl.
    intros [= <- <-]. simpl. rewrite Hw.
    split; [|split; [rewrite length_app; simpl; lia|done]].
    split; [done|]. simpl. intros key id Hlook.
    destruct (Hback key id Hlook) as [Hid Hpar]. split; [|done].
    rewrite length_app. simpl. lia.
  - unfold run_op, create_or_get. simpl.
    destruct (map !! hash_id_combination a b) as [id|] eqn:Hlook.
    + intros [= <- <-]. simpl. split; [by split|]. split; [lia|done].
    + unfold create_root, create, size_required. simpl. rewrite Hw.
      intros [= <- <-]. simpl.
      split; [|split; [rewrite length_app; simpl; lia|done]].
      split; [done|]. simpl. rewrite length_app. simpl.
      rewrite wrap32_small by (unfold is_u32; lia).
      intros key id Hkey. rewrite insert_insert_eq in Hkey.
      destruct (decide (key = hash_id_combination a b)) as [->|Hne].
      * rewrite lookup_insert_eq in Hkey. injection Hkey as <-.
        split; [lia|]. rewrite Nat2Z.id, vec_get_insert, length_resize.
        rewrite decide_True; [done|]. split; [done|lia].
      * rewrite lookup_insert_ne in Hkey by done.
        destruct (Hback key id Hkey) as [Hid Hpar]. split; [lia|].
        rewrite vec_get_insert, vec_get_resize, length_resize.
        rewrite decide_False by lia. rewrite decide_True by lia. done.
Qed.

Lemma run_ops_inv (ops : list TreeOp) (t t' : SubdivIdTree)
    (res : list (Z * bool)) :
  tree_inv t ->
  Z.of_nat (length (m_exists (m_registry t))) + Z.of_nat (length ops) < 2 ^ 32 - 1 ->
  run_ops t ops = Ok (t', res) ->
  tree_inv t' /\
  length (m_exists (m_registry t'))
    = (length (m_exists (m_registry t)) + count_created res)%nat /\
  (forall i r, res !! i = Some r -> r.2 = true ->
     r.1 = Z.of_nat (length (m_exists (m_registry t)) + count_created (take i res))).
Proof.
  revert t res. induction ops as [|op ops IH]; intros t res Hinv Hbound.
  - simpl. intros [= <- <-]. split; [done|]. split; [unfold count_created; simpl; lia|].
    intros i r Hr. by rewrite lookup_nil in Hr.
  - cbn [run_ops]. cbn [length] in Hbound.
    destruct (run_op t op) as [[t1 r1]|e] eqn:Hop; [|done].
    cbn [mbind Result_bind].
    destruct (run_ops t1 ops) as [[t2 rs]|e] eqn:Hops; [|done].
    cbn [mbind Result_bind]. intros [= <- <-].
    destruct (run_op_inv t t1 op r1 Hinv ltac:(lia) Hop) as (Hinv1 & Hlen1 & Hid1).
    destruct (IH t1 rs Hinv1) as (Hinv2 & Hlen2 & Hids); [destruct (r1.2); lia|done|].
    split; [done|]. rewrite count_created_cons. split; [lia|].
    intros [|i] r Hr Hfresh; simpl in Hr.
    + injection Hr as <-. rewrite take_0. unfold count_created. simpl.
      rewrite (Hid1 Hfresh). f_equal. lia.
    + cbn [take]. rewrite count_created_cons, (Hids i r Hr Hfresh).
      f_equal. lia.
Qed.

(** X13.  Ids are handed out densely in creation order: in a history of
    calls on the empty tree, every call that creates an id (a root, or the
    first [create_or_get] of a pair) returns the number of ids created
    before it, and [size_required] is the number of ids created. *)
Theorem tree_ids_dense (ops : list TreeOp) (t : SubdivIdTree)
    (res : list (Z * bool)) :
  Z.of_nat (length ops) < 2 ^ 32 - 1 ->
  run_ops empty_tree ops = Ok (t, res) ->
  (forall i id fresh, res !! i = Some (id, fresh) -> fresh = true ->
     id = Z.of_nat (count_created (take i res))) /\
  size_required (m_registry t) = Z.of_nat (count_created res).
Proof.
  intros Hbound Hrun.
  destruct (run_ops_inv ops empty_tree t res tree_inv_empty) as (_ & Hlen & Hids);
    [simpl; lia|done|].
  simpl in Hlen, Hids. split.
  - intros i id fresh Hr Hfresh. apply (Hids i (id, fresh) Hr Hfresh).
  - unfold size_required. rewrite Hlen. apply wrap32_small.
    destruct (run_ops_spec ops empty_tree) as (t1 & res1 & Hrun1 & Hlen1 & _).
    rewrite Hrun in Hrun1. injection Hrun1 as <- <-.
    pose proof (List.filter_length_le snd res). unfold count_created, is_u32. lia.
Qed.

Lemma tree_ids_dense_witness :
  2 = Z.of_nat (count_created
                  (take 2 [(0, true); (1, true); (2, true); (2, false)])).
Proof.
  destruct create_or_get_scenario as [t Hrun].
  refine (proj1 (tree_ids_dense _ t _ _ Hrun) 2%nat 2 true _ _);
    [simpl; lia|reflexivity|reflexivity].
Defined.

(** X14.  Different unordered pairs never share a child: in a history of
    calls on the empty tree, two [create_or_get] calls that return the same
    id name the same unordered pair. *)
Theorem tree_children_distinct (ops : list TreeOp) (t : SubdivIdTree)
    (res : list (Z * bool)) (i j : nat) (a b a' b' id : Z) (fresh fresh' : bool) :
  Forall op_u32 ops -> Z.of_nat (length ops) < 2 ^ 32 - 1 ->
  run_ops empty_tree ops = Ok (t, res) ->
  ops !! i = Some (OpCreateOrGet a b) -> res !! i = Some (id, fresh) ->
  ops !! j = Some (OpCreateOrGet a' b') -> res !! j = Some (id, fresh') ->
  same_pair a b a' b'.
Proof.
  intros Hu32 Hbound Hrun Hop Hr Hop' Hr'.
  destruct (run_ops_inv ops empty_tree t res tree_inv_empty) as ([_ Hback] & _);
    [simpl; lia|done|].
  destruct (run_ops_spec ops empty_tree) as (t1 & res1 & Hrun1 & _ & _ & Hres).
  rewrite Hrun in Hrun1. injection Hrun1 as <- <-.
  destruct (Hres i a b _ Hop Hr) as [Hmap _].
  destruct (Hres j a' b' _ Hop' Hr') as [Hmap' _]. simpl in Hmap, Hmap'.
  destruct (Hback _ _ Hmap) as [_ Hkey]. destruct (Hback _ _ Hmap') as [_ Hkey'].
  pose proof (Forall_lookup_1 _ _ _ _ Hu32 Hop) as [Ha Hb].
  pose proof (Forall_lookup_1 _ _ _ _ Hu32 Hop') as [Ha' Hb'].
  apply hash_id_combination_inj; [done..|]. congruence.
Qed.

Lemma tree_children_distinct_witness : same_pair 0 1 1 0.
Proof.
  destruct create_or_get_scenario as [t Hrun].
  refine (tree_children_distinct _ t _ 2 3 0 1 1 0 2 true false _ _ Hrun _ _ _ _);
    try reflexivity.
  repeat constructor; unfold is_u32; lia.
Defined.

(** X15.  [create_or_get] records the parents of the child: after a
    history of calls on the empty tree, the entry of [m_idToParents] at the
    id returned for [(a, b)] is the combination of [a] and [b], and the id
    is below [size_required]. *)
Theorem tree_parents_recorded (ops : list TreeOp) (t : SubdivIdTree)
    (res : list (Z * bool)) (i : nat) (a b id : Z) (fresh : bool) :
  Z.of_nat (length ops) < 2 ^ 32 - 1 ->
  run_ops empty_tree ops = Ok (t, res) ->
  ops !! i = Some (OpCreateOrGet a b) -> res !! i = Some (id, fresh) ->
  0 <= id < size_required (m_registry t) /\
  vec_get (m_idToParents t) (Z.to_nat id) = hash_id_combination a b.
Proof.
  intros Hbound Hrun Hop Hr.
  destruct (run_ops_inv ops empty_tree t res tree_inv_empty)
    as ([_ Hback] & Hlen & _); [simpl; lia|done|].
  destruct (run_ops_spec ops empty_tree) as (t1 & res1 & Hrun1 & Hlen1 & _ & Hres).
  rewrite Hrun in Hrun1. injection Hrun1 as <- <-.
  destruct (Hres i a b _ Hop Hr) as [Hmap _]. simpl in Hmap.
  destruct (Hback _ _ Hmap) as [Hid Hkey]. split; [|done].
  unfold size_required. rewrite wrap32_small; [done|].
  simpl in Hlen. rewrite Hlen.
  pose proof (List.filter_length_le snd res). unfold count_created, is_u32. lia.
Qed.

Lemma tree_parents_recorded_witness :
  exists t,
    run_ops empty_tree
      [OpCreateRoot; OpCreateRoot; OpCreateOrGet 0 1; OpCreateOrGet 1 0]
    = Ok (t, [(0, true); (1, true); (2, true); (2, false)]) /\
    vec_get (m_idToParents t) 2 = hash_id_combination 1 0.
Proof.
  destruct create_or_get_scenario as [t Hrun]. exists t. split; [exact Hrun|].
  refine (proj2 (tree_parents_recorded _ t _ 3 1 0 2 false _ Hrun _ _));
    reflexivity.
Defined.

(** ** SubdivSkeleton *)

Lemma vrtx_create_or_get_child_existing (s : SubdivSkeleton) (a b m : Z) :
  midpoint s a b = Some m -> vrtx_create_or_get_child s a b = Ok (s, m).
Proof.
  unfold midpoint, vrtx_create_or_get_child, create_or_get. intros ->.
  simpl. by destruct s.
Qed.

Lemma midpoint_comm (s : SubdivSkeleton) (a b : Z) :
  midpoint s a b = midpoint s b a.
Proof. unfold midpoint. by rewrite hash_id_combination_comm. Qed.

(** X16.  Once [vrtx_create_or_get_child] has returned the child of a
    pair, asking again for the pair, in either order, returns the same
    vertex and leaves the skeleton exactly as it is. *)
Theorem vrtx_create_or_get_child_again (s s1 : SubdivSkeleton) (a b m : Z) :
  vrtx_create_or_get_child s a b = Ok (s1, m) ->
  vrtx_create_or_get_child s1 a b = Ok (s1, m) /\
  vrtx_create_or_get_child s1 b a = Ok (s1, m).
Proof.
  intros Hrun.
  destruct (vrtx_create_or_get_child_spec s a b) as (s1' & m' & Hrun' & Hmid & _).
  rewrite Hrun in Hrun'. injection Hrun' as <- <-. split.
  - by apply vrtx_create_or_get_child_existing.
  - apply vrtx_create_or_get_child_existing. by rewrite midpoint_comm.
Qed.

Lemma vrtx_create_or_get_child_again_witness :
  exists s1,
    vrtx_create_or_get_child
      {| m_vrtxIdTree := tree_two_roots; m_vrtxRefCount := [0; 0];
         m_maybeDelete := [] |} 0 1 = Ok (s1, 2) /\
    vrtx_create_or_get_child s1 1 0 = Ok (s1, 2).
Proof.
  destruct (vrtx_create_or_get_child_spec
              {| m_vrtxIdTree := tree_two_roots; m_vrtxRefCount := [0; 0];
                 m_maybeDelete := [] |} 0 1) as (s1 & m & Hrun & _).
  assert (m = 2) as -> by (vm_compute in Hrun; by injection Hrun as _ <-).
  exists s1. split; [exact Hrun|].
  exact (proj2 (vrtx_create_or_get_child_again _ _ _ _ _ Hrun)).
Defined.

(** X17.  When the pair has no child yet, [vrtx_create_or_get_child]
    returns a vertex that was not live, so it differs from every live
    vertex and from both parents; the new vertex is live, its reference
    count and child count are 0, and the live vertices keep their liveness
    and their reference counts. *)
Theorem vrtx_create_or_get_child_new (s : SubdivSkeleton) (a b : Z) :
  wf_registry (m_registry (m_vrtxIdTree s)) ->
  id_live (m_registry (m_vrtxIdTree s)) a ->
  id_live (m_registry (m_vrtxIdTree s)) b ->
  midpoint s a b = None ->
  exists s1 m,
    vrtx_create_or_get_child s a b = Ok (s1, m) /\
    ~ id_live (m_registry (m_vrtxIdTree s)) m /\
    id_live (m_registry (m_vrtxIdTree s1)) m /\
    vec_get (m_vrtxRefCount s1) (Z.to_nat m) = 0 /\
    vec_get (m_idChildCount (m_vrtxIdTree s1)) (Z.to_nat m) = 0 /\
    (forall v, id_live (m_registry (m_vrtxIdTree s)) v ->
       id_live (m_registry (m_vrtxIdTree s1)) v /\
       vec_get (m_vrtxRefCount s1) (Z.to_nat v) = vec_get (m_vrtxRefCount s) (Z.to_nat v)).
Proof.
  destruct s as [[[ex cap del] map par cc] rc md].
  unfold midpoint, id_live.
  cbn [m_vrtxIdTree m_registry m_exists m_parentsToId m_vrtxRefCount].
  intros [Hdel Hsize] Ha Hb Hnone.
  cbn [m_exists m_deleted] in Hdel, Hsize.
  assert (forall v, 0 <= v /\ ex !! Z.to_nat v = Some true ->
            (Z.to_nat v < length ex)%nat) as Hlt
    by (intros v [_ Hv]; by apply lookup_lt_Some in Hv).
  pose proof (Hlt a Ha) as Hal. pose proof (Hlt b Hb) as Hbl.
  unfold vrtx_create_or_get_child, create_or_get.
  cbn [m_vrtxIdTree m_registry m_parentsToId]. rewrite Hnone.
  unfold create_root, create, size_required.
  cbn [m_registry m_deleted m_exists m_exists_capacity m_idChildCount].
  destruct del as [|d del'].
  - simpl. rewrite length_app. simpl.
    rewrite !wrap32_small by (unfold is_u32; lia).
    eexists _, _. split; [done|]. simpl.
    rewrite !Nat2Z.id.
    split; [|split; [|split; [|split; [|]]]].
    + intros [_ Hlive]. apply lookup_lt_Some in Hlive. lia.
    + split; [lia|]. by apply list_lookup_middle.
    + rewrite vec_get_insert, length_resize. rewrite decide_True; [done|].
      split; [done|lia].
    + rewrite !vec_get_alter, !length_alter, length_insert, length_resize.
      rewrite !decide_False by lia.
      rewrite vec_get_insert, length_resize. rewrite decide_True; [done|].
      split; [done|lia].
    + intros v Hv. pose proof (Hlt v Hv) as Hvl. destruct Hv as [Hv0 Hv].
      split; [split; [done|by rewrite lookup_app_l]|].
      rewrite vec_get_insert, vec_get_resize, length_resize.
      rewrite decide_False by lia. by rewrite decide_True by lia.
  - destruct (Hdel d) as [Hd0 Hdead]; [apply elem_of_cons; by left|].
    pose proof (lookup_lt_Some _ _ _ Hdead) as Hdl.
    assert (forall v, 0 <= v /\ ex !! Z.to_nat v = Some true ->
              Z.to_nat v <> Z.to_nat d) as Hned
      by (intros v [_ Hv] Heq; congruence).
    simpl. rewrite length_insert.
    rewrite !wrap32_small by (unfold is_u32; lia).
    eexists _, _. split; [done|]. simpl.
    split; [|split; [|split; [|split; [|]]]].
    + intros [_ Hlive]. congruence.
    + split; [done|]. by apply list_lookup_insert_eq.
    + rewrite vec_get_insert, length_resize. rewrite decide_True; [done|].
      split; [done|lia].
    + rewrite !vec_get_alter, !length_alter, length_insert, length_resize.
      rewrite decide_False by (intros [Heq _]; by apply (Hned b)).
      rewrite decide_False by (intros [Heq _]; by apply (Hned a)).
      rewrite vec_get_insert, length_resize. rewrite decide_True; [done|].
      split; [done|lia].
    + intros v Hv. pose proof (Hlt v Hv) as Hvl. pose proof (Hned v Hv) as Hvd.
      destruct Hv as [Hv0 Hv].
      split; [split; [done|by rewrite list_lookup_insert_ne]|].
      rewrite vec_get_insert, vec_get_resize, length_resize.
      rewrite decide_False by (intros [Heq _]; congruence).
      by rewrite decide_True by lia.
Qed.

Lemma vrtx_create_or_get_child_new_witness :
  exists s1,
    vrtx_create_or_get_child
      {| m_vrtxIdTree := tree_two_roots; m_vrtxRefCount := [0; 0];
         m_maybeDelete := [] |} 0 1 = Ok (s1, 2) /\
    vec_get (m_vrtxRefCount s1) 2 = 0.
Proof.
  destruct (vrtx_create_or_get_child_new
              {| m_vrtxIdTree := tree_two_roots; m_vrtxRefCount := [0; 0];
                 m_maybeDelete := [] |} 0 1)
    as (s1 & m & Hrun & _ & _ & Hrc & _).
  - split; [|vm_compute; reflexivity].
    intros id Hid. by apply elem_of_nil in Hid.
  - split; [lia|reflexivity].
  - split; [lia|reflexivity].
  - reflexivity.
  - assert (m = 2) as -> by (vm_compute in Hrun; by injection Hrun as _ <-).
    exists s1. split; [exact Hrun|exact Hrc].
Defined.

Lemma decr8_incr8 (x : Z) : is_u8 x -> decr8 (incr8 x) = x.
Proof.
  intros Hx. unfold decr8, incr8, wrap8.
  rewrite Zminus_mod_idemp_l. replace (x + 1 - 1) with x by lia.
  by apply Z.mod_small.
Qed.

Lemma incr8_decr8 (x : Z) : is_u8 x -> incr8 (decr8 x) = x.
Proof.
  intros Hx. unfold decr8, incr8, wrap8.
  rewrite Zplus_mod_idemp_l. replace (x - 1 + 1) with x by lia.
  by apply Z.mod_small.
Qed.

Lemma alter_alter_cancel (f g : Z -> Z) (v : list Z) (i : nat) :
  (forall x, v !! i = Some x -> g (f x) = x) ->
  alter g i (alter f i v) = v.
Proof.
  intros Hgf. apply list_eq. intros j.
  destruct (decide (i = j)) as [<-|Hne].
  - rewrite !list_lookup_alter_eq. destruct (v !! i) as [x|] eqn:Hx; [|done].
    simpl. by rewrite Hgf.
  - by rewrite !list_lookup_alter_ne.
Qed.

(** X18.  On reference counts that are [uint8_t] values,
    [vrtx_refcount_remove] undoes [vrtx_refcount_add] and the other way
    round, also across the wrap between 255 and 0: the skeleton is back as
    it was. *)
Theorem vrtx_refcount_add_remove (s : SubdivSkeleton) (id : Z) :
  Forall is_u8 (m_vrtxRefCount s) ->
  vrtx_refcount_remove (vrtx_refcount_add s id) id = s /\
  vrtx_refcount_add (vrtx_refcount_remove s id) id = s.
Proof.
  intros Hu8. destruct s as [tree rc md].
  unfold vrtx_refcount_remove, vrtx_refcount_add. simpl in *.
  split; f_equal; apply alter_alter_cancel; intros x Hx.
  - apply decr8_incr8. by eapply (Forall_lookup_1 is_u8).
  - apply incr8_decr8. by eapply (Forall_lookup_1 is_u8).
Qed.

Lemma vrtx_refcount_add_remove_witness :
  vrtx_refcount_remove
    (vrtx_refcount_add
       {| m_vrtxIdTree := tree_two_roots; m_vrtxRefCount := [255; 0];
          m_maybeDelete := [] |} 0) 0
  = {| m_vrtxIdTree := tree_two_roots; m_vrtxRefCount := [255; 0];
       m_maybeDelete := [] |}.
Proof.
  apply (vrtx_refcount_add_remove
           {| m_vrtxIdTree := tree_two_roots; m_vrtxRefCount := [255; 0];
              m_maybeDelete := [] |} 0).
  repeat constructor; unfold is_u8; lia.
Defined.

(** ** vrtx_create_middles *)

(** X19.  [vrtx_create_middles] returns the children of the edges
    [(v0, v1)], [(v1, v2)] and [(v2, v0)], in this order, and keeps every
    child recorded before.  Asking again changes nothing and returns the
    same vertices; for the rotated and for the mirrored triangle it returns
    the same three vertices, rotated and mirrored. *)
Theorem vrtx_create_middles_midpoints (s : SubdivSkeleton) (v0 v1 v2 : Z) :
  exists s' m01 m12 m20,
    vrtx_create_middles s (v0, v1, v2) = Ok (s', (m01, m12, m20)) /\
    midpoint s' v0 v1 = Some m01 /\
    midpoint s' v1 v2 = Some m12 /\
    midpoint s' v2 v0 = Some m20 /\
    midpoints_kept s s' /\
    vrtx_create_middles s' (v0, v1, v2) = Ok (s', (m01, m12, m20)) /\
    vrtx_create_middles s' (v1, v2, v0) = Ok (s', (m12, m20, m01)) /\
    vrtx_create_middles s' (v0, v2, v1) = Ok (s', (m20, m12, m01)).
Proof.
  unfold vrtx_create_middles at 1.
  destruct (vrtx_create_or_get_child_spec s v0 v1) as (s1 & m01 & -> & H01 & K1).
  cbn [mbind Result_bind].
  destruct (vrtx_create_or_get_child_spec s1 v1 v2) as (s2 & m12 & -> & H12 & K2).
  cbn [mbind Result_bind].
  destruct (vrtx_create_or_get_child_spec s2 v2 v0) as (s3 & m20 & -> & H20 & K3).
  cbn [mbind Result_bind].
  assert (midpoint s3 v0 v1 = Some m01) as H01' by (by apply K3, K2).
  assert (midpoint s3 v1 v2 = Some m12) as H12' by (by apply K3).
  exists s3, m01, m12, m20. split; [done|].
  split; [done|]. split; [done|]. split; [done|].
  split; [eauto using midpoints_kept_trans|].
  unfold vrtx_create_middles.
  split; [|split].
  - rewrite (vrtx_create_or_get_child_existing s3 v0 v1 m01) by done.
    cbn [mbind Result_bind].
    rewrite (vrtx_create_or_get_child_existing s3 v1 v2 m12) by done.
    cbn [mbind Result_bind].
    by rewrite (vrtx_create_or_get_child_existing s3 v2 v0 m20).
  - rewrite (vrtx_create_or_get_child_existing s3 v1 v2 m12) by done.
    cbn [mbind Result_bind].
    rewrite (vrtx_create_or_get_child_existing s3 v2 v0 m20) by done.
    cbn [mbind Result_bind].
    by rewrite (vrtx_create_or_get_child_existing s3 v0 v1 m01).
  - rewrite (vrtx_create_or_get_child_existing s3 v0 v2 m20)
      by (by rewrite midpoint_comm).
    cbn [mbind Result_bind].
    rewrite (vrtx_create_or_get_child_existing s3 v2 v1 m12)
      by (by rewrite midpoint_comm).
    cbn [mbind Result_bind].
    by rewrite (vrtx_create_or_get_child_existing s3 v1 v0 m01)
      by (by rewrite midpoint_comm).
Qed.

(** ** The chunk edge recursion, continued *)

Lemma edge_recurse_existing_state (sem : SuffixMeaning) (level : nat) (a b : Z)
    (out rOut : list Z) (s : SubdivSkeleton) :
  edge_sequence s level a b out ->
  result_state (vrtx_create_chunk_edge_recurse sem level a b rOut s) = Some s.
Proof.
  revert a b out rOut.
  induction level as [|level IH]; intros a b out rOut; [done|].
  intros (mid & outL & outR & -> & _ & Hmid & HL & HR).
  cbn [vrtx_create_chunk_edge_recurse].
  rewrite (vrtx_create_or_get_child_existing s a b mid Hmid).
  cbn [mbind Result_bind].
  match goal with
  | |- context [vrtx_create_chunk_edge_recurse sem level a mid ?v s] =>
      pose proof (IH a mid outL v HL) as HstL;
      destruct (edge_recurse_Ok sem level a mid v s) as (s2 & oL & HrunL)
  end.
  rewrite HrunL in HstL |- *. simpl in HstL. injection HstL as ->.
  cbn [mbind Result_bind].
  match goal with
  | |- context [vrtx_create_chunk_edge_recurse sem level mid b ?v s] =>
      pose proof (IH mid b outR v HR) as HstR;
      destruct (edge_recurse_Ok sem level mid b v s) as (s3 & oR & HrunR)
  end.
  rewrite HrunR in HstR |- *. simpl in HstR. injection HstR as ->.
  done.
Qed.

Lemma edge_recurse_existing (sem : SuffixMeaning) (level : nat) (a b : Z)
    (out rOut : list Z) (s : SubdivSkeleton) :
  edge_sequence s level a b out -> length rOut = (2 ^ level - 1)%nat ->
  vrtx_create_chunk_edge_recurse sem level a b rOut s = Ok (s, out).
Proof.
  intros Hseq Hlen.
  destruct (edge_recurse_view sem level a b [] rOut s)
    as (s' & out' & Hrun & _ & Hseq'); [simpl; lia|done|].
  simpl in Hrun.
  pose proof (edge_recurse_existing_state sem level a b out rOut s Hseq) as Hst.
  rewrite Hrun in Hst. simpl in Hst. injection Hst as ->.
  by rewrite Hrun, (edge_sequence_functional _ _ _ _ _ _ Hseq Hseq').
Qed.

Lemma edge_recurse_sequence (sem : SuffixMeaning) (level : nat) (a b : Z)
    (rOut out : list Z) (s s1 : SubdivSkeleton) :
  length rOut = (2 ^ level - 1)%nat ->
  vrtx_create_chunk_edge_recurse sem level a b rOut s = Ok (s1, out) ->
  edge_sequence s1 level a b out.
Proof.
  intros Hlen Hrun.
  destruct (edge_recurse_view sem level a b [] rOut s)
    as (s' & out' & Hrun' & _ & Hseq); [simpl; lia|done|].
  simpl in Hrun'. rewrite Hrun in Hrun'. by injection Hrun' as <- <-.
Qed.

Lemma edge_sequence_reverse (s : SubdivSkeleton) (level : nat) (a b : Z)
    (out : list Z) :
  edge_sequence s level a b out -> edge_sequence s level b a (reverse out).
Proof.
  revert a b out. induction level as [|level IH]; intros a b out; simpl.
  - by intros ->.
  - intros (mid & outL & outR & -> & Hlen & Hmid & HL & HR).
    exists mid, (reverse outR), (reverse outL).
    split; [by rewrite reverse_app, reverse_cons, <- app_assoc|].
    split; [by rewrite !length_reverse|].
    split; [by rewrite midpoint_comm|]. split; by apply IH.
Qed.

(** X20.  Running the edge recursion a second time on the same edge
    creates nothing: the skeleton is unchanged and the same vertices are
    written, whatever the output view held. *)
Theorem vrtx_create_chunk_edge_recurse_again (sem : SuffixMeaning) (level : nat)
    (a b : Z) (rOut rOut' out : list Z) (s s1 : SubdivSkeleton) :
  length rOut = (2 ^ level - 1)%nat -> length rOut' = (2 ^ level - 1)%nat ->
  vrtx_create_chunk_edge_recurse sem level a b rOut s = Ok (s1, out) ->
  vrtx_create_chunk_edge_recurse sem level a b rOut' s1 = Ok (s1, out).
Proof.
  intros Hlen Hlen' Hrun.
  apply edge_recurse_existing; [|done].
  exact (edge_recurse_sequence sem level a b rOut out s s1 Hlen Hrun).
Qed.

(** X21.  An edge walked in the opposite direction gives the same
    vertices in reverse order and creates nothing: after the recursion on
    [(a, b)], the recursion on [(b, a)] leaves the skeleton unchanged and
    writes the reversed sequence, so two triangles that share an edge get
    the same edge vertices. *)
Theorem vrtx_create_chunk_edge_recurse_reverse (sem : SuffixMeaning) (level : nat)
    (a b : Z) (rOut rOut' out : list Z) (s s1 : SubdivSkeleton) :
  length rOut = (2 ^ level - 1)%nat -> length rOut' = (2 ^ level - 1)%nat ->
  vrtx_create_chunk_edge_recurse sem level a b rOut s = Ok (s1, out) ->
  vrtx_create_chunk_edge_recurse sem level b a rOut' s1 = Ok (s1, reverse out).
Proof.
  intros Hlen Hlen' Hrun.
  apply edge_recurse_existing; [|done].
  apply edge_sequence_reverse.
  exact (edge_recurse_sequence sem level a b rOut out s s1 Hlen Hrun).
Qed.

Lemma vrtx_create_chunk_edge_recurse_again_witness :
  exists s1,
    vrtx_create_chunk_edge_recurse SuffixFrom 2 0 1 [7; 7; 7]
      {| m_vrtxIdTree := tree_two_roots;
         m_vrtxRefCount := [0; 0]; m_maybeDelete := [] |} = Ok (s1, [3; 2; 4]) /\
    vrtx_create_chunk_edge_recurse SuffixFrom 2 0 1 [9; 9; 9] s1 = Ok (s1, [3; 2; 4]).
Proof.
  destruct (edge_recurse_Ok SuffixFrom 2 0 1 [7; 7; 7]
              {| m_vrtxIdTree := tree_two_roots;
                 m_vrtxRefCount := [0; 0]; m_maybeDelete := [] |})
    as (s1 & out & Hrun).
  assert (out = [3; 2; 4]) as -> by (vm_compute in Hrun; by injection Hrun as _ <-).
  exists s1. split; [exact Hrun|].
  exact (vrtx_create_chunk_edge_recurse_again SuffixFrom 2 0 1 [7; 7; 7] [9; 9; 9]
           [3; 2; 4] _ s1 eq_refl eq_refl Hrun).
Defined.

Lemma vrtx_create_chunk_edge_recurse_reverse_witness :
  exists s1,
    vrtx_create_chunk_edge_recurse SuffixFrom 2 0 1 [7; 7; 7]
      {| m_vrtxIdTree := tree_two_roots;
         m_vrtxRefCount := [0; 0]; m_maybeDelete := [] |} = Ok (s1, [3; 2; 4]) /\
    vrtx_create_chunk_edge_recurse SuffixFrom 2 1 0 [9; 9; 9] s1 = Ok (s1, [4; 2; 3]).
Proof.
  destruct (edge_recurse_Ok SuffixFrom 2 0 1 [7; 7; 7]
              {| m_vrtxIdTree := tree_two_roots;
                 m_vrtxRefCount := [0; 0]; m_maybeDelete := [] |})
    as (s1 & out & Hrun).
  assert (out = [3; 2; 4]) as -> by (vm_compute in Hrun; by injection Hrun as _ <-).
  exists s1. split; [exact Hrun|].
  exact (vrtx_create_chunk_edge_recurse_reverse SuffixFrom 2 0 1 [7; 7; 7] [9; 9; 9]
           [3; 2; 4] _ s1 eq_refl eq_refl Hrun).
Defined.

(* ===================================================================== *)
(** * Part V: further properties of the triangle groups *)

Lemma tri_id_parts (group sibling : Z) :
  0 <= group < 2 ^ 30 -> 0 <= sibling < 4 ->
  tri_group_id (tri_id group sibling) = group /\
  tri_sibling_index (tri_id group sibling) = sibling.
Proof.
  unfold tri_group_id, tri_sibling_index, tri_id, wrap32, wrap8.
  intros Hg Hs.
  rewrite (Z.mod_small (group * 4 + sibling)) by lia.
  split.
  - symmetry. apply (Z.div_unique _ 4 group sibling); lia.
  - rewrite Z.mod_small.
    + symmetry. apply (Z.mod_unique _ 4 group sibling); lia.
    + pose proof (Z.mod_pos_bound (group * 4 + sibling) 4 ltac:(lia)). lia.
Qed.

(** With resizing allowed [create] always returns: either a freed slot
    inside the array, which keeps its size, or the slot just past its
    end, which grows it by one. *)
Lemma create_false_shape (r : IdRegistry) :
  wf_registry r ->
  exists r' id,
    create false r = Ok (r', id) /\
    ((length (m_exists r') = length (m_exists r) /\
      0 <= id /\ (Z.to_nat id < length (m_exists r))%nat) \/
     (length (m_exists r') = S (length (m_exists r)) /\
      id = Z.of_nat (length (m_exists r)))).
Proof.
  intros [Hdel Hsize]. unfold create.
  destruct (m_deleted r) as [|d deleted'] eqn:Hd.
  - cbn [andb]. eexists _, _. split; [reflexivity|]. right.
    cbn [m_exists]. rewrite length_app. cbn [length].
    split; [lia|]. apply wrap32_small. unfold is_u32. lia.
  - eexists _, _. split; [reflexivity|]. left. cbn [m_exists].
    destruct (Hdel d) as [Hd0 Hdead]; [apply elem_of_cons; by left|].
    apply lookup_lt_Some in Hdead. rewrite length_insert. done.
Qed.

(** The loop of [tri_group_create] in closed form: the four triangles are
    overwritten and the twelve vertex references are counted in order. *)
Lemma tri_group_create_loop (vertices : array4 (Z * Z * Z))
    (rGroup : SkTriGroup) (base : SubdivSkeleton) :
  exists tris,
    foldl (tri_group_create_step vertices) (rGroup, base) [0; 1; 2; 3]
    = ({| m_triangles := tris; m_parent := m_parent rGroup;
          m_depth := m_depth rGroup |},
       foldl vrtx_refcount_add base (group_vertices vertices)) /\
    forall i, 0 <= i < 4 ->
      array4_get tris i
      = {| m_vertices := array4_get vertices i; m_children := None |}.
Proof.
  destruct vertices as [[[[[a0 b0] c0] [[a1 b1] c1]] [[a2 b2] c2]] [[a3 b3] c3]].
  destruct rGroup as [[[[t0 t1] t2] t3] p d].
  eexists. split; [reflexivity|].
  intros i Hi.
  assert (i = 0 \/ i = 1 \/ i = 2 \/ i = 3) as [->|[->|[->| ->]]] by lia;
    reflexivity.
Qed.

Lemma fold_refcount_add_tree (vs : list Z) (base : SubdivSkeleton) :
  m_vrtxIdTree (foldl vrtx_refcount_add base vs) = m_vrtxIdTree base /\
  m_maybeDelete (foldl vrtx_refcount_add base vs) = m_maybeDelete base /\
  m_vrtxRefCount (foldl vrtx_refcount_add base vs)
  = foldl (fun counts id => alter incr8 id counts) (m_vrtxRefCount base)
      (List.map Z.to_nat vs).
Proof.
  revert base. induction vs as [|v vs IH]; intros base; [done|].
  cbn [foldl List.map]. destruct (IH (vrtx_refcount_add base v)) as (-> & -> & ->).
  done.
Qed.

Lemma length_fold_incr8 (l : list nat) (v : list Z) :
  length (foldl (fun counts id => alter incr8 id counts) v l) = length v.
Proof.
  revert v. induction l as [|x l IH]; intros v; cbn [foldl]; [done|].
  by rewrite IH, length_alter.
Qed.

(** Repeated increments of 8-bit counters: each counter rises by the
    number of times its index occurs, modulo 256. *)
Lemma vec_get_fold_incr8 (l : list nat) (v : list Z) (k : nat) :
  Forall is_u8 v -> (k < length v)%nat ->
  vec_get (foldl (fun counts id => alter incr8 id counts) v l) k
  = wrap8 (vec_get v k + countZ (Nat.eqb k) l).
Proof.
  revert v. induction l as [|x l IH]; intros v Hu8 Hk; cbn [foldl countZ].
  - rewrite Z.add_0_r. symmetry. apply Z.mod_small.
    unfold vec_get. destruct (v !! k) as [y|] eqn:Hy; simpl.
    + by apply (Forall_lookup_1 _ _ _ _ Hu8 Hy).
    + lia.
  - rewrite IH.
    + rewrite vec_get_alter.
      destruct (decide (x = k)) as [->|Hne].
      * rewrite decide_True by done. rewrite Nat.eqb_refl.
        unfold incr8. rewrite wrap8_add_l. f_equal. lia.
      * rewrite decide_False by tauto.
        destruct (Nat.eqb_spec k x) as [->|_]; [done|]. f_equal.
    + apply Forall_alter; [done|]. intros y _ _. unfold incr8, wrap8, is_u8.
      apply Z.mod_pos_bound. lia.
    + by rewrite length_alter.
Qed.

(** The outcome of [tri_group_create], field by field. *)
Lemma tri_group_create_spec (sk : SubdivTriangleSkeleton) (depth parent : Z)
    (vertices : array4 (Z * Z * Z)) :
  wf_registry (m_triIds sk) ->
  exists triIds groupId tris,
    create false (m_triIds sk) = Ok (triIds, groupId) /\
    (forall i, 0 <= i < 4 ->
       array4_get tris i
       = {| m_vertices := array4_get vertices i; m_children := None |}) /\
    tri_group_create sk depth parent vertices
    = Ok ({| m_base := foldl vrtx_refcount_add (m_base sk) (group_vertices vertices);
             m_triIds := triIds;
             m_triData :=
               <[Z.to_nat groupId :=
                   {| m_triangles := tris; m_parent := parent; m_depth := depth |}]>
                 (resize (Z.to_nat (size_required triIds)) empty_group (m_triData sk));
             m_triRefCount :=
               resize (Z.to_nat (wrap32 (size_required triIds * 4))) 0
                 (m_triRefCount sk) |},
          groupId).
Proof.
  intros Hwf.
  destruct (create_false_shape (m_triIds sk) Hwf) as (triIds & groupId & Hc & _).
  unfold tri_group_create. rewrite Hc. cbn [mbind Result_bind].
  unfold tri_group_resize_fit_ids.
  cbn [m_base m_triIds m_triData m_triRefCount].
  match goal with
  | |- context [foldl (tri_group_create_step vertices) (?g, ?b) _] =>
      destruct (tri_group_create_loop vertices g b) as (tris & -> & Htris)
  end.
  cbn [m_parent m_depth].
  exists triIds, groupId, tris. done.
Qed.

(** X22.  [tri_group_create] and [tri_at]: on a well-formed triangle
    registry of fewer than [2^30 - 1] slots, [tri_group_create] returns a
    group id that was not live and is live afterwards; [tri_at] then
    finds, under each of the four triangle ids of the group, the vertices
    given for that sibling and no children; the group records the parent
    and depth given; and the two per-group arrays are resized to the
    registry's size, four reference counts per group. *)
Theorem tri_group_create_tri_at (sk : SubdivTriangleSkeleton) (depth parent : Z)
    (vertices : array4 (Z * Z * Z)) :
  registry_inv (m_triIds sk) ->
  Z.of_nat (length (m_exists (m_triIds sk))) < 2 ^ 30 - 1 ->
  exists sk' groupId,
    tri_group_create sk depth parent vertices = Ok (sk', groupId) /\
    ~ id_live (m_triIds sk) groupId /\
    id_live (m_triIds sk') groupId /\
    (forall i, 0 <= i < 4 ->
       tri_at sk' (tri_id groupId i)
       = Some {| m_vertices := array4_get vertices i; m_children := None |}) /\
    (exists rGroup, m_triData sk' !! Z.to_nat groupId = Some rGroup /\
       m_parent rGroup = parent /\ m_depth rGroup = depth) /\
    length (m_triData sk') = length (m_exists (m_triIds sk')) /\
    length (m_triRefCount sk') = (4 * length (m_exists (m_triIds sk')))%nat.
Proof.
  intros Hinv Hbound.
  destruct (tri_group_create_spec sk depth parent vertices (rg_wf _ Hinv))
    as (triIds & groupId & tris & Hc & Htris & Hrun).
  destruct (create_new_id false _ _ _ Hinv ltac:(lia) Hc)
    as (Hnot & Hlive & _ & _ & _).
  destruct (create_false_shape _ (rg_wf _ Hinv)) as (r2 & id2 & Hc2 & Hshape).
  rewrite Hc in Hc2. injection Hc2 as <- <-.
  assert (Z.of_nat (length (m_exists triIds)) < 2 ^ 30) as Hlen
    by (destruct Hshape as [(-> & _)|(-> & _)]; lia).
  pose proof (id_live_lt _ _ Hlive) as Hlt. destruct Hlive as [Hg0 Hlive].
  assert (size_required triIds = Z.of_nat (length (m_exists triIds))) as Hsize
    by (apply wrap32_small; unfold is_u32; lia).
  eexists _, groupId. split; [exact Hrun|].
  cbn [m_triIds m_triData m_triRefCount]. rewrite Hsize.
  rewrite wrap32_small by (unfold is_u32; lia).
  split; [done|]. split; [done|].
  assert (forall A (x d : A) (l : list A),
    <[Z.to_nat groupId := x]>
      (resize (Z.to_nat (Z.of_nat (length (m_exists triIds)))) d l)
    !! Z.to_nat groupId = Some x) as Hlook.
  { intros A x d l. apply list_lookup_insert_eq. rewrite length_resize. lia. }
  split; [|split; [|split]].
  - intros i Hi. unfold tri_at. cbn [m_triData].
    destruct (tri_id_parts groupId i) as [-> ->]; [lia|done|].
    rewrite Hlook. cbn [mbind option_bind m_triangles]. f_equal. by apply Htris.
  - eexists. split; [apply Hlook|]. done.
  - rewrite length_insert, length_resize. lia.
  - rewrite length_resize. lia.
Qed.

Lemma tri_group_create_tri_at_witness :
  exists sk' groupId,
    tri_group_create skeleton_three_roots 0 id_null
      ((0, 1, 2), (0, 1, 2), (2, 1, 0), (0, 0, 0)) = Ok (sk', groupId) /\
    tri_at sk' (tri_id groupId 2)
    = Some {| m_vertices := (2, 1, 0); m_children := None |}.
Proof.
  assert (registry_inv (m_triIds skeleton_three_roots)) as Hinv.
  { split; [split|].
    - intros id Hid. by apply elem_of_nil in Hid.
    - vm_compute. reflexivity.
    - apply NoDup_nil_2. }
  destruct (tri_group_create_tri_at skeleton_three_roots 0 id_null
              ((0, 1, 2), (0, 1, 2), (2, 1, 0), (0, 0, 0)) Hinv)
    as (sk' & groupId & Hrun & _ & _ & Hat & _).
  - vm_compute. reflexivity.
  - exists sk', groupId. split; [exact Hrun|]. apply (Hat 2). lia.
Defined.

(** X23.  [tri_group_create] leaves the other groups alone: when the group
    array has the registry's size, as [tri_group_create] leaves it,
    [tri_at] gives for every triangle id outside the new group what it
    gave before, the failure beyond the array included. *)
Theorem tri_group_create_keeps_others (sk sk' : SubdivTriangleSkeleton)
    (depth parent groupId : Z) (vertices : array4 (Z * Z * Z)) (triId : Z) :
  wf_registry (m_triIds sk) ->
  length (m_triData sk) = length (m_exists (m_triIds sk)) ->
  tri_group_create sk depth parent vertices = Ok (sk', groupId) ->
  0 <= triId -> tri_group_id triId <> groupId ->
  tri_at sk' triId = tri_at sk triId.
Proof.
  intros Hwf Hdata Hrun Ht Hne.
  destruct (tri_group_create_spec sk depth parent vertices Hwf)
    as (triIds & g & tris & Hc & _ & Hrun').
  rewrite Hrun in Hrun'. injection Hrun' as -> ->.
  destruct (create_false_shape _ Hwf) as (r2 & id2 & Hc2 & Hshape).
  rewrite Hc in Hc2. injection Hc2 as <- <-.
  pose proof (wf_exists_u32 _ Hwf) as Hu32.
  assert (0 <= tri_group_id triId) as Hg0
    by (unfold tri_group_id; apply Z.div_pos; lia).
  unfold tri_at. cbn [m_triData].
  rewrite list_lookup_insert_ne by lia.
  unfold size_required.
  destruct Hshape as [(Hlen & _ & _)|(Hlen & ->)].
  - rewrite Hlen. rewrite wrap32_small by (unfold is_u32; lia).
    rewrite Nat2Z.id, <- Hdata. by rewrite resize_all.
  - rewrite Hlen. rewrite wrap32_small by (unfold is_u32; lia).
    rewrite Nat2Z.id, <- Hdata.
    destruct (decide (Z.to_nat (tri_group_id triId) < length (m_triData sk))%nat)
      as [Hin|Hout].
    + by rewrite lookup_resize by lia.
    + rewrite lookup_resize_old by lia.
      by rewrite (lookup_ge_None_2 (m_triData sk)) by lia.
Qed.

Lemma tri_group_create_keeps_others_witness :
  exists sk1 sk2,
    tri_group_create skeleton_three_roots 0 id_null
      ((0, 1, 2), (0, 1, 2), (2, 1, 0), (0, 0, 0)) = Ok (sk1, 0) /\
    tri_group_create sk1 1 2 ((1, 1, 1), (2, 2, 2), (0, 0, 0), (0, 1, 2))
      = Ok (sk2, 1) /\
    tri_at sk2 2 = tri_at sk1 2.
Proof.
  destruct (tri_group_create skeleton_three_roots 0 id_null
              ((0, 1, 2), (0, 1, 2), (2, 1, 0), (0, 0, 0)))
    as [[sk1 g1]|e] eqn:Hrun1; [|vm_compute in Hrun1; discriminate].
  vm_compute in Hrun1. injection Hrun1 as Hsk1 <-.
  exists sk1.
  destruct (tri_group_create sk1 1 2 ((1, 1, 1), (2, 2, 2), (0, 0, 0), (0, 1, 2)))
    as [[sk2 g2]|e] eqn:Hrun2;
    [|rewrite <- Hsk1 in Hrun2; vm_compute in Hrun2; discriminate].
  assert (g2 = 1) as ->
    by (rewrite <- Hsk1 in Hrun2; vm_compute in Hrun2; by injection Hrun2 as _ <-).
  exists sk2. split; [reflexivity|]. split; [reflexivity|].
  apply (tri_group_create_keeps_others sk1 sk2 1 2 1
           ((1, 1, 1), (2, 2, 2), (0, 0, 0), (0, 1, 2)) 2).
  - rewrite <- Hsk1. split.
    + intros id Hid. apply list_elem_of_In in Hid. vm_compute in Hid. done.
    + vm_compute. reflexivity.
  - rewrite <- Hsk1. reflexivity.
  - exact Hrun2.
  - lia.
  - vm_compute. discriminate.
Defined.

(** X24.  [tri_group_create] counts every vertex reference: the vertex
    tree is untouched, and each 8-bit vertex reference count rises by the
    number of times the vertex occurs among the twelve corners, a vertex
    shared by several triangles being counted once per corner, modulo
    256. *)
Theorem tri_group_create_refcounts (sk sk' : SubdivTriangleSkeleton)
    (depth parent groupId : Z) (vertices : array4 (Z * Z * Z)) (k : nat) :
  wf_registry (m_triIds sk) ->
  Forall is_u8 (m_vrtxRefCount (m_base sk)) ->
  (k < length (m_vrtxRefCount (m_base sk)))%nat ->
  tri_group_create sk depth parent vertices = Ok (sk', groupId) ->
  m_vrtxIdTree (m_base sk') = m_vrtxIdTree (m_base sk) /\
  length (m_vrtxRefCount (m_base sk')) = length (m_vrtxRefCount (m_base sk)) /\
  vec_get (m_vrtxRefCount (m_base sk')) k
  = wrap8 (vec_get (m_vrtxRefCount (m_base sk)) k
           + countZ (Nat.eqb k) (List.map Z.to_nat (group_vertices vertices))).
Proof.
  intros Hwf Hu8 Hk Hrun.
  destruct (tri_group_create_spec sk depth parent vertices Hwf)
    as (triIds & g & tris & _ & _ & Hrun').
  rewrite Hrun in Hrun'. injection Hrun' as -> ->. cbn [m_base].
  destruct (fold_refcount_add_tree (group_vertices vertices) (m_base sk))
    as (-> & _ & ->).
  split; [done|]. split.
  - apply length_fold_incr8.
  - by apply vec_get_fold_incr8.
Qed.

Lemma tri_group_create_refcounts_witness :
  exists sk',
    tri_group_create skeleton_three_roots 0 id_null
      ((0, 1, 2), (0, 1, 2), (2, 1, 0), (0, 0, 0)) = Ok (sk', 0) /\
    vec_get (m_vrtxRefCount (m_base sk')) 0 = wrap8 (0 + 6).
Proof.
  eexists. split; [reflexivity|].
  refine (proj2 (proj2 (tri_group_create_refcounts skeleton_three_roots _ 0 id_null 0
            ((0, 1, 2), (0, 1, 2), (2, 1, 0), (0, 0, 0)) 0%nat _ _ _ eq_refl))).
  - split.
    + intros id Hid. by apply elem_of_nil in Hid.
    + vm_compute. reflexivity.
  - repeat constructor; unfold is_u8; lia.
  - vm_compute. lia.
Defined.
